(** * Field-set merging (apollo-gateway, [FieldSet.ts]) and the schema
      normaliser of apollo-federation ([composition/utils])

    The development has five parts.

    - [Merger]: the functions of [packages/apollo-gateway/src/FieldSet.ts]
      over selection trees seen as values. A tree has no identity: this is
      what the code computes when no [SelectionSetNode] object occurs at
      two places of its input.
    - [Store]: the same functions over a store of [SelectionSetNode]
      objects, which keeps track of the objects shared between the input
      and the output and of the assignments made to them; it follows the
      code on every input. On stores where no object is shared the two
      agree ([mergeWithFuel_refines], [selectionSetFromFieldSet_refines]);
      where one is shared they need not.
    - [Normalizer]: the two functions of the federation composition
      utilities, whose source is not part of the repository snapshot.
    - [Config]: [determineApolloConfig], which puts the constructor argument
      and the environment variables together.
    - [Errors]: [ApolloError], [toApolloError] and [formatApolloErrors] of
      [packages/apollo-server-core/src/errors.ts]. *)

From stdpp Require Import base option list gmap strings.

Set Warnings "-register-all".
Set Default Proof Using "Type".

Open Scope string_scope.
Open Scope list_scope.

(** ** Outcomes of a JavaScript computation *)

(** A call either returns or throws a [TypeError] (reading a property of
    [undefined]). [Stuck] is the answer of the model where it has none: a
    recursion bound is exhausted or, over a store, a reference points
    outside it. *)
Inductive outcome (A : Type) : Type :=
| Done (a : A)
| TypeError
| Stuck.
Arguments Done {A} a.
Arguments TypeError {A}.
Arguments Stuck {A}.

Definition bind {A B : Type} (m : outcome A) (k : A -> outcome B) : outcome B :=
  match m with
  | Done a => k a
  | TypeError => TypeError
  | Stuck => Stuck
  end.

Notation "'do' x <- m ; k" := (bind m (fun x => k))
  (at level 10, x pattern, m at level 100, k at level 200).

(** [array.map(f)] for a callback that may throw: elements are visited from
    left to right and the first exception ends the call. *)
Fixpoint mapM {A B : Type} (f : A -> outcome B) (l : list A) : outcome (list B) :=
  match l with
  | [] => Done []
  | a :: l' => do b <- f a; do bs <- mapM f l'; Done (b :: bs)
  end.

(** The results of [f] on the elements of a list, if it has one on each. *)
Fixpoint traverse {A B : Type} (f : A -> option B) (l : list A) : option (list B) :=
  match l with
  | [] => Some []
  | a :: l' =>
      match f a, traverse f l' with
      | Some b, Some bs => Some (b :: bs)
      | _, _ => None
      end
  end.

(** [for (const x of l) { st = step(st, x) }] with a body that may throw. *)
Fixpoint foldM {A S : Type} (step : S -> A -> outcome S) (l : list A) (st : S) : outcome S :=
  match l with
  | [] => Done st
  | a :: l' => do st' <- step st a; foldM step l' st'
  end.

(** ** JavaScript [Map] *)

(** A [Map] iterates in insertion order, and [set] on a key already present
    keeps its position: an association list in insertion order. [sameKey] is
    the key comparison of [Map] (by value on strings, by identity on
    objects). *)
Section JSMap.
Context {K V : Type}.
Variable sameKey : K -> K -> bool.

Fixpoint map_get (key : K) (m : list (K * V)) : option V :=
    match m with
    | [] => None
    | (k, v) :: m' => if sameKey k key then Some v else map_get key m'
    end.

Fixpoint map_set (key : K) (v : V) (m : list (K * V)) : list (K * V) :=
    match m with
    | [] => [(key, v)]
    | (k, v0) :: m' =>
        if sameKey k key then (k, v) :: m' else (k, v0) :: map_set key v m'
    end.
End JSMap.

(** ** First occurrences *)

(** The elements of a list whose key did not occur before them, in the
    order of the list: "first-appearance order". *)
Section FirstOccurrences.
Context {A K : Type}.
Variable sameKey : K -> K -> bool.
Variable key : A -> K.

Fixpoint firstOccurrences (l : list A) : list A :=
    match l with
    | [] => []
    | x :: l' =>
        x :: List.filter (fun y => negb (sameKey (key x) (key y)))
                         (firstOccurrences l')
    end.

  (** The elements of [l] that have the key [k]. *)
Definition withKey (k : K) (l : list A) : list A :=
    List.filter (fun x => sameKey k (key x)) l.

  (** Whether some element of [l] has the key [k]. *)
Definition hasKey (k : K) (l : list A) : bool :=
    existsb (fun y => sameKey (key y) k) l.

  (** No two elements of the list have the same key. *)
Inductive distinctKeys : list A -> Prop :=
  | distinct_nil : distinctKeys []
  | distinct_cons x l :
      hasKey (key x) l = false -> distinctKeys l -> distinctKeys (x :: l).
End FirstOccurrences.

(** ** The document model of graphql-js used by [FieldSet.ts] *)

(** [flat_map] and [concat] below are [Array.prototype.flatMap] and the
    spreading of arrays into [push]. *)

(** [FieldNode]: [alias?], [name], [arguments?], [directives?],
    [selectionSet?]. A name node is its [value]; an argument is a name and
    its printed value. [SS] is what a [selectionSet] property holds: the
    selections themselves where trees are values, a reference where the
    [SelectionSetNode] objects live in a store. *)
Record FieldNodeOf (SS : Type) : Type := mkFieldNode {
  alias : option string;
  name : string;
  arguments : list (string * string);
  directives : list string;
  selectionSet : option SS
}.
Arguments mkFieldNode {SS}.
Arguments alias {SS}.
Arguments name {SS}.
Arguments arguments {SS}.
Arguments directives {SS}.
Arguments selectionSet {SS}.

Module Ast.

(** [SelectionNode = FieldNode | FragmentSpreadNode | InlineFragmentNode].
    A fragment spread has a [name] and no [selectionSet]; an inline fragment
    has an optional [typeCondition] and always a [selectionSet]. *)
Inductive SelectionNode : Type :=
| FIELD (f : FieldNodeOf (list SelectionNode))
| FRAGMENT_SPREAD (spreadName : string) (spreadDirectives : list string)
| INLINE_FRAGMENT (typeCondition : option string)
                  (fragmentDirectives : list string)
                  (fragmentSelections : list SelectionNode).

End Ast.
Export Ast.

Definition FieldNode : Type := FieldNodeOf (list SelectionNode).

(** [node.selectionSet], [None] when the property is absent. *)
Definition selectionSet_of (node : SelectionNode) : option (list SelectionNode) :=
  match node with
  | FIELD f => selectionSet f
  | FRAGMENT_SPREAD _ _ => None
  | INLINE_FRAGMENT _ _ s => Some s
  end.

(** [node.name?.value], [None] when the node has no [name]. *)
Definition nameValue (node : SelectionNode) : option string :=
  match node with
  | FIELD f => Some (name f)
  | FRAGMENT_SPREAD n _ => Some n
  | INLINE_FRAGMENT _ _ _ => None
  end.

(** [node.typeCondition], [None] when the property is absent. *)
Definition typeCondition_of (node : SelectionNode) : option string :=
  match node with
  | INLINE_FRAGMENT tc _ _ => tc
  | _ => None
  end.

(** The named types of a schema, as far as [getNamedType] and
    [isCompositeType] of graphql-js look at them. *)
Inductive TypeKind : Type :=
| SCALAR | OBJECT | INTERFACE | UNION | ENUM | INPUT_OBJECT.

Inductive GraphQLType : Type :=
| GraphQLNamedType (k : TypeKind) (n : string)
| GraphQLList (ofType : GraphQLType)
| GraphQLNonNull (ofType : GraphQLType).

Fixpoint getNamedType (t : GraphQLType) : GraphQLType :=
  match t with
  | GraphQLNamedType _ _ => t
  | GraphQLList t' => getNamedType t'
  | GraphQLNonNull t' => getNamedType t'
  end.

Definition isCompositeType (t : GraphQLType) : bool :=
  match t with
  | GraphQLNamedType OBJECT _
  | GraphQLNamedType INTERFACE _
  | GraphQLNamedType UNION _ => true
  | _ => false
  end.

(** A [GraphQLCompositeType] is an object of the schema: [oid] is the
    identity of the object (what [===] and [Map] compare), [typeName] its
    [name] property. Two objects may carry the same name. *)
Record GraphQLCompositeType : Type := mkType {
  oid : nat;
  typeName : string
}.

(** [a === b] on type objects. *)
Definition sameObject (a b : GraphQLCompositeType) : bool :=
  Nat.eqb (oid a) (oid b).

(** [GraphQLField]: its [name] and [type]. *)
Record GraphQLField : Type := mkFieldDef {
  fieldDefName : string;
  fieldDefType : GraphQLType
}.

Inductive Scope : Type :=
| mkScope (parentType : GraphQLCompositeType)
          (possibleTypes : list GraphQLCompositeType)
          (enclosingScope : option Scope).

Definition parentType (s : Scope) : GraphQLCompositeType :=
  match s with mkScope p _ _ => p end.

Record FieldOf (SS : Type) : Type := mkField {
  scope : Scope;
  fieldNode : FieldNodeOf SS;
  fieldDef : GraphQLField
}.
Arguments mkField {SS}.
Arguments scope {SS}.
Arguments fieldNode {SS}.
Arguments fieldDef {SS}.

Definition Field : Type := FieldOf (list SelectionNode).
Definition FieldSet : Type := list Field.

(** Modelled from the spec: [getResponseName] of [./utilities/graphql], which
    [FieldSet.ts] imports and the repository snapshot does not contain. The
    response name is the alias if given, else the field name. *)
Definition getResponseName {SS : Type} (node : FieldNodeOf SS) : string :=
  match alias node with
  | Some a => a
  | None => name node
  end.

(** The keys of a [Map] are compared by SameValueZero, which is an
    equivalence: [sameKey] stands for it on the keys in use. *)
Definition keyEquality {U : Type} (sameKey : U -> U -> bool) : Prop :=
  (forall a, sameKey a a = true) /\
  (forall a b, sameKey a b = sameKey b a) /\
  (forall a b c, sameKey a b = true -> sameKey b c = true -> sameKey a c = true).

Section GroupBy.
Context {T U : Type}.
Variable sameKey : U -> U -> bool.
Variable keyFunction : T -> U.

Definition groupBy_step (result : list (U * list T)) (element : T)
    : list (U * list T) :=
    let key := keyFunction element in
    match map_get sameKey key result with
    | Some group => map_set sameKey key (group ++ [element]) result
    | None => map_set sameKey key [element] result
    end.

Definition groupBy (iterable : list T) : list (U * list T) :=
    fold_left groupBy_step iterable [].

  (** The group of the element [e] of [l]: its key and the elements of [l]
      with that key. *)
Definition groupOf (l : list T) (e : T) : U * list T :=
    (keyFunction e, withKey sameKey keyFunction (keyFunction e) l).
End GroupBy.

Definition groupByResponseName {SS : Type}
  : list (FieldOf SS) -> list (string * list (FieldOf SS)) :=
  groupBy String.eqb (fun field => getResponseName (fieldNode field)).

Definition groupByParentType {SS : Type}
  : list (FieldOf SS) -> list (GraphQLCompositeType * list (FieldOf SS)) :=
  groupBy sameObject (fun field => parentType (scope field)).

(** ** [printFields] and [matchesField] *)

(** The double quote character. *)
Definition doubleQuote : string := String (Ascii.ascii_of_nat 34) EmptyString.

(** The template literal of [printFields]: the name of the parent type, a
    dot and the name of the field definition, between double quotes. *)
Definition printField {SS : Type} (field : FieldOf SS) : string :=
  doubleQuote +:+ typeName (parentType (scope field)) +:+ "." +:+
  fieldDefName (fieldDef field) +:+ doubleQuote.

(** [printFields(fields?)]: [None] is the argument left out. [String.concat]
    is [Array.prototype.join]. *)
Definition printFields {SS : Type} (fields : option (list (FieldOf SS)))
  : string :=
  match fields with
  | None => "[]"
  | Some fs => "[" +:+ String.concat ", " (map printField fs) +:+ "]"
  end.

(** [matchesField(field)(otherField)] *)
Definition matchesField {SS : Type} (field otherField : FieldOf SS) : bool :=
  String.eqb (fieldDefName (fieldDef field)) (fieldDefName (fieldDef otherField)).

(** ** The first loop of [mergeSelectionsSetsInternal] *)

(** The values of [selectionMap]. *)
Record MergeEntryOf (N : Type) : Type := mkEntry {
  field : list N;
  selections : list N
}.
Arguments mkEntry {N}.
Arguments field {N}.
Arguments selections {N}.

(** The loop looks at a node through its [selectionSet], [name] and
    [typeCondition] properties and reads the [selections] of a selection
    set. It is written once for the two representations of the nodes: [SS]
    is what a [selectionSet] property holds, and [selectionsOf] reads the
    [selections] of it. *)
Module Loop.
Section Loop.
Context {N SS : Type}.
Variable selectionSet_of : N -> option SS.
Variable nameValue : N -> option string.
Variable typeCondition_of : N -> option string.
Variable selectionsOf : SS -> outcome (list N).

(** [fieldNode.name?.value || fieldNode.typeCondition.name.value]; [None]
    when the expression throws, that is when the name is absent or empty and
    there is no type condition. *)
Definition selectionKey (node : N) : option string :=
  match nameValue node with
  | Some v => if String.eqb v "" then typeCondition_of node else Some v
  | None => typeCondition_of node
  end.

(** [scalars.find(scalar => scalar.name.value === v)] found something. *)
Definition findScalar (v : string) (scalars : list N) : bool :=
  existsb (fun scalar =>
             match nameValue scalar with
             | Some w => String.eqb w v
             | None => false
             end) scalars.

(** The body of the first loop. *)
Definition collect_step
    (st : list N * list (string * MergeEntryOf N)) (fieldNode : N)
  : outcome (list N * list (string * MergeEntryOf N)) :=
  let '(scalars, selectionMap) := st in
  match selectionSet_of fieldNode with
  | None =>
      match nameValue fieldNode with
      | None => TypeError
      | Some v =>
          if findScalar v scalars then Done (scalars, selectionMap)
          else Done (scalars ++ [fieldNode], selectionMap)
      end
  | Some selectionSet =>
      match selectionKey fieldNode with
      | None => TypeError
      | Some key =>
          let entry :=
            match map_get String.eqb key selectionMap with
            | Some e => e
            | None => mkEntry [fieldNode] []
            end in
          do children <- selectionsOf selectionSet;
          Done (scalars,
                map_set String.eqb key
                  (mkEntry (field entry ++ [fieldNode])
                           (selections entry ++ children))
                  selectionMap)
      end
  end.

(** *** The vocabulary of the merge rule *)

(** A leaf item has no nested selection, a branching item has one. *)
Definition isLeaf (node : N) : bool :=
  match selectionSet_of node with
  | None => true
  | Some _ => false
  end.

Definition leaves (l : list N) : list N := List.filter isLeaf l.

Definition branches (l : list N) : list N :=
  List.filter (fun node => negb (isLeaf node)) l.

(** Whether [selectionKey] has a value, and that value. *)
Definition keyed (node : N) : bool :=
  match selectionKey node with
  | Some _ => true
  | None => false
  end.

Definition keyOf (node : N) : string :=
  match selectionKey node with
  | Some k => k
  | None => ""
  end.

(** The entry [selectionMap] holds for a group of branching items: the
    first member twice, then the others, and the nested selections of all
    members, [children] giving those of one. *)
Definition entryOf (children : N -> list N) (kg : string * list N)
  : string * MergeEntryOf N :=
  (fst kg,
   mkEntry (match snd kg with [] => [] | first :: _ => first :: snd kg end)
           (flat_map children (snd kg))).
End Loop.
End Loop.

(** [===] on [name.value] where the name may be absent. *)
Definition sameName (a b : option string) : bool :=
  match a, b with
  | Some x, Some y => String.eqb x y
  | None, None => true
  | _, _ => false
  end.

(** ** The merger over selection trees as values *)

Module Merger.

(** *** [mergeSelectionsSetsInternal] *)

(** The loop over selection trees as values: a [selectionSet] holds its
    selections. The assignment of the second phase is read as the
    construction of a new tree, which is what it amounts to when the object
    assigned to occurs at one place only; an object that occurs at several
    places is changed at all of them, and the [Store] below is the model
    that shows it. *)
Abbreviation MergeEntry := (MergeEntryOf SelectionNode).
Abbreviation selectionKey := (Loop.selectionKey nameValue typeCondition_of).
Abbreviation findScalar := (Loop.findScalar nameValue).
Abbreviation collect_step :=
  (Loop.collect_step selectionSet_of nameValue typeCondition_of
     (@Done (list SelectionNode))).
Abbreviation isLeaf := (Loop.isLeaf selectionSet_of).
Abbreviation leaves := (Loop.leaves selectionSet_of).
Abbreviation branches := (Loop.branches selectionSet_of).
Abbreviation keyed := (Loop.keyed nameValue typeCondition_of).
Abbreviation keyOf := (Loop.keyOf nameValue typeCondition_of).

(** [clone.selectionSet?.selections = merged] on [clone = {...field}],
    read as a value: the node with [merged] as its selections. The object
    [field.selectionSet], which the clone shares, is out of sight here. *)
Definition withSelections (node : SelectionNode) (merged : list SelectionNode)
  : SelectionNode :=
  match node with
  | FIELD f =>
      FIELD (mkFieldNode (alias f) (name f) (arguments f) (directives f)
                         (Some merged))
  | FRAGMENT_SPREAD n d => FRAGMENT_SPREAD n d
  | INLINE_FRAGMENT tc d _ => INLINE_FRAGMENT tc d merged
  end.

(** The recursion of the source is on the selections gathered from the
    members of a group, which are deeper in the tree than the group: [fuel]
    bounds the depth the call may descend. On input without shared objects
    this is the result of the code ([mergeWithFuel_refines]). *)
Fixpoint mergeWithFuel (fuel : nat) (fieldNodes : list SelectionNode)
  : outcome (list SelectionNode) :=
  match fuel with
  | O => Stuck
  | S fuel' =>
      do st <- foldM collect_step fieldNodes ([], []);
      let '(scalars, selectionMap) := st in
      do result <-
        mapM (fun kv : string * MergeEntry =>
                let selection := snd kv in
                match head (field selection) with
                | None => TypeError
                | Some first =>
                    match selectionKey first with
                    | None => TypeError
                    | Some key =>
                        match map_get String.eqb key selectionMap with
                        | None => TypeError
                        | Some e =>
                            match head (field e) with
                            | None => TypeError
                            | Some template =>
                                match selectionSet_of template with
                                | None => Done template
                                | Some _ =>
                                    do merged <-
                                      mergeWithFuel fuel' (selections selection);
                                    Done (withSelections template merged)
                                end
                            end
                        end
                    end
                end)
             selectionMap;
      Done (scalars ++ result)
  end.

(** The depth of a list of selections: how far the merge descends. *)
Fixpoint depth (node : SelectionNode) : nat :=
  match node with
  | FIELD f =>
      match selectionSet f with
      | None => 0
      | Some l => S (list_max (map depth l))
      end
  | FRAGMENT_SPREAD _ _ => 0
  | INLINE_FRAGMENT _ _ s => S (list_max (map depth s))
  end.

Definition depthList (l : list SelectionNode) : nat := list_max (map depth l).

Definition mergeSelectionsSetsInternal (fieldNodes : list SelectionNode)
  : outcome (list SelectionNode) :=
  mergeWithFuel (S (depthList fieldNodes)) fieldNodes.

(** The nested selections of a node, none for a leaf. *)
Definition children (node : SelectionNode) : list SelectionNode :=
  match selectionSet_of node with
  | Some s => s
  | None => []
  end.

Abbreviation entryOf := (Loop.entryOf children).

(** The selections on which [selectionKey] has a value at every branching
    item, however deep: every inline fragment has a type condition and every
    field with a nested selection a name that is not empty. *)
Fixpoint wellKeyed (node : SelectionNode) : bool :=
  match node with
  | FIELD f =>
      match selectionSet f with
      | None => true
      | Some s => negb (String.eqb (name f) "") && forallb wellKeyed s
      end
  | FRAGMENT_SPREAD _ _ => true
  | INLINE_FRAGMENT tc _ s =>
      match tc with Some _ => true | None => false end && forallb wellKeyed s
  end.

(** The selections the merge returns when it returns: the leaf items, one
    per name, then one item per key of the branching items, whose nested
    selection is that of the merge of the nested selections of the items
    with that key. *)
Fixpoint mergedWithFuel (fuel : nat) (l : list SelectionNode)
  : list SelectionNode :=
  match fuel with
  | O => []
  | S fuel' =>
      firstOccurrences sameName nameValue (leaves l) ++
      map (fun e =>
             withSelections e
               (mergedWithFuel fuel'
                  (flat_map children
                     (withKey String.eqb keyOf (keyOf e) (branches l)))))
          (firstOccurrences String.eqb keyOf (branches l))
  end.

(** *** [mergeSelectionSets], [combineFields], [wrapInInlineFragmentIfNeeded] *)

(** The selections pushed by the loop of [mergeSelectionSets]. *)
Definition gatherSelections (fieldNodes : list FieldNode) : list SelectionNode :=
  flat_map (fun fieldNode =>
              match selectionSet fieldNode with
              | None => []
              | Some s => s
              end) fieldNodes.

Definition mergeSelectionSets (fieldNodes : list FieldNode)
  : outcome (list SelectionNode) :=
  mergeSelectionsSetsInternal (gatherSelections fieldNodes).

Definition combineFields (fields : FieldSet) : outcome Field :=
  match fields with
  | [] => TypeError
  | first :: _ =>
      let returnType := getNamedType (fieldDefType (fieldDef first)) in
      if isCompositeType returnType then
        do merged <- mergeSelectionSets (map fieldNode fields);
        Done (mkField (scope first)
                (mkFieldNode (alias (fieldNode first)) (name (fieldNode first))
                   (arguments (fieldNode first)) (directives (fieldNode first))
                   (Some merged))
                (fieldDef first))
      else Done (mkField (scope first) (fieldNode first) (fieldDef first))
  end.

Definition wrapInInlineFragmentIfNeeded
    (selections : list SelectionNode)
    (typeCondition : GraphQLCompositeType)
    (parentType : option GraphQLCompositeType) : list SelectionNode :=
  let same :=
    match parentType with
    | Some p => sameObject typeCondition p
    | None => false
    end in
  if same then selections
  else [INLINE_FRAGMENT (Some (typeName typeCondition)) [] selections].

(** The selections of one declaring-type group, before they are wrapped. *)
Definition combinedSelections (fieldsByParentType : FieldSet)
  : outcome (list SelectionNode) :=
  mapM (fun kv : string * FieldSet =>
          do combined <- combineFields (snd kv);
          Done (FIELD (fieldNode combined)))
       (groupByResponseName fieldsByParentType).

(** [selectionSetFromFieldSet]; the result is the [selections] array of the
    [SelectionSetNode] it returns. On fields without shared objects this is
    the result of the code ([selectionSetFromFieldSet_refines]). *)
Definition selectionSetFromFieldSet
    (fields : FieldSet) (parentType : option GraphQLCompositeType)
  : outcome (list SelectionNode) :=
  do groups <-
    mapM (fun kv : GraphQLCompositeType * FieldSet =>
            let '(typeCondition, fieldsByParentType) := kv in
            do sels <- combinedSelections fieldsByParentType;
            Done (wrapInInlineFragmentIfNeeded sels typeCondition parentType))
         (groupByParentType fields);
  Done (concat groups).

(** The declaring type and the response name of a field of a FieldSet,
    the two keys of the grouping. *)
Definition declaringType (f : Field) : GraphQLCompositeType :=
  parentType (scope f).

Definition responseName (f : Field) : string :=
  getResponseName (fieldNode f).

(** Whether a selection is a field with the response name [r]. *)
Definition hasResponseName (r : string) (node : SelectionNode) : bool :=
  match node with
  | FIELD f => String.eqb r (getResponseName f)
  | _ => false
  end.

(** [typeCondition === parentType] *)
Definition isParentType (typeCondition : GraphQLCompositeType)
    (parentType : option GraphQLCompositeType) : bool :=
  match parentType with
  | Some p => sameObject typeCondition p
  | None => false
  end.

(** [{...fieldNode, selectionSet: merged}] *)
Definition withSelectionSet (node : FieldNode) (merged : list SelectionNode)
  : FieldNode :=
  mkFieldNode (alias node) (name node) (arguments node) (directives node)
              (Some merged).

(** *** Example selections *)

Definition leaf_ (a : option string) (n : string) : SelectionNode :=
  FIELD (mkFieldNode a n [] [] None).

Definition branch_ (n : string) (s : list SelectionNode) : SelectionNode :=
  FIELD (mkFieldNode None n [] [] (Some s)).

Definition stringField : GraphQLField :=
  mkFieldDef "f" (GraphQLNamedType SCALAR "String").

Definition objectField : GraphQLField :=
  mkFieldDef "f" (GraphQLNonNull (GraphQLNamedType OBJECT "O")).

(** Type objects that all carry the name [T]. *)
Definition typeT (i : nat) : GraphQLCompositeType := mkType i "T".

(** A field of the declaring type [T]. *)
Definition field_ (T : GraphQLCompositeType) (n : string) (def : GraphQLField)
    (s : option (list SelectionNode)) : Field :=
  mkField (mkScope T [] None) (mkFieldNode None n [] [] s) def.

End Merger.

(** ** The merger over a store of [SelectionSetNode] objects *)

(** [mergeSelectionsSetsInternal] copies a node with [{...field}] and then
    assigns to [clone.selectionSet.selections]. The copy is shallow, so
    [clone.selectionSet] is the very [SelectionSetNode] object of [field].
    To follow these assignments the [SelectionSetNode] objects are kept in a
    store, addressed by references; a node holds the reference of its
    [selectionSet]. The node objects themselves and the arrays are never
    assigned to after they are built, so they remain values. *)
Module Store.

Definition loc : Type := nat.

Inductive Node : Type :=
| FIELD (f : FieldNodeOf loc)
| FRAGMENT_SPREAD (spreadName : string) (spreadDirectives : list string)
| INLINE_FRAGMENT (typeCondition : option string)
                  (fragmentDirectives : list string)
                  (fragmentSelectionSet : loc).

(** The [selections] property of each [SelectionSetNode] object. *)
Abbreviation store := (gmap loc (list Node)).

Definition Field : Type := FieldOf loc.
Definition FieldSet : Type := list Field.

Definition selectionSet_of (node : Node) : option loc :=
  match node with
  | FIELD f => selectionSet f
  | FRAGMENT_SPREAD _ _ => None
  | INLINE_FRAGMENT _ _ l => Some l
  end.

Definition nameValue (node : Node) : option string :=
  match node with
  | FIELD f => Some (name f)
  | FRAGMENT_SPREAD n _ => Some n
  | INLINE_FRAGMENT _ _ _ => None
  end.

Definition typeCondition_of (node : Node) : option string :=
  match node with
  | INLINE_FRAGMENT tc _ _ => tc
  | _ => None
  end.

(** [selectionSet.selections] *)
Definition read (h : store) (l : loc) : outcome (list Node) :=
  match h !! l with
  | Some sels => Done sels
  | None => Stuck
  end.

(** [{ kind: Kind.SELECTION_SET, selections }]: a new object. *)
Definition alloc (sels : list Node) (h : store) : loc * store :=
  let l := fresh (dom h) in (l, <[l := sels]> h).

(** The loop over the store: a [selectionSet] holds a reference and its
    selections are read from the store. The loop does not assign. *)
Abbreviation MergeEntry := (MergeEntryOf Node).
Abbreviation selectionKey := (Loop.selectionKey nameValue typeCondition_of).
Abbreviation findScalar := (Loop.findScalar nameValue).
Abbreviation collect_step h :=
  (Loop.collect_step selectionSet_of nameValue typeCondition_of (read h)).
Abbreviation isLeaf := (Loop.isLeaf selectionSet_of).
Abbreviation leaves := (Loop.leaves selectionSet_of).
Abbreviation branches := (Loop.branches selectionSet_of).
Abbreviation keyed := (Loop.keyed nameValue typeCondition_of).
Abbreviation keyOf := (Loop.keyOf nameValue typeCondition_of).

(** The selections a node has in the store, none for a leaf. *)
Definition children (h : store) (node : Node) : list Node :=
  match selectionSet_of node with
  | Some l => match h !! l with Some sels => sels | None => [] end
  | None => []
  end.

Abbreviation entryOf h := (Loop.entryOf (children h)).

(** [array.map(f)] for a callback that assigns to objects of the store. *)
Fixpoint mapS {A B : Type} (f : A -> store -> outcome (B * store))
    (l : list A) (h : store) : outcome (list B * store) :=
  match l with
  | [] => Done ([], h)
  | a :: l' =>
      do r <- f a h;
      do rs <- mapS f l' (snd r);
      Done (fst r :: fst rs, snd rs)
  end.

(** The second phase: [clone = {...field}] has the properties of [field],
    its [selectionSet] reference included, and the assignment to
    [clone.selectionSet.selections] writes the object at that reference. *)
Fixpoint mergeWithFuel (fuel : nat) (fieldNodes : list Node) (h : store)
  : outcome (list Node * store) :=
  match fuel with
  | O => Stuck
  | S fuel' =>
      do st <- foldM (collect_step h) fieldNodes ([], []);
      let '(scalars, selectionMap) := st in
      do r <-
        mapS (fun (kv : string * MergeEntry) (h1 : store) =>
                let selection := snd kv in
                match head (field selection) with
                | None => TypeError
                | Some first =>
                    match selectionKey first with
                    | None => TypeError
                    | Some key =>
                        match map_get String.eqb key selectionMap with
                        | None => TypeError
                        | Some e =>
                            match head (field e) with
                            | None => TypeError
                            | Some template =>
                                match selectionSet_of template with
                                | None => Done (template, h1)
                                | Some l =>
                                    do m <- mergeWithFuel fuel'
                                              (selections selection) h1;
                                    Done (template, <[l := fst m]> (snd m))
                                end
                            end
                        end
                    end
                end)
             selectionMap h;
      Done (scalars ++ fst r, snd r)
  end.

(** The loop of [mergeSelectionSets]. *)
Fixpoint gatherSelections (h : store) (fieldNodes : list (FieldNodeOf loc))
  : outcome (list Node) :=
  match fieldNodes with
  | [] => Done []
  | fieldNode :: rest =>
      do here <-
        match selectionSet fieldNode with
        | None => Done []
        | Some l => read h l
        end;
      do there <- gatherSelections h rest;
      Done (here ++ there)
  end.

(** [mergeSelectionSets] returns a new [SelectionSetNode]. *)
Definition mergeSelectionSets (fuel : nat) (fieldNodes : list (FieldNodeOf loc))
    (h : store) : outcome (loc * store) :=
  do sels <- gatherSelections h fieldNodes;
  do m <- mergeWithFuel fuel sels h;
  Done (alloc (fst m) (snd m)).

Definition combineFields (fuel : nat) (fields : FieldSet) (h : store)
  : outcome (Field * store) :=
  match fields with
  | [] => TypeError
  | first :: _ =>
      let returnType := getNamedType (fieldDefType (fieldDef first)) in
      if isCompositeType returnType then
        do m <- mergeSelectionSets fuel (map fieldNode fields) h;
        Done (mkField (scope first)
                (mkFieldNode (alias (fieldNode first)) (name (fieldNode first))
                   (arguments (fieldNode first)) (directives (fieldNode first))
                   (Some (fst m)))
                (fieldDef first),
              snd m)
      else Done (mkField (scope first) (fieldNode first) (fieldDef first), h)
  end.

Definition wrapInInlineFragmentIfNeeded
    (selections : list Node)
    (typeCondition : GraphQLCompositeType)
    (parentType : option GraphQLCompositeType) (h : store)
  : list Node * store :=
  let same :=
    match parentType with
    | Some p => sameObject typeCondition p
    | None => false
    end in
  if same then (selections, h)
  else
    let '(l, h') := alloc selections h in
    ([INLINE_FRAGMENT (Some (typeName typeCondition)) [] l], h').

Definition combinedSelections (fuel : nat) (fieldsByParentType : FieldSet)
    (h : store) : outcome (list Node * store) :=
  mapS (fun (kv : string * FieldSet) (h1 : store) =>
          do c <- combineFields fuel (snd kv) h1;
          Done (FIELD (fieldNode (fst c)), snd c))
       (groupByResponseName fieldsByParentType) h.

Definition selectionSetFromFieldSet (fuel : nat)
    (fields : FieldSet) (parentType : option GraphQLCompositeType) (h : store)
  : outcome (list Node * store) :=
  do groups <-
    mapS (fun (kv : GraphQLCompositeType * FieldSet) (h1 : store) =>
            let '(typeCondition, fieldsByParentType) := kv in
            do c <- combinedSelections fuel fieldsByParentType h1;
            Done (wrapInInlineFragmentIfNeeded (fst c) typeCondition
                    parentType (snd c)))
         (groupByParentType fields) h;
  Done (concat (fst groups), snd groups).

(** *** The trees of a store *)

(** Reading a tree back from the store, down to a given depth: [None] when
    the tree is deeper or a reference is outside the store. *)
Fixpoint decode (fuel : nat) (h : store) (node : Node) : option SelectionNode :=
  match fuel with
  | O => None
  | S fuel' =>
      match node with
      | FIELD f =>
          match selectionSet f with
          | None =>
              Some (Ast.FIELD
                      (mkFieldNode (alias f) (name f) (arguments f)
                                   (directives f) None))
          | Some l =>
              match h !! l with
              | None => None
              | Some sels =>
                  match traverse (decode fuel' h) sels with
                  | None => None
                  | Some ts =>
                      Some (Ast.FIELD
                              (mkFieldNode (alias f) (name f) (arguments f)
                                           (directives f) (Some ts)))
                  end
              end
          end
      | FRAGMENT_SPREAD n d => Some (Ast.FRAGMENT_SPREAD n d)
      | INLINE_FRAGMENT tc d l =>
          match h !! l with
          | None => None
          | Some sels =>
              match traverse (decode fuel' h) sels with
              | None => None
              | Some ts => Some (Ast.INLINE_FRAGMENT tc d ts)
              end
          end
      end
  end.

(** The references of the [SelectionSetNode] objects of a tree, each as
    many times as the tree reaches it. *)
Fixpoint footprint (fuel : nat) (h : store) (node : Node) : list loc :=
  match fuel with
  | O => []
  | S fuel' =>
      match selectionSet_of node with
      | None => []
      | Some l =>
          l :: match h !! l with
               | Some sels => flat_map (footprint fuel' h) sels
               | None => []
               end
      end
  end.

Definition footprints (fuel : nat) (h : store) (nodes : list Node) : list loc :=
  flat_map (footprint fuel h) nodes.

(** The store holds the trees [trees] at the nodes [nodes], and no
    [SelectionSetNode] object is shared between two places of them. *)
Definition separated (fuel : nat) (h : store) (nodes : list Node)
    (trees : list SelectionNode) : Prop :=
  traverse (decode fuel h) nodes = Some trees /\
  NoDup (footprints fuel h nodes).

(** The objects the second phase may assign to for the group of [e]: the
    [selectionSet] of [e] and those below the selections [sels e] merged
    for it. *)
Definition groupFootprint (fuel : nat) (h : store) (sels : Node -> list Node)
    (e : Node) : list loc :=
  match selectionSet_of e with
  | Some l => l :: footprints fuel h (sels e)
  | None => footprints fuel h (sels e)
  end.

(** A run over the store agrees with the result on values: it throws when
    the value computation throws, and when that one returns [trees] it
    returns nodes that hold [trees] in the final store, unshared, after
    assignments to objects of the footprint [owned] only. *)
Definition simulates (fuel : nat) (h : store) (owned : list loc)
    (result : outcome (list SelectionNode))
    (run : outcome (list Node * store)) : Prop :=
  match result with
  | Done trees =>
      exists nodes h',
        run = Done (nodes, h') /\
        separated fuel h' nodes trees /\
        (forall l, l ∈ footprints fuel h' nodes -> l ∈ owned) /\
        (forall l, l ∉ owned -> h' !! l = h !! l)
  | TypeError => run = TypeError
  | Stuck => run = Stuck
  end.

(** The node of a field, as a selection. *)
Definition nodeOf (f : Field) : Node := FIELD (fieldNode f).

(** The store holds the field [fv] at [f]: the same scope and field
    definition, and the tree of its node. *)
Definition holdsField (fuel : nat) (h : store) (f : Field)
    (fv : FieldOf (list SelectionNode)) : Prop :=
  scope f = scope fv /\ fieldDef f = fieldDef fv /\
  decode fuel h (nodeOf f) = Some (Ast.FIELD (fieldNode fv)).

(** A step of [selectionSetFromFieldSet] over the store agrees with the
    step on values. [holds h y yv] says that the result [y] holds the value
    [yv] in the store [h], and [reaches h y] lists the objects it is read
    from. A step may assign to the objects [owned] and create objects; the
    objects of its result are among these, and the other objects of the
    store are left as they are. *)
Section Runs.
Context {Y Yv : Type}.
Variable holds : store -> Y -> Yv -> Prop.
Variable reaches : store -> Y -> list loc.

Definition runsTo (h : store) (owned : list loc) (result : outcome Yv)
    (run : outcome (Y * store)) : Prop :=
  match result with
  | Done yv =>
      exists y h',
        run = Done (y, h') /\
        holds h' y yv /\
        (forall l, l ∈ reaches h' y ->
                   is_Some (h' !! l) /\ (l ∈ owned \/ h !! l = None)) /\
        (forall l, is_Some (h !! l) -> l ∉ owned -> h' !! l = h !! l) /\
        (forall l, is_Some (h !! l) -> is_Some (h' !! l))
  | TypeError => run = TypeError
  | Stuck => run = Stuck
  end.
End Runs.

(** *** Two fields [a { b { x } }] and [a { b { y } }] in a store *)

Definition leaf_ (n : string) : Node := FIELD (mkFieldNode None n [] [] None).

Definition branch_ (n : string) (l : loc) : FieldNodeOf loc :=
  mkFieldNode None n [] [] (Some l).

Definition store_ab : store :=
  <[0 := [FIELD (branch_ "b" 1)]]>
    (<[1 := [leaf_ "x"]]>
       (<[2 := [FIELD (branch_ "b" 3)]]>
          (<[3 := [leaf_ "y"]]> ∅))).

Definition objectField : GraphQLField :=
  mkFieldDef "a" (GraphQLNonNull (GraphQLNamedType OBJECT "O")).

Definition typeT : GraphQLCompositeType := mkType 1 "T".

Definition field_abx : Field :=
  mkField (mkScope typeT [] None) (branch_ "a" 0) objectField.

Definition field_aby : Field :=
  mkField (mkScope typeT [] None) (branch_ "a" 2) objectField.

(** *** One [FieldNode] in the fields of two declaring types *)

(** The store above with one more object, the selections [c]. *)
Definition store_abc : store := <[4 := [leaf_ "c"]]> store_ab.

Definition typeU : GraphQLCompositeType := mkType 2 "U".

(** The field of [U] whose node is the node of [field_abx]. *)
Definition field_abx_U : Field :=
  mkField (mkScope typeU [] None) (fieldNode field_abx) objectField.

(** The field [a { c }] of [U]. *)
Definition field_ac_U : Field :=
  mkField (mkScope typeU [] None) (branch_ "a" 4) objectField.

End Store.

(** ** The schema normaliser *)

(** The repository snapshot holds the tests of
    [apollo-federation/src/composition/utils] and not the module itself: its
    two functions are modelled from the specification and checked against
    the fixtures of [__tests__/utils.test.ts]. *)
Module Normalizer.

Inductive OperationKind : Type := QUERY | MUTATION | SUBSCRIPTION.

Definition defaultRootName (k : OperationKind) : string :=
  match k with
  | QUERY => "Query"
  | MUTATION => "Mutation"
  | SUBSCRIPTION => "Subscription"
  end.

Definition defaultRootNames : list string :=
  map defaultRootName [QUERY; MUTATION; SUBSCRIPTION].


Record Directive : Type := mkDirective {
  directiveName : string;
  directiveArguments : list (string * string)
}.

Record FieldDefinition : Type := mkFieldDefinition {
  fieldName : string;
  returnType : string;
  fieldDirectives : list Directive
}.

Inductive DefinitionKind : Type := DEFINITION | EXTENSION.

(** A top-level definition: the schema declaration with its bindings, or
    an object type definition or extension. *)
Inductive TypeSystemDefinition : Type :=
| SchemaDeclaration (bindings : list (OperationKind * string))
| ObjectType (kind : DefinitionKind) (typeName : string)
             (typeDirectives : list Directive)
             (fields : list FieldDefinition).

Definition TypeDefDocument : Type := list TypeSystemDefinition.

Record StrippedFieldRecord : Type := mkStripped {
  strippedField : FieldDefinition;
  parentTypeName : string;
  serviceName : string
}.

(** The bindings of the schema declaration of a document, if it has one. *)
Fixpoint schemaDeclaration (document : TypeDefDocument)
  : option (list (OperationKind * string)) :=
  match document with
  | [] => None
  | SchemaDeclaration bindings :: _ => Some bindings
  | ObjectType _ _ _ _ :: rest => schemaDeclaration rest
  end.

(** The operation kind a type name is bound to by the declaration. *)
Fixpoint designated (bindings : list (OperationKind * string)) (n : string)
  : option OperationKind :=
  match bindings with
  | [] => None
  | (op, t) :: rest => if String.eqb t n then Some op else designated rest n
  end.

Definition isDefaultRootName (n : string) : bool :=
  existsb (String.eqb n) defaultRootNames.

(** A type that uses a default root type name without being designated. *)
Definition isDropped (bindings : list (OperationKind * string))
    (def : TypeSystemDefinition) : bool :=
  match def with
  | SchemaDeclaration _ => false
  | ObjectType _ n _ _ =>
      isDefaultRootName n &&
      match designated bindings n with Some _ => false | None => true end
  end.

Definition definedName (def : TypeSystemDefinition) : option string :=
  match def with
  | SchemaDeclaration _ => None
  | ObjectType _ n _ _ => Some n
  end.

Definition droppedNames (bindings : list (OperationKind * string))
    (document : TypeDefDocument) : list string :=
  omap definedName (List.filter (isDropped bindings) document).

Definition keepField (dropped : list string) (f : FieldDefinition) : bool :=
  negb (existsb (String.eqb (returnType f)) dropped).

Definition declares (document : TypeDefDocument) (n : string) : bool :=
  existsb (fun def =>
             match definedName def with
             | Some m => String.eqb m n
             | None => false
             end) document.

(** The first binding that names a type absent from the document. *)
Definition missingBinding (bindings : list (OperationKind * string))
    (document : TypeDefDocument) : option string :=
  head (List.filter (fun n => negb (declares document n)) (map snd bindings)).

Definition rewriteDefinition (bindings : list (OperationKind * string))
    (dropped : list string) (def : TypeSystemDefinition)
  : option TypeSystemDefinition :=
  match def with
  | SchemaDeclaration _ => None
  | ObjectType k n ds fs =>
      if isDropped bindings def then None
      else
        let fs' := List.filter (keepField dropped) fs in
        match designated bindings n with
        | Some op => Some (ObjectType EXTENSION (defaultRootName op) ds fs')
        | None => Some (ObjectType k n ds fs')
        end
  end.

Inductive normalized : Type :=
| Normalized (document : TypeDefDocument)
| StructuralReferenceError (missing : string).

(** Modelled from the spec: [defaultRootOperationTypes] of
    [composition/utils], absent from the snapshot (section 4.1,
    [normalizeRootTypes]). With a schema declaration, a bound root type
    becomes an extension of the default root type name; the declaration and
    the other types that use a default root type name are removed; a field
    whose return type is the name of a removed type is removed; a binding
    to a type the document does not have is a structural error. Without a
    declaration the document is returned as it is. *)
Definition normalizeRootTypes (document : TypeDefDocument) : normalized :=
  match schemaDeclaration document with
  | None => Normalized document
  | Some bindings =>
      match missingBinding bindings document with
      | Some n => StructuralReferenceError n
      | None =>
          Normalized
            (omap (rewriteDefinition bindings (droppedNames bindings document))
                  document)
      end
  end.

Definition isExternal (f : FieldDefinition) : bool :=
  existsb (fun d => String.eqb (directiveName d) "external") (fieldDirectives f).

Definition stripDefinition (def : TypeSystemDefinition) : TypeSystemDefinition :=
  match def with
  | SchemaDeclaration b => SchemaDeclaration b
  | ObjectType k n ds fs =>
      ObjectType k n ds (List.filter (fun f => negb (isExternal f)) fs)
  end.

Definition strippedOf (sourceServiceName : string) (def : TypeSystemDefinition)
  : list StrippedFieldRecord :=
  match def with
  | SchemaDeclaration _ => []
  | ObjectType _ n _ fs =>
      map (fun f => mkStripped f n sourceServiceName) (List.filter isExternal fs)
  end.

(** Modelled from the spec: [stripExternalFieldsFromTypeDefs] of
    [composition/utils], absent from the snapshot (section 4.1,
    [stripExternalFields]). Every field annotated as external is removed
    from its type or extension, which itself stays, and is recorded with
    the name of its type and the given service name, in document order. *)
Definition stripExternalFields (document : TypeDefDocument)
    (sourceServiceName : string)
  : TypeDefDocument * list StrippedFieldRecord :=
  (map stripDefinition document,
   flat_map (strippedOf sourceServiceName) document).

(** The number of fields of a document that are flagged external. *)
Definition externalFields (def : TypeSystemDefinition) : nat :=
  match def with
  | SchemaDeclaration _ => 0
  | ObjectType _ _ _ fs => length (List.filter isExternal fs)
  end.

Definition countExternal (document : TypeDefDocument) : nat :=
  list_sum (map externalFields document).

(** A definition without its fields. *)
Definition withoutFields (def : TypeSystemDefinition) : TypeSystemDefinition :=
  match def with
  | SchemaDeclaration b => SchemaDeclaration b
  | ObjectType k n ds _ => ObjectType k n ds []
  end.

(** The fields of a definition; the schema declaration has none. *)
Definition fieldsOf (def : TypeSystemDefinition) : list FieldDefinition :=
  match def with
  | SchemaDeclaration _ => []
  | ObjectType _ _ _ fs => fs
  end.

(** *** The fixtures of [utils.test.ts] *)

Definition plain (n t : string) : FieldDefinition := mkFieldDefinition n t [].

Definition fixture_transform : TypeDefDocument :=
  [ SchemaDeclaration [(QUERY, "RootQuery"); (MUTATION, "RootMutation")];
    ObjectType DEFINITION "RootQuery" [] [plain "product" "Product"];
    ObjectType DEFINITION "Product" [] [plain "sku" "String"];
    ObjectType DEFINITION "RootMutation" [] [plain "updateProduct" "Product"] ].

Definition fixture_remove : TypeDefDocument :=
  [ SchemaDeclaration [(QUERY, "RootQuery")];
    ObjectType DEFINITION "RootQuery" [] [plain "product" "Product"];
    ObjectType DEFINITION "Product" [] [plain "sku" "String"];
    ObjectType DEFINITION "Query" [] [plain "removeThisEntireType" "String"];
    ObjectType DEFINITION "Mutation" [] [plain "removeThisEntireType" "String"];
    ObjectType DEFINITION "Subscription" []
      [plain "removeThisEntireType" "String"] ].

Definition fixture_drop_fields : TypeDefDocument :=
  [ SchemaDeclaration [(QUERY, "RootQuery"); (MUTATION, "RootMutation")];
    ObjectType DEFINITION "RootQuery" [] [plain "product" "Product"];
    ObjectType DEFINITION "Query" [] [plain "removeThisEntireType" "String"];
    ObjectType DEFINITION "RootMutation" []
      [plain "keepThisField" "String"; plain "removeThisField" "Query"] ].

Definition keyDirective : Directive := mkDirective "key" [("fields", "sku")].

Definition fixture_external : TypeDefDocument :=
  [ ObjectType DEFINITION "Query" [] [plain "product" "Product"];
    ObjectType EXTENSION "Product" [keyDirective]
      [mkFieldDefinition "sku" "String" [mkDirective "external" []]];
    ObjectType DEFINITION "Mutation" [] [plain "updateProduct" "Product"] ].

End Normalizer.

(** ** The Apollo configuration ([determineApolloConfig]) *)

Module Config.

(** [ApolloConfigInput], the [apollo] constructor argument: three optional
    strings. *)
Record ApolloConfigInput : Type := mkInput {
  inputKey : option string;
  inputGraphId : option string;
  inputGraphVariant : option string
}.

(** The four variables the function reads from [process.env]: a variable is
    a string or is not set. *)
Record Env : Type := mkEnv {
  APOLLO_KEY : option string;
  APOLLO_GRAPH_ID : option string;
  APOLLO_GRAPH_VARIANT : option string;
  ENGINE_SCHEMA_TAG : option string
}.

(** [ApolloConfig]: [graphVariant] is always there, the others are
    optional. *)
Record ApolloConfig : Type := mkConfig {
  key : option string;
  keyHash : option string;
  graphId : option string;
  graphVariant : string
}.

(** A string or [undefined] in a condition: the string when the condition
    holds, that is when there is a string and it is not empty. *)
Definition truthy (v : option string) : option string :=
  match v with
  | Some s => if String.eqb s "" then None else Some s
  | None => None
  end.

(** [input?.key] and the like. *)
Definition ofInput (input : option ApolloConfigInput)
    (property : ApolloConfigInput -> option string) : option string :=
  match input with
  | Some i => property i
  | None => None
  end.

(** [s.split(sep)] for a separator of one character. *)
Fixpoint split (sep : Ascii.ascii) (s : string) : list string :=
  match s with
  | EmptyString => [EmptyString]
  | String c s' =>
      if Ascii.eqb c sep then EmptyString :: split sep s'
      else
        match split sep s' with
        | piece :: pieces => String c piece :: pieces
        | [] => [String c EmptyString]
        end
  end.

(** [s.split(sep, limit)]: the first [limit] pieces. *)
Definition splitLimit (sep : Ascii.ascii) (limit : nat) (s : string)
  : list string :=
  firstn limit (split sep s).

(** The separator of the parts of a key. *)
Definition colon : Ascii.ascii := Ascii.ascii_of_nat 58.

(** The function returns a configuration or throws an [Error] with a
    message. *)
Inductive result : Type :=
| Returned (config : ApolloConfig)
| Thrown (message : string).

Definition bothVariablesSet : string :=
  "`APOLLO_GRAPH_VARIANT` and `ENGINE_SCHEMA_TAG` (deprecated) environment variables must not both be set.".

Definition tagRenamed : string :=
  "[deprecated] The `ENGINE_SCHEMA_TAG` environment variable has been renamed to `APOLLO_GRAPH_VARIANT`.".

Definition noVariant : string :=
  "No graph variant provided. Defaulting to `current`.".

Section Determine.
(** [createSHA('sha512').update(key).digest('hex')] *)
Variable sha512hex : string -> string.

(** [determineApolloConfig(input, logger)] in the environment [env]: the
    result and the messages given to [logger.warn], in order. *)
Definition determineApolloConfig (input : option ApolloConfigInput) (env : Env)
  : result * list string :=
  (* Determine key. *)
  let key1 :=
    match truthy (ofInput input inputKey) with
    | Some k => Some k
    | None => truthy (APOLLO_KEY env)
    end in
  (* Determine key hash. *)
  let keyHash1 :=
    match truthy key1 with
    | Some k => Some (sha512hex k)
    | None => None
    end in
  (* Determine graph id. *)
  let graphId1 :=
    match truthy (ofInput input inputGraphId) with
    | Some g => Some g
    | None =>
        match truthy (APOLLO_GRAPH_ID env) with
        | Some g => Some g
        | None =>
            match truthy key1 with
            | Some k =>
                let parts := splitLimit colon 2 k in
                match nth_error parts 0 with
                | Some first =>
                    if String.eqb first "service" then nth_error parts 1
                    else None
                | None => None
                end
            | None => None
            end
        end
    end in
  let config (variant : string) := mkConfig key1 keyHash1 graphId1 variant in
  (* Determine variant. *)
  match truthy (ofInput input inputGraphVariant) with
  | Some v => (Returned (config v), [])
  | None =>
      match truthy (APOLLO_GRAPH_VARIANT env) with
      | Some v =>
          match truthy (ENGINE_SCHEMA_TAG env) with
          | Some _ => (Thrown bothVariablesSet, [])
          | None => (Returned (config v), [])
          end
      | None =>
          match truthy (ENGINE_SCHEMA_TAG env) with
          | Some tag => (Returned (config tag), [tagRenamed])
          | None =>
              match truthy key1 with
              | Some _ => (Returned (config "current"), [noVariant])
              | None => (Returned (config "current"), [])
              end
          end
      end
  end.
End Determine.

End Config.

(** ** Errors ([apollo-server-core/src/errors.ts]) *)

Module Errors.

(** JavaScript values. An object is the map of its own properties, an array
    an object whose keys are its indices; numbers are looked at through
    their truthiness only, so the integers and [NaN] stand for them. *)
Inductive value : Type :=
| Undefined
| Null
| Bool (b : bool)
| Num (n : Z)
| NaN
| Str (s : string)
| Obj (properties : gmap string value).

Abbreviation object := (gmap string value).

(** [o.k]: [undefined] where the object has no such property. The objects
    at hand are errors and plain objects, whose prototypes hold none of the
    properties that are read. *)
Definition get (o : object) (k : string) : value :=
  match o !! k with
  | Some v => v
  | None => Undefined
  end.

(** A value in a condition. *)
Definition truthy (v : value) : bool :=
  match v with
  | Undefined | Null | NaN => false
  | Bool b => b
  | Num n => negb (Z.eqb n 0)
  | Str s => negb (String.eqb s "")
  | Obj _ => true
  end.

(** [this[key] = v] on an ordinary, extensible object: the own property is
    set. The key [__proto__] is the accessor of [Object.prototype] and gives
    no own property. *)
Definition assign (this : object) (k : string) (v : value) : object :=
  if String.eqb k "__proto__" then this else <[k := v]> this.

(** [new Error(message)]: the own properties [message] and [stack]. *)
Definition newError (stack message : string) : object :=
  <["message" := Str message]> {["stack" := Str stack]}.

(** [{ code }] for an optional [code]. *)
Definition codeObject (code : option string) : value :=
  Obj {["code" := match code with Some c => Str c | None => Undefined end]}.

(** [new ApolloError(message, code?, properties?)]: the own properties of
    the error. [stack] is the text the engine gives the error. *)
Definition ApolloError (stack message : string) (code : option string)
    (properties : option object) : object :=
  let this := newError stack message in
  let this :=
    match properties with
    | Some props => map_fold (fun k v this => assign this k v) this props
    | None => this
    end in
  <["extensions" := codeObject code]> this.

(** [toApolloError(error, code = 'INTERNAL_SERVER_ERROR')]. The error and
    its extensions are assigned in place and the error is returned: the
    result is that object after the call. The module is in strict mode:
    setting a property of a primitive value throws. *)
Definition toApolloError (error : object) (code : option string)
  : outcome object :=
  let code :=
    match code with
    | Some c => c
    | None => "INTERNAL_SERVER_ERROR"
    end in
  match get error "extensions" with
  | Obj extensions =>
      Done (<["extensions" := Obj (<["code" := Str code]> extensions)]> error)
  | v =>
      if truthy v then TypeError
      else Done (<["extensions" := Obj {["code" := Str code]}]> error)
  end.

(** *** [formatApolloErrors] *)

(** What a call gives: a value, or a value that is thrown. *)
Inductive completion (E A : Type) : Type :=
| Normal (a : A)
| Throw (e : E).
Arguments Normal {E A} a.
Arguments Throw {E A} e.

Section Format.
(** The errors and the values that are thrown. *)
Variable E : Type.
(** [enrichError(error, debug)] *)
Variable enrichError : E -> bool -> completion E E.
(** [fromGraphQLError(new GraphQLError('Internal server error'))] *)
Variable internalServerError : completion E E.
(** The [TypeError] of the call of [undefined]. *)
Variable notAFunction : E.

(** The [options] argument: [formatter], [logFunction] and [debug], each
    optional. A callback is a function of its argument; [logFunction] gets
    [{ action: LogAction.cleanup, step: LogStep.status, data, key: 'error' }],
    of which [data] is kept. *)
Record Options : Type := mkOptions {
  formatter : option (E -> completion E E);
  logFunction : option (E -> completion E unit);
  debug : option bool
}.

(** [array.map(f)] for a callback that may throw, with the data given to
    [logFunction] on the way. *)
Fixpoint mapC {A B : Type} (f : A -> completion E B * list E) (l : list A)
  : completion E (list B) * list E :=
  match l with
  | [] => (Normal [], [])
  | a :: l' =>
      match f a with
      | (Normal b, log) =>
          match mapC f l' with
          | (Normal bs, log') => (Normal (b :: bs), log ++ log')
          | (Throw e, log') => (Throw e, log ++ log')
          end
      | (Throw e, log) => (Throw e, log)
      end
  end.

(** The callback of the second [map]: the [try] and its [catch]. *)
Definition formatOne (options : Options) (format : E -> completion E E)
    (error : E) : completion E E * list E :=
  let isDebug := match debug options with Some b => b | None => false end in
  match format error with
  | Normal formatted => (Normal formatted, [])
  | Throw err =>
      match logFunction options with
      | None => (Throw notAFunction, [])
      | Some log =>
          match log err with
          | Throw e => (Throw e, [err])
          | Normal _ =>
              if isDebug then (enrichError err isDebug, [err])
              else
                match internalServerError with
                | Normal newError => (enrichError newError isDebug, [err])
                | Throw e => (Throw e, [err])
                end
          end
      end
  end.

(** [formatApolloErrors(errors, options?)]: what it returns or throws, and
    the data given to [logFunction], in order. *)
Definition formatApolloErrors (errors : list E) (options : option Options)
  : completion E (list E) * list E :=
  match options with
  | None => mapC (fun error => (enrichError error false, [])) errors
  | Some opts =>
      let isDebug := match debug opts with Some b => b | None => false end in
      match mapC (fun error => (enrichError error isDebug, [])) errors with
      | (Normal enrichedErrors, _) =>
          match formatter opts with
          | None => (Normal enrichedErrors, [])
          | Some format => mapC (formatOne opts format) enrichedErrors
          end
      | (Throw e, _) => (Throw e, [])
      end
  end.
End Format.

End Errors.

(** * Properties *)

Import Merger.

(** ** Outcomes *)

Lemma foldM_app {A S : Type} (step : S -> A -> outcome S) (l1 l2 : list A) (st : S) :
  foldM step (l1 ++ l2) st = do st' <- foldM step l1 st; foldM step l2 st'.
Proof.
  revert st. induction l1 as [|a l1 IH]; intros st; simpl; [reflexivity|].
  destruct (step st a); simpl; auto.
Qed.

Lemma mapM_ext {A B : Type} (f g : A -> outcome B) (l : list A) :
  (forall a, In a l -> f a = g a) -> mapM f l = mapM g l.
Proof.
  induction l as [|a l IH]; intros H; simpl; [reflexivity|].
  rewrite (H a) by (left; reflexivity).
  rewrite IH; [reflexivity|]. intros b Hb. apply H. right. exact Hb.
Qed.

Lemma mapM_map {A B C : Type} (f : B -> outcome C) (g : A -> B) (l : list A) :
  mapM f (map g l) = mapM (fun a => f (g a)) l.
Proof.
  induction l as [|a l IH]; simpl; [reflexivity|]. rewrite IH. reflexivity.
Qed.

Lemma mapM_Done {A B : Type} (f : A -> outcome B) (l : list A) (out : list B) :
  mapM f l = Done out -> Forall2 (fun a b => f a = Done b) l out.
Proof.
  revert out. induction l as [|a l IH]; intros out; simpl.
  - intros [= <-]. constructor.
  - destruct (f a) as [b| |] eqn:Ha; simpl; try discriminate.
    destruct (mapM f l) as [bs| |]; simpl; try discriminate.
    intros [= <-]. constructor; auto.
Qed.

Lemma mapM_pure {A B : Type} (f : A -> B) (l : list A) :
  mapM (fun a => Done (f a)) l = Done (map f l).
Proof.
  induction l as [|a l IH]; simpl; [reflexivity|]. rewrite IH. reflexivity.
Qed.

(** ** First occurrences and [Map] *)

Section KeyFacts.
Context {A K : Type}.
Variable sameKey : K -> K -> bool.
Variable key : A -> K.
Hypothesis sameKey_refl : forall a, sameKey a a = true.
Hypothesis sameKey_sym : forall a b, sameKey a b = sameKey b a.
Hypothesis sameKey_trans :
    forall a b c, sameKey a b = true -> sameKey b c = true -> sameKey a c = true.

Lemma sameKey_rewrite_l a b c :
    sameKey a b = true -> sameKey a c = sameKey b c.
  Proof using sameKey_sym sameKey_trans.
    intros Hab.
    destruct (sameKey b c) eqn:Hbc.
    - eauto.
    - destruct (sameKey a c) eqn:Hac; [|reflexivity].
      rewrite sameKey_sym in Hab.
      rewrite <- Hbc. symmetry. eauto.
  Qed.

Lemma sameKey_rewrite_r a b c :
    sameKey a b = true -> sameKey c a = sameKey c b.
  Proof using sameKey_sym sameKey_trans.
    intros Hab. rewrite (sameKey_sym c a), (sameKey_sym c b).
    apply sameKey_rewrite_l; assumption.
  Qed.

Local Abbreviation hasKey := (hasKey sameKey key).
Local Abbreviation distinctKeys := (distinctKeys sameKey key).
Local Abbreviation firstOccurrences := (firstOccurrences sameKey key).
Local Abbreviation withKey := (withKey sameKey key).

Lemma hasKey_app k l1 l2 : hasKey k (l1 ++ l2) = hasKey k l1 || hasKey k l2.
  Proof. apply existsb_app. Qed.

Lemma hasKey_filter_other k x l :
    sameKey (key x) k = false ->
    hasKey k (List.filter (fun y => negb (sameKey (key x) (key y))) l) = hasKey k l.
  Proof using sameKey_sym sameKey_trans.
    intros Hx. induction l as [|y l IH]; simpl; [reflexivity|].
    destruct (sameKey (key x) (key y)) eqn:Hxy; simpl.
    - rewrite IH.
      rewrite <- (sameKey_rewrite_l _ _ k Hxy), Hx. reflexivity.
    - rewrite IH. reflexivity.
  Qed.

Lemma hasKey_firstOccurrences k l :
    hasKey k (firstOccurrences l) = hasKey k l.
  Proof using sameKey_sym sameKey_trans.
    induction l as [|x l IH]; simpl; [reflexivity|].
    destruct (sameKey (key x) k) eqn:Hx; simpl; [reflexivity|].
    rewrite hasKey_filter_other by assumption. exact IH.
  Qed.

Lemma firstOccurrences_snoc l x :
    firstOccurrences (l ++ [x]) =
    if hasKey (key x) l then firstOccurrences l
    else firstOccurrences l ++ [x].
  Proof using sameKey_sym sameKey_trans.
    induction l as [|a l IH]; simpl; [reflexivity|].
    rewrite IH.
    destruct (sameKey (key a) (key x)) eqn:Hax; simpl.
    - destruct (hasKey (key x) l); [reflexivity|].
      rewrite List.filter_app. simpl. rewrite Hax. simpl.
      rewrite app_nil_r. reflexivity.
    - destruct (hasKey (key x) l); [reflexivity|].
      rewrite List.filter_app. simpl. rewrite Hax. reflexivity.
  Qed.

Lemma firstOccurrences_absorb l l' :
    (forall x, In x l' -> hasKey (key x) l = true) ->
    firstOccurrences (l ++ l') = firstOccurrences l.
  Proof using sameKey_sym sameKey_trans.
    revert l. induction l' as [|x l' IH]; intros l H.
    - rewrite app_nil_r. reflexivity.
    - change (l ++ x :: l') with (l ++ [x] ++ l'). rewrite app_assoc.
      rewrite IH.
      + rewrite firstOccurrences_snoc. rewrite H by (left; reflexivity).
        reflexivity.
      + intros y Hy. rewrite hasKey_app. rewrite H by (right; exact Hy).
        reflexivity.
  Qed.

Lemma hasKey_In x l : In x l -> hasKey (key x) l = true.
  Proof using sameKey_refl.
    intros H. apply existsb_exists. exists x. split; [exact H|apply sameKey_refl].
  Qed.

Lemma firstOccurrences_twice l :
    firstOccurrences (l ++ l) = firstOccurrences l.
  Proof using sameKey_refl sameKey_sym sameKey_trans.
    apply firstOccurrences_absorb. intros x Hx. apply hasKey_In. exact Hx.
  Qed.

Lemma firstOccurrences_incl l x :
    In x (firstOccurrences l) -> In x l.
  Proof.
    induction l as [|a l IH]; simpl; [tauto|].
    intros [->|H]; [left; reflexivity|].
    apply List.filter_In in H. right. apply IH. tauto.
  Qed.

Lemma distinctKeys_filter f l : distinctKeys l -> distinctKeys (List.filter f l).
  Proof.
    induction 1 as [|x l Hx Hl IH]; simpl; [constructor|].
    destruct (f x); [|exact IH].
    constructor; [|exact IH].
    unfold hasKey in *. apply not_true_is_false. intros He.
    apply existsb_exists in He. destruct He as [y [Hy Hs]].
    apply List.filter_In in Hy.
    assert (existsb (fun y => sameKey (key y) (key x)) l = true) as Ht
      by (apply existsb_exists; exists y; tauto).
    congruence.
  Qed.

Lemma firstOccurrences_distinct l : distinctKeys (firstOccurrences l).
  Proof using sameKey_sym.
    induction l as [|x l IH]; simpl; constructor.
    - unfold hasKey. apply not_true_is_false. intros He.
      apply existsb_exists in He. destruct He as [y [Hy Hs]].
      apply List.filter_In in Hy. destruct Hy as [_ Hy].
      rewrite sameKey_sym in Hs. rewrite Hs in Hy. discriminate.
    - apply distinctKeys_filter. exact IH.
  Qed.

Lemma withKey_app k l1 l2 :
    withKey k (l1 ++ l2) = withKey k l1 ++ withKey k l2.
  Proof. apply List.filter_app. Qed.

Lemma withKey_same k k' l :
    sameKey k k' = true -> withKey k l = withKey k' l.
  Proof using sameKey_sym sameKey_trans.
    intros H. unfold withKey. apply List.filter_ext. intros x.
    apply sameKey_rewrite_l. exact H.
  Qed.
End KeyFacts.

(** ** [groupBy] *)

Section MapFacts.
Context {K V : Type}.
Variable sameKey : K -> K -> bool.
Hypothesis sameKey_sym : forall a b, sameKey a b = sameKey b a.
Hypothesis sameKey_trans :
    forall a b c, sameKey a b = true -> sameKey b c = true -> sameKey a c = true.

  (** In a map with distinct keys, an entry is what [get] finds at its key. *)
Lemma map_get_In (m : list (K * V)) k v k' :
    distinctKeys sameKey fst m -> In (k, v) m -> sameKey k k' = true ->
    map_get sameKey k' m = Some v.
  Proof using sameKey_sym sameKey_trans.
    induction 1 as [|[k0 v0] m Hk0 Hm IH]; simpl; [tauto|].
    intros [[= -> ->]|Hin] Hk.
    - rewrite Hk. reflexivity.
    - destruct (sameKey k0 k') eqn:Hk0'; [|auto].
      exfalso. unfold hasKey in Hk0. simpl in Hk0.
      assert (existsb (fun y => sameKey y.1 k0) m = true) as Ht; [|congruence].
      apply existsb_exists. exists (k, v). split; [exact Hin|]. simpl.
      rewrite sameKey_sym in Hk0'. eauto.
  Qed.
End MapFacts.

Section GroupByFacts.
Context {T U : Type}.
Variable sameKey : U -> U -> bool.
Variable keyFunction : T -> U.
Hypothesis sameKey_refl : forall a, sameKey a a = true.
Hypothesis sameKey_sym : forall a b, sameKey a b = sameKey b a.
Hypothesis sameKey_trans :
    forall a b c, sameKey a b = true -> sameKey b c = true -> sameKey a c = true.

Local Abbreviation members := (withKey sameKey keyFunction).
Local Abbreviation firsts := (firstOccurrences sameKey keyFunction).

Local Abbreviation groupOf := (groupOf sameKey keyFunction).

Lemma groupBy_snoc l x :
    groupBy sameKey keyFunction (l ++ [x]) =
    groupBy_step sameKey keyFunction (groupBy sameKey keyFunction l) x.
  Proof. unfold groupBy. rewrite fold_left_app. reflexivity. Qed.

Lemma groupOf_snoc_other l x e :
    sameKey (keyFunction e) (keyFunction x) = false ->
    groupOf (l ++ [x]) e = groupOf l e.
  Proof.
    intros H. unfold groupOf, withKey. rewrite List.filter_app. simpl.
    rewrite H. rewrite app_nil_r. reflexivity.
  Qed.

Lemma groupBy_step_groups l x reps :
    distinctKeys sameKey keyFunction reps ->
    groupBy_step sameKey keyFunction (map (groupOf l) reps) x =
    map (groupOf (l ++ [x])) reps ++
    (if hasKey sameKey keyFunction (keyFunction x) reps then []
     else [(keyFunction x, [x])]).
  Proof using sameKey_sym sameKey_trans.
    unfold groupBy_step.
    induction 1 as [|e reps He Hreps IH]; simpl; [reflexivity|].
    destruct (sameKey (keyFunction e) (keyFunction x)) eqn:Hex; simpl.
    - rewrite app_nil_r. f_equal.
      + unfold groupOf, withKey. rewrite List.filter_app. simpl. rewrite Hex.
        reflexivity.
      + apply map_ext_in. intros e' He'. symmetry. apply groupOf_snoc_other.
        rewrite <- (sameKey_rewrite_r sameKey sameKey_sym sameKey_trans _ _ _ Hex).
        apply not_true_is_false. intros Ht.
        assert (hasKey sameKey keyFunction (keyFunction e) reps = true) as Hc;
          [|congruence].
        apply existsb_exists. exists e'. split; [exact He'|exact Ht].
    - rewrite groupOf_snoc_other by exact Hex.
      destruct (map_get sameKey (keyFunction x) (map (groupOf l) reps)) eqn:Hg;
        simpl; rewrite <- IH; reflexivity.
  Qed.

  (** [groupBy] lists, in first-appearance order of the keys, each key with
      the elements that have it, in the order of the input. *)
Lemma groupBy_groups l :
    groupBy sameKey keyFunction l = map (groupOf l) (firsts l).
  Proof using sameKey_refl sameKey_sym sameKey_trans.
    induction l as [|x l IH] using rev_ind; [reflexivity|].
    rewrite groupBy_snoc, IH.
    rewrite groupBy_step_groups by (apply firstOccurrences_distinct; assumption).
    rewrite hasKey_firstOccurrences by assumption.
    rewrite firstOccurrences_snoc by assumption.
    destruct (hasKey sameKey keyFunction (keyFunction x) l) eqn:Hx.
    - rewrite app_nil_r. reflexivity.
    - rewrite map_app. simpl. f_equal. f_equal. unfold groupOf. f_equal.
      unfold withKey. rewrite List.filter_app. simpl. rewrite sameKey_refl.
      replace (List.filter (λ x0 : T, sameKey (keyFunction x) (keyFunction x0)) l)
        with (@nil T); [reflexivity|].
      symmetry. clear IH. induction l as [|y l IHl]; [reflexivity|].
      simpl in Hx. apply orb_false_elim in Hx. destruct Hx as [Hy Hl].
      simpl. rewrite sameKey_sym, Hy. auto.
  Qed.

Lemma groupBy_twice l :
    groupBy sameKey keyFunction (l ++ l) =
    map (fun kg => (fst kg, snd kg ++ snd kg)) (groupBy sameKey keyFunction l).
  Proof using sameKey_refl sameKey_sym sameKey_trans.
    rewrite !groupBy_groups. rewrite firstOccurrences_twice by assumption.
    rewrite map_map. apply map_ext. intros e. unfold groupOf. simpl.
    rewrite withKey_app. reflexivity.
  Qed.

Lemma groupBy_nonempty l k g :
    In (k, g) (groupBy sameKey keyFunction l) -> g <> [].
  Proof using sameKey_refl sameKey_sym sameKey_trans.
    rewrite groupBy_groups. intros H. apply in_map_iff in H.
    destruct H as [e [[= <- <-] He]].
    apply firstOccurrences_incl in He.
    intros Hn.
    assert (In e (withKey sameKey keyFunction (keyFunction e) l)) as Hin.
    { apply List.filter_In. split; [exact He|apply sameKey_refl]. }
    rewrite Hn in Hin. destruct Hin.
  Qed.

  (** The first element of a group is the first occurrence of its key. *)
Lemma head_withKey_first l e :
    In e (firsts l) -> head (members (keyFunction e) l) = Some e.
  Proof using sameKey_refl sameKey_sym sameKey_trans.
    induction l as [|x l IH]; simpl; [tauto|].
    intros [->|H].
    - rewrite sameKey_refl. reflexivity.
    - apply List.filter_In in H. destruct H as [H Hxe].
      apply negb_true_iff in Hxe. rewrite sameKey_sym, Hxe. auto.
  Qed.

Lemma distinctKeys_groups l reps :
    distinctKeys sameKey keyFunction reps ->
    distinctKeys sameKey fst (map (groupOf l) reps).
  Proof.
    induction 1 as [|e reps He Hreps IH]; simpl; constructor; [|exact IH].
    rewrite <- He. unfold hasKey. unfold groupOf at 1. simpl. clear.
    induction reps as [|y reps IH]; simpl; [reflexivity|].
    rewrite IH. reflexivity.
  Qed.
End GroupByFacts.

(** ** The first loop of [mergeSelectionsSetsInternal] *)

Lemma eqb_trans (a b c : string) :
  String.eqb a b = true -> String.eqb b c = true -> String.eqb a c = true.
Proof. rewrite !String.eqb_eq. congruence. Qed.

Lemma sameName_refl a : sameName a a = true.
Proof. destruct a; simpl; [apply String.eqb_refl|reflexivity]. Qed.

Lemma sameName_sym a b : sameName a b = sameName b a.
Proof. destruct a, b; simpl; try reflexivity. apply String.eqb_sym. Qed.

Lemma sameName_trans a b c :
  sameName a b = true -> sameName b c = true -> sameName a c = true.
Proof. destruct a, b, c; simpl; try discriminate; eauto using eqb_trans. Qed.

Lemma bind_Done_r {A : Type} (m : outcome A) : (do a <- m; Done a) = m.
Proof. destruct m; reflexivity. Qed.

(** The loop over any representation of the nodes, as long as the leaf
    items have a name and the selections of the branching items can be
    read: [children] gives what is read. *)
Section LoopFacts.
Context {N SS : Type}.
Variable selectionSet_of : N -> option SS.
Variable nameValue : N -> option string.
Variable typeCondition_of : N -> option string.
Variable selectionsOf : SS -> outcome (list N).
Variable children : N -> list N.

Local Abbreviation selectionKey := (Loop.selectionKey nameValue typeCondition_of).
Local Abbreviation findScalar := (Loop.findScalar nameValue).
Local Abbreviation collect_step :=
  (Loop.collect_step selectionSet_of nameValue typeCondition_of selectionsOf).
Local Abbreviation isLeaf := (Loop.isLeaf selectionSet_of).
Local Abbreviation leaves := (Loop.leaves selectionSet_of).
Local Abbreviation branches := (Loop.branches selectionSet_of).
Local Abbreviation keyed := (Loop.keyed nameValue typeCondition_of).
Local Abbreviation keyOf := (Loop.keyOf nameValue typeCondition_of).
Local Abbreviation entryOf := (Loop.entryOf children).

Lemma findScalar_hasKey v scalars :
  findScalar v scalars = hasKey sameName nameValue (Some v) scalars.
Proof.
  unfold Loop.findScalar, hasKey. induction scalars as [|s scalars IH]; simpl;
    [reflexivity|].
  rewrite IH. destruct (nameValue s); reflexivity.
Qed.

Lemma entry_step (groups : list (string * list N)) x k c :
  Forall (fun kg => snd kg <> []) groups ->
  keyOf x = k -> children x = c ->
  map_set String.eqb k
    (mkEntry
       (field (match map_get String.eqb k (map entryOf groups) with
               | Some e => e
               | None => mkEntry [x] []
               end) ++ [x])
       (selections (match map_get String.eqb k (map entryOf groups) with
                    | Some e => e
                    | None => mkEntry [x] []
                    end) ++ c))
    (map entryOf groups) =
  map entryOf (groupBy_step String.eqb keyOf groups x).
Proof.
  intros Hne Hk Hc. unfold groupBy_step. rewrite Hk.
  induction Hne as [|[k0 g0] groups Hg0 Hne IH]; simpl.
  - unfold Loop.entryOf. simpl. rewrite app_nil_r, Hc. reflexivity.
  - destruct (String.eqb k0 k) eqn:Hk0; simpl.
    + unfold Loop.entryOf at 2. simpl. f_equal. f_equal.
      destruct g0 as [|n g0]; [simpl in Hg0; congruence|]. simpl.
      rewrite flat_map_app. simpl. rewrite app_nil_r, Hc.
      rewrite <- app_assoc. reflexivity.
    + rewrite IH. destruct (map_get String.eqb k groups); reflexivity.
Qed.

Lemma collect_spec (l : list N) :
  (forall n, In n l -> isLeaf n = true -> exists v, nameValue n = Some v) ->
  (forall n s, In n l -> selectionSet_of n = Some s ->
               selectionsOf s = Done (children n)) ->
  foldM collect_step l ([], []) =
  if forallb keyed (branches l) then
    Done (firstOccurrences sameName nameValue (leaves l),
          map entryOf (groupBy String.eqb keyOf (branches l)))
  else TypeError.
Proof.
  induction l as [|x l IH] using rev_ind; intros Hnamed Hread; [reflexivity|].
  rewrite foldM_app, IH; clear IH.
  2:{ intros n Hn. apply Hnamed. apply in_or_app. left. exact Hn. }
  2:{ intros n s Hn. apply Hread. apply in_or_app. left. exact Hn. }
  assert (In x (l ++ [x])) as Hx0 by (apply in_or_app; right; left; reflexivity).
  specialize (Hnamed x Hx0).
  specialize (Hread x).
  unfold Loop.leaves, Loop.branches.
  rewrite !List.filter_app. simpl.
  fold (leaves l). fold (branches l).
  destruct (isLeaf x) eqn:Hx; simpl.
  - rewrite !app_nil_r.
    destruct (forallb keyed (branches l)); [|reflexivity]. simpl.
    destruct (Hnamed eq_refl) as [v Hv].
    unfold Loop.isLeaf in Hx.
    destruct (selectionSet_of x); [discriminate|]. rewrite Hv.
    rewrite findScalar_hasKey.
    rewrite (hasKey_firstOccurrences _ _ sameName_sym sameName_trans).
    rewrite (firstOccurrences_snoc _ _ sameName_sym sameName_trans).
    rewrite Hv. destruct (hasKey sameName nameValue (Some v) (leaves l));
      reflexivity.
  - rewrite forallb_app. simpl. rewrite andb_true_r.
    destruct (forallb keyed (branches l)); [|reflexivity]. simpl.
    unfold Loop.isLeaf in Hx. unfold Loop.keyed.
    destruct (selectionSet_of x) as [s|] eqn:Hs; [|discriminate].
    destruct (selectionKey x) as [k|] eqn:Hk; [|reflexivity]. simpl.
    rewrite (Hread s Hx0 eq_refl).
    simpl. rewrite app_nil_r. rewrite groupBy_snoc.
    rewrite entry_step; [reflexivity| | |].
    + apply List.Forall_forall. intros [k1 g1] Hin. simpl.
      exact (groupBy_nonempty _ _ String.eqb_refl String.eqb_sym eqb_trans
               _ _ _ Hin).
    + unfold Loop.keyOf. rewrite Hk. reflexivity.
    + reflexivity.
Qed.

Lemma distinctKeys_entries (groups : list (string * list N)) :
  distinctKeys String.eqb fst groups ->
  distinctKeys String.eqb fst (map entryOf groups).
Proof.
  induction 1 as [|kg groups Hkg Hd IH]; simpl; constructor; [|exact IH].
  rewrite <- Hkg. unfold hasKey. simpl. clear.
  induction groups as [|y groups IH]; simpl; [reflexivity|].
  rewrite IH. reflexivity.
Qed.

Lemma branch_selectionSet e l :
  In e (branches l) -> exists s, selectionSet_of e = Some s.
Proof.
  intros H. apply List.filter_In in H. destruct H as [_ H].
  unfold Loop.isLeaf in H. destruct (selectionSet_of e); [eauto|discriminate].
Qed.

Lemma keyed_selectionKey e : keyed e = true -> selectionKey e = Some (keyOf e).
Proof.
  unfold Loop.keyed, Loop.keyOf.
  destruct (selectionKey e); [reflexivity|discriminate].
Qed.

(** What the second phase finds for the entry of a group: the first
    occurrence of its key, through the four lookups of the source. *)
Lemma template_lookup (l : list N) (e : N) :
  forallb keyed (branches l) = true ->
  In e (firstOccurrences String.eqb keyOf (branches l)) ->
  let selectionMap :=
    map entryOf (map (groupOf String.eqb keyOf (branches l))
                     (firstOccurrences String.eqb keyOf (branches l))) in
  let selection := snd (entryOf (groupOf String.eqb keyOf (branches l) e)) in
  exists s,
    head (field selection) = Some e /\
    selectionKey e = Some (keyOf e) /\
    map_get String.eqb (keyOf e) selectionMap = Some selection /\
    selectionSet_of e = Some s /\
    selections selection =
    flat_map children (withKey String.eqb keyOf (keyOf e) (branches l)).
Proof.
  intros Hkeyed He selectionMap selection.
  assert (In e (branches l)) as Hb by (eapply firstOccurrences_incl; exact He).
  pose proof (head_withKey_first _ _ String.eqb_refl String.eqb_sym eqb_trans
                _ _ He) as Hhead.
  destruct (branch_selectionSet _ _ Hb) as [s Hs]. exists s.
  assert (head (field selection) = Some e) as Hfield.
  { unfold selection, groupOf, Loop.entryOf. simpl.
    destruct (withKey String.eqb keyOf (keyOf e) (branches l)) as [|first rest];
      [discriminate|].
    simpl in Hhead. injection Hhead as ->. reflexivity. }
  split; [exact Hfield|].
  split; [apply keyed_selectionKey; rewrite forallb_forall in Hkeyed;
          apply Hkeyed; exact Hb|].
  split; [|split; [exact Hs|reflexivity]].
  unfold selectionMap.
  apply (map_get_In String.eqb String.eqb_sym eqb_trans _ (keyOf e));
    [| |apply String.eqb_refl].
  - apply distinctKeys_entries. apply distinctKeys_groups.
    apply firstOccurrences_distinct. apply String.eqb_sym.
  - apply in_map_iff. exists (groupOf String.eqb keyOf (branches l) e).
    split; [reflexivity|apply in_map; exact He].
Qed.
End LoopFacts.

(** *** Over selection trees as values *)

Lemma leaf_named node : isLeaf node = true -> exists v, nameValue node = Some v.
Proof.
  destruct node as [f|n d|tc d s]; simpl; eauto. discriminate.
Qed.

Lemma merger_collect_spec (l : list SelectionNode) :
  foldM collect_step l ([], []) =
  if forallb keyed (branches l) then
    Done (firstOccurrences sameName nameValue (leaves l),
          map entryOf (groupBy String.eqb keyOf (branches l)))
  else TypeError.
Proof.
  apply collect_spec.
  - intros n _. apply leaf_named.
  - intros n s _ Hs. unfold children. rewrite Hs. reflexivity.
Qed.

(** ** The equation of the merge *)

(** The members of the group of [e] among the branching items of [l]. *)
Local Abbreviation group e l := (withKey String.eqb keyOf (keyOf e) (branches l)).
Local Abbreviation templates l := (firstOccurrences String.eqb keyOf (branches l)).
Local Abbreviation scalarsOf l := (firstOccurrences sameName nameValue (leaves l)).

Lemma mergeWithFuel_unfold n l :
  mergeWithFuel (S n) l =
  if forallb keyed (branches l) then
    do result <-
      mapM (fun e =>
              do merged <- mergeWithFuel n (flat_map children (group e l));
              Done (withSelections e merged))
           (templates l);
    Done (scalarsOf l ++ result)
  else TypeError.
Proof.
  simpl. rewrite merger_collect_spec.
  destruct (forallb keyed (branches l)) eqn:Hkeyed; [|reflexivity]. simpl.
  rewrite (groupBy_groups _ _ String.eqb_refl String.eqb_sym eqb_trans).
  rewrite !mapM_map.
  match goal with
  | |- bind (mapM ?f ?l) _ = bind (mapM ?g ?l) _ => rewrite (mapM_ext f g l)
  end; [reflexivity|].
  intros e He. cbv beta.
  destruct (template_lookup selectionSet_of nameValue typeCondition_of children
              l e Hkeyed He) as (s & H1 & H2 & H3 & H4 & H5).
  cbv zeta in H1, H3, H5.
  rewrite H1, H2, H3, H1, H4, H5. reflexivity.
Qed.

(** ** The bound of the recursion *)

Lemma depthList_app l1 l2 :
  depthList (l1 ++ l2) = Nat.max (depthList l1) (depthList l2).
Proof. unfold depthList. rewrite map_app. apply list_max_app. Qed.

Lemma depth_In e l : In e l -> depth e <= depthList l.
Proof.
  unfold depthList. induction l as [|x l IH]; simpl; [tauto|].
  intros [->|H]; [lia|]. specialize (IH H). lia.
Qed.

Lemma depth_branch e :
  isLeaf e = false -> depth e = S (depthList (children e)).
Proof.
  unfold isLeaf, children, depthList.
  destruct e as [[a n args ds [s|]]|n d|tc d s]; simpl; try discriminate;
    reflexivity.
Qed.

Lemma depthList_children g d :
  0 < d -> Forall (fun e => depthList (children e) < d) g ->
  depthList (flat_map children g) < d.
Proof.
  intros Hd. induction 1 as [|e g He Hg IH]; simpl; [exact Hd|].
  rewrite depthList_app. lia.
Qed.

Lemma depthList_group e l :
  In e (branches l) -> depthList (flat_map children (group e l)) < depthList l.
Proof.
  intros He.
  assert (forall x, In x (branches l) -> depthList (children x) < depthList l) as Hall.
  { intros x Hx. apply List.filter_In in Hx. destruct Hx as [Hx Hleaf].
    apply negb_true_iff in Hleaf. apply depth_In in Hx.
    rewrite (depth_branch _ Hleaf) in Hx. lia. }
  apply depthList_children.
  - specialize (Hall e He). lia.
  - apply List.Forall_forall. intros x Hx. apply Hall.
    apply List.filter_In in Hx. tauto.
Qed.

Lemma mergeWithFuel_fuel n : forall m l,
  depthList l < n -> depthList l < m -> mergeWithFuel n l = mergeWithFuel m l.
Proof.
  induction n as [|n IH]; intros m l Hn Hm; [lia|].
  destruct m as [|m]; [lia|].
  rewrite !mergeWithFuel_unfold.
  destruct (forallb keyed (branches l)); [|reflexivity].
  match goal with
  | |- bind (mapM ?f ?l) _ = bind (mapM ?g ?l) _ => rewrite (mapM_ext f g l)
  end; [reflexivity|].
  intros e He. cbv beta.
  assert (In e (branches l)) as Hb by (eapply firstOccurrences_incl; exact He).
  pose proof (depthList_group _ _ Hb).
  rewrite (IH m) by lia. reflexivity.
Qed.

Lemma mapM_not_Stuck {A B : Type} (f : A -> outcome B) (l : list A) :
  (forall a, In a l -> f a <> Stuck) -> mapM f l <> Stuck.
Proof.
  induction l as [|a l IH]; intros H; simpl; [discriminate|].
  destruct (f a) eqn:Ha; simpl; try discriminate.
  - destruct (mapM f l) eqn:Hl; simpl; try discriminate.
    exfalso. apply IH; [|reflexivity]. intros b Hb. apply H. right. exact Hb.
  - exfalso. apply (H a); [left; reflexivity|exact Ha].
Qed.

(** With a bound above the depth of its argument the merge has an answer. *)
Lemma mergeWithFuel_not_Stuck n : forall l,
  depthList l < n -> mergeWithFuel n l <> Stuck.
Proof.
  induction n as [|n IH]; intros l Hn; [lia|].
  rewrite mergeWithFuel_unfold.
  destruct (forallb keyed (branches l)); [|discriminate].
  match goal with
  | |- bind ?m _ <> _ => assert (m <> Stuck) as Hm; [|destruct m; easy]
  end.
  apply mapM_not_Stuck. intros e He.
  assert (In e (branches l)) as Hb by (eapply firstOccurrences_incl; exact He).
  pose proof (depthList_group _ _ Hb).
  specialize (IH (flat_map children (group e l)) ltac:(lia)).
  destruct (mergeWithFuel n (flat_map children (group e l))); easy.
Qed.

Lemma mergeSelectionsSetsInternal_not_Stuck l :
  mergeSelectionsSetsInternal l <> Stuck.
Proof. apply mergeWithFuel_not_Stuck. lia. Qed.

Lemma mergeWithFuel_enough n l :
  depthList l < n -> mergeWithFuel n l = mergeSelectionsSetsInternal l.
Proof. intros H. apply mergeWithFuel_fuel; [exact H|lia]. Qed.

(** The merge rule as an equation: the leaf items, one per name, then one
    item per key of the branching items, whose nested selection is the merge
    of the nested selections of the items with that key. *)
Lemma mergeSelectionsSetsInternal_eq l :
  mergeSelectionsSetsInternal l =
  if forallb keyed (branches l) then
    do result <-
      mapM (fun e =>
              do merged <-
                mergeSelectionsSetsInternal (flat_map children (group e l));
              Done (withSelections e merged))
           (templates l);
    Done (scalarsOf l ++ result)
  else TypeError.
Proof.
  unfold mergeSelectionsSetsInternal at 1. rewrite mergeWithFuel_unfold.
  destruct (forallb keyed (branches l)); [|reflexivity].
  match goal with
  | |- bind (mapM ?f ?l) _ = bind (mapM ?g ?l) _ => rewrite (mapM_ext f g l)
  end; [reflexivity|].
  intros e He. cbv beta.
  assert (In e (branches l)) as Hb by (eapply firstOccurrences_incl; exact He).
  pose proof (depthList_group _ _ Hb).
  rewrite mergeWithFuel_enough by lia. reflexivity.
Qed.

(** ** When the merge returns *)

Lemma wellKeyed_branch e :
  wellKeyed e = true -> isLeaf e = false ->
  keyed e = true /\ forallb wellKeyed (children e) = true.
Proof.
  unfold isLeaf, keyed, children, selectionKey.
  destruct e as [[a n args ds [s|]]|n d|[tc|] d s]; simpl; try discriminate.
  - intros H _. apply andb_true_iff in H. destruct H as [Hn Hs].
    apply negb_true_iff in Hn. rewrite Hn. auto.
  - auto.
Qed.

Lemma forallb_flat_map {A B : Type} (p : B -> bool) (f : A -> list B) (l : list A) :
  (forall a, In a l -> forallb p (f a) = true) -> forallb p (flat_map f l) = true.
Proof.
  induction l as [|a l IH]; intros H; simpl; [reflexivity|].
  rewrite forallb_app, H by (left; reflexivity). simpl.
  apply IH. intros b Hb. apply H. right. exact Hb.
Qed.

Lemma mapM_total {A B : Type} (f : A -> outcome B) (l : list A) :
  (forall a, In a l -> exists b, f a = Done b) -> exists bs, mapM f l = Done bs.
Proof.
  induction l as [|a l IH]; intros H; simpl; [eauto|].
  destruct (H a) as [b ->]; [left; reflexivity|]. simpl.
  destruct IH as [bs ->]; [intros x Hx; apply H; right; exact Hx|].
  simpl. eauto.
Qed.

(** On well-keyed selections the merge returns a list of selections. *)
Lemma mergeWithFuel_total n : forall l,
  depthList l < n -> forallb wellKeyed l = true ->
  exists out, mergeWithFuel n l = Done out.
Proof.
  induction n as [|n IH]; intros l Hn Hwk; [lia|].
  rewrite mergeWithFuel_unfold.
  assert (forall e, In e (branches l) ->
            keyed e = true /\ forallb wellKeyed (children e) = true) as Hb.
  { intros e He. apply List.filter_In in He. destruct He as [He Hleaf].
    apply negb_true_iff in Hleaf. rewrite forallb_forall in Hwk.
    apply wellKeyed_branch; auto. }
  replace (forallb keyed (branches l)) with true
    by (symmetry; apply forallb_forall; intros e He; apply Hb; exact He).
  match goal with
  | |- exists out, bind (mapM ?f ?t) _ = _ =>
      destruct (mapM_total f t) as [result ->]; [|simpl; eauto]
  end.
  intros e He.
  assert (In e (branches l)) as Hin by (eapply firstOccurrences_incl; exact He).
  pose proof (depthList_group _ _ Hin).
  destruct (IH (flat_map children (group e l))) as [merged ->]; [lia| |simpl; eauto].
  apply forallb_flat_map. intros x Hx. apply Hb.
  apply List.filter_In in Hx. tauto.
Qed.

Lemma mergeSelectionsSetsInternal_total l :
  forallb wellKeyed l = true -> exists out, mergeSelectionsSetsInternal l = Done out.
Proof. apply mergeWithFuel_total. lia. Qed.

(** ** The shape of the merged selections *)

Lemma withSelections_branch e merged :
  isLeaf e = false ->
  isLeaf (withSelections e merged) = false /\
  keyOf (withSelections e merged) = keyOf e /\
  children (withSelections e merged) = merged.
Proof.
  unfold isLeaf, keyOf, children, selectionKey.
  destruct e as [[a n args ds [s|]]|n d|tc d s]; simpl; try discriminate; auto.
Qed.

Lemma filter_all {A : Type} (p : A -> bool) (l : list A) :
  Forall (fun x => p x = true) l -> List.filter p l = l.
Proof. induction 1 as [|x l Hx Hl IH]; simpl; [reflexivity|]. rewrite Hx, IH. reflexivity. Qed.

Lemma filter_none {A : Type} (p : A -> bool) (l : list A) :
  Forall (fun x => p x = false) l -> List.filter p l = [].
Proof. induction 1 as [|x l Hx Hl IH]; simpl; [reflexivity|]. rewrite Hx, IH. reflexivity. Qed.

Lemma scalarsOf_leaves l : Forall (fun x => isLeaf x = true) (scalarsOf l).
Proof.
  apply List.Forall_forall. intros x Hx. apply firstOccurrences_incl in Hx.
  apply List.filter_In in Hx. tauto.
Qed.

(** The result of the merge: the leaf items, then the groups. *)
Lemma merge_shape l out :
  mergeSelectionsSetsInternal l = Done out ->
  exists groups,
    out = scalarsOf l ++ groups /\
    Forall2 (fun e g =>
               isLeaf g = false /\ keyOf g = keyOf e /\
               mergeSelectionsSetsInternal (flat_map children (group e l))
               = Done (children g) /\
               g = withSelections e (children g))
            (templates l) groups.
Proof.
  rewrite mergeSelectionsSetsInternal_eq.
  destruct (forallb keyed (branches l)); [|discriminate].
  match goal with |- bind ?m _ = _ -> _ => destruct m as [result| |] eqn:Hm end;
    simpl; try discriminate.
  intros [= <-]. exists result. split; [reflexivity|].
  apply mapM_Done in Hm.
  assert (Forall (fun e => In e (branches l)) (templates l)) as Hin.
  { apply List.Forall_forall. intros e He. eapply firstOccurrences_incl. exact He. }
  revert Hin. induction Hm as [|e g ts gs Heg Hm IH]; intros Hin; constructor.
  - inversion Hin as [|? ? He _]; subst.
    apply List.filter_In in He. destruct He as [_ He]. apply negb_true_iff in He.
    destruct (mergeSelectionsSetsInternal (flat_map children (group e l)))
      as [merged| |]; simpl in Heg; try discriminate.
    injection Heg as <-.
    destruct (withSelections_branch e merged He) as (H1 & H2 & H3).
    rewrite H3. auto.
  - apply IH. inversion Hin; assumption.
Qed.

(** ** Merging a list appended to itself *)

Lemma forallb_twice {A : Type} (p : A -> bool) (l : list A) :
  forallb p (l ++ l) = forallb p l.
Proof. rewrite forallb_app. destruct (forallb p l); reflexivity. Qed.

Lemma mergeWithFuel_twice n : forall l,
  mergeWithFuel n (l ++ l) = mergeWithFuel n l.
Proof.
  induction n as [|n IH]; intros l; [reflexivity|].
  rewrite !mergeWithFuel_unfold.
  unfold leaves, branches. rewrite !List.filter_app.
  fold (leaves l). fold (branches l).
  rewrite forallb_twice.
  rewrite (firstOccurrences_twice _ _ String.eqb_refl String.eqb_sym eqb_trans).
  rewrite (firstOccurrences_twice _ _ sameName_refl sameName_sym sameName_trans).
  destruct (forallb keyed (branches l)); [|reflexivity].
  match goal with
  | |- bind (mapM ?f ?l) _ = bind (mapM ?g ?l) _ => rewrite (mapM_ext f g l)
  end; [reflexivity|].
  intros e _. cbv beta. rewrite withKey_app, flat_map_app, IH. reflexivity.
Qed.

Lemma mergeSelectionsSetsInternal_twice l :
  mergeSelectionsSetsInternal (l ++ l) = mergeSelectionsSetsInternal l.
Proof.
  unfold mergeSelectionsSetsInternal. rewrite depthList_app, Nat.max_id.
  apply mergeWithFuel_twice.
Qed.

Lemma gatherSelections_app l1 l2 :
  gatherSelections (l1 ++ l2) = gatherSelections l1 ++ gatherSelections l2.
Proof. apply flat_map_app. Qed.

Lemma combineFields_twice (g : FieldSet) : combineFields (g ++ g) = combineFields g.
Proof.
  destruct g as [|first g]; [reflexivity|].
  unfold combineFields. simpl app. cbv zeta. cbv iota.
  destruct (isCompositeType (getNamedType (fieldDefType (fieldDef first))));
    [|reflexivity].
  unfold mergeSelectionSets.
  change (first :: g ++ first :: g) with ((first :: g) ++ (first :: g)).
  rewrite map_app, gatherSelections_app, mergeSelectionsSetsInternal_twice.
  reflexivity.
Qed.

Lemma sameObject_refl a : sameObject a a = true.
Proof. apply Nat.eqb_refl. Qed.

Lemma sameObject_sym a b : sameObject a b = sameObject b a.
Proof. apply Nat.eqb_sym. Qed.

Lemma sameObject_trans a b c :
  sameObject a b = true -> sameObject b c = true -> sameObject a c = true.
Proof. unfold sameObject. rewrite !Nat.eqb_eq. congruence. Qed.

Lemma combinedSelections_twice (fs : FieldSet) :
  combinedSelections (fs ++ fs) = combinedSelections fs.
Proof.
  unfold combinedSelections, groupByResponseName.
  rewrite (groupBy_twice _ _ String.eqb_refl String.eqb_sym eqb_trans).
  rewrite mapM_map. apply mapM_ext. intros [k g] _. simpl.
  rewrite combineFields_twice. reflexivity.
Qed.

(** C6: merging a FieldSet appended to itself gives the selections of
    merging it once; the two calls also throw on the same inputs. *)
Theorem selectionSetFromFieldSet_self_concat
    (f : FieldSet) (parentType : option GraphQLCompositeType) :
  selectionSetFromFieldSet (f ++ f) parentType =
  selectionSetFromFieldSet f parentType.
Proof.
  unfold selectionSetFromFieldSet, groupByParentType.
  rewrite (groupBy_twice _ _ sameObject_refl sameObject_sym sameObject_trans).
  rewrite mapM_map.
  match goal with
  | |- bind (mapM ?f ?l) _ = bind (mapM ?g ?l) _ => rewrite (mapM_ext f g l)
  end; [reflexivity|].
  intros [T g] _. simpl. rewrite combinedSelections_twice. reflexivity.
Qed.

(** ** The order of the merged selections *)

Lemma two_phase_split (S G : list SelectionNode) :
  Forall (fun x => isLeaf x = true) S ->
  Forall (fun x => isLeaf x = false) G ->
  leaves (S ++ G) = S /\ branches (S ++ G) = G.
Proof.
  intros HS HG. unfold leaves, branches. rewrite !List.filter_app.
  rewrite (filter_all isLeaf S HS), (filter_none isLeaf G HG).
  rewrite (filter_none (fun n => negb (isLeaf n)) S),
          (filter_all (fun n => negb (isLeaf n)) G).
  - rewrite app_nil_r. auto.
  - eapply Forall_impl; [exact HG|]. simpl. intros x ->. reflexivity.
  - eapply Forall_impl; [exact HS|]. simpl. intros x ->. reflexivity.
Qed.

(** C2: the merged selections are the leaf items, in the order of their
    first appearance in the input, followed by one item per group of
    branching items, in the order of the first appearance of their keys,
    however the two kinds were interleaved in the input. *)
Theorem merge_order_two_phase (l out : list SelectionNode) :
  mergeSelectionsSetsInternal l = Done out ->
  out = leaves out ++ branches out /\
  leaves out = firstOccurrences sameName nameValue (leaves l) /\
  map keyOf (branches out) =
  map keyOf (firstOccurrences String.eqb keyOf (branches l)).
Proof.
  intros H. apply merge_shape in H. destruct H as (groups & -> & HF).
  assert (Forall (fun x => isLeaf x = false) groups) as HG.
  { clear -HF. induction HF as [|e g ts gs Heg _ IH]; constructor; tauto. }
  destruct (two_phase_split _ _ (scalarsOf_leaves l) HG) as [-> ->].
  repeat split.
  clear HG. induction HF as [|e g ts gs Heg _ IH]; simpl; [reflexivity|].
  f_equal; [tauto|exact IH].
Qed.

Lemma merge_order_two_phase_witness :
  let l := [leaf_ None "a"; branch_ "b" [leaf_ None "x"]; leaf_ None "c"] in
  let out := [leaf_ None "a"; leaf_ None "c"; branch_ "b" [leaf_ None "x"]] in
  mergeSelectionsSetsInternal l = Done out /\
  out = leaves out ++ branches out /\
  leaves out = firstOccurrences sameName nameValue (leaves l) /\
  map keyOf (branches out) =
  map keyOf (firstOccurrences String.eqb keyOf (branches l)).
Proof.
  intros l out. split; [reflexivity|].
  apply (merge_order_two_phase l out). reflexivity.
Defined.

(** C4: the leaf items are compared by [name.value], not by response name.
    Two leaf fields with the response names [a] and [b] on the field [x]
    lose the second; two with the one response name [a] on the fields [x]
    and [y] are both kept. *)
Theorem merge_leaves_compared_by_name :
  mergeSelectionsSetsInternal [leaf_ (Some "a") "x"; leaf_ (Some "b") "x"]
  = Done [leaf_ (Some "a") "x"] /\
  mergeSelectionsSetsInternal [leaf_ (Some "a") "x"; leaf_ (Some "a") "y"]
  = Done [leaf_ (Some "a") "x"; leaf_ (Some "a") "y"].
Proof. split; reflexivity. Qed.

(** ** The grouping of [selectionSetFromFieldSet] *)

Section Representatives.
Context {A K : Type}.
Variable sameKey : K -> K -> bool.
Variable key : A -> K.
Hypothesis sameKey_refl : forall a, sameKey a a = true.
Hypothesis sameKey_sym : forall a b, sameKey a b = sameKey b a.
Hypothesis sameKey_trans :
    forall a b c, sameKey a b = true -> sameKey b c = true -> sameKey a c = true.

  (** Every element has a first occurrence of its key. *)
Lemma firstOccurrences_rep x l :
    In x l ->
    exists r, In r (firstOccurrences sameKey key l) /\
              sameKey (key r) (key x) = true.
  Proof using sameKey_refl sameKey_sym sameKey_trans.
    intros H. apply (hasKey_In sameKey key sameKey_refl) in H.
    rewrite <- (hasKey_firstOccurrences sameKey key sameKey_sym sameKey_trans) in H.
    apply existsb_exists in H. exact H.
  Qed.

  (** Among elements with distinct keys one key selects one element. *)
Lemma distinctKeys_filter_one l r k :
    distinctKeys sameKey key l -> In r l -> sameKey (key r) k = true ->
    List.filter (fun y => sameKey k (key y)) l = [r].
  Proof using sameKey_sym sameKey_trans.
    intros Hd. induction Hd as [|x l Hx Hd IH]; simpl; [tauto|].
    intros [->|Hin] Hk.
    - rewrite sameKey_sym, Hk. f_equal.
      apply filter_none. apply List.Forall_forall. intros y Hy.
      apply not_true_is_false. intros Hky.
      assert (hasKey sameKey key (key r) l = true) as Hc; [|congruence].
      apply existsb_exists. exists y. split; [exact Hy|].
      rewrite sameKey_sym. eauto.
    - destruct (sameKey k (key x)) eqn:Hkx; [|auto].
      exfalso.
      assert (hasKey sameKey key (key x) l = true) as Hc; [|congruence].
      apply existsb_exists. exists r. split; [exact Hin|]. eauto.
  Qed.
End Representatives.

Lemma Forall2_filter {A B : Type} (R : A -> B -> Prop) (p : A -> bool)
    (q : B -> bool) (l1 : list A) (l2 : list B) :
  Forall2 (fun a b => R a b /\ p a = q b) l1 l2 ->
  Forall2 R (List.filter p l1) (List.filter q l2).
Proof.
  induction 1 as [|a b l1 l2 [HR Hpq] _ IH]; simpl; [constructor|].
  rewrite <- Hpq. destruct (p a); [constructor; assumption|assumption].
Qed.

Lemma Forall2_In_l {A B : Type} (R : A -> B -> Prop) l1 l2 a :
  Forall2 R l1 l2 -> In a l1 -> exists b, In b l2 /\ R a b.
Proof.
  induction 1 as [|x y l1 l2 HR _ IH]; simpl; [tauto|].
  intros [->|H]; [eauto|]. destruct (IH H) as [b [Hb HRb]]. eauto.
Qed.

Lemma combinedSelections_eq (fs : FieldSet) :
  combinedSelections fs =
  mapM (fun rep =>
          do c <- combineFields (withKey String.eqb responseName (responseName rep) fs);
          Done (FIELD (fieldNode c)))
       (firstOccurrences String.eqb responseName fs).
Proof.
  unfold combinedSelections, groupByResponseName.
  rewrite (groupBy_groups _ _ String.eqb_refl String.eqb_sym eqb_trans).
  rewrite mapM_map. reflexivity.
Qed.

Lemma selectionSetFromFieldSet_eq (fields : FieldSet) pt :
  selectionSetFromFieldSet fields pt =
  do groups <-
    mapM (fun rep =>
            do sels <- combinedSelections
                         (withKey sameObject declaringType (declaringType rep) fields);
            Done (wrapInInlineFragmentIfNeeded sels (declaringType rep) pt))
         (firstOccurrences sameObject declaringType fields);
  Done (concat groups).
Proof.
  unfold selectionSetFromFieldSet, groupByParentType.
  rewrite (groupBy_groups _ _ sameObject_refl sameObject_sym sameObject_trans).
  rewrite mapM_map. reflexivity.
Qed.

(** What [combineFields] returns on a group whose first field is [first]. *)
Lemma combineFields_first (g : FieldSet) (first c : Field) :
  head g = Some first -> combineFields g = Done c ->
  scope c = scope first /\ fieldDef c = fieldDef first /\
  if isCompositeType (getNamedType (fieldDefType (fieldDef first))) then
    exists merged,
      mergeSelectionSets (map fieldNode g) = Done merged /\
      fieldNode c = withSelectionSet (fieldNode first) merged
  else fieldNode c = fieldNode first.
Proof.
  destruct g as [|x g]; simpl; [discriminate|]. intros [= ->].
  destruct (isCompositeType (getNamedType (fieldDefType (fieldDef first)))).
  - destruct (mergeSelectionSets (fieldNode first :: map fieldNode g))
      as [merged| |]; simpl; try discriminate.
    intros [= <-]. simpl. eauto.
  - intros [= <-]. simpl. auto.
Qed.

Lemma combineFields_responseName (g : FieldSet) (first c : Field) :
  head g = Some first -> combineFields g = Done c ->
  getResponseName (fieldNode c) = responseName first.
Proof.
  intros Hh Hc. destruct (combineFields_first g first c Hh Hc) as (_ & _ & H).
  unfold responseName.
  destruct (isCompositeType (getNamedType (fieldDefType (fieldDef first)))).
  - destruct H as (merged & _ & ->). reflexivity.
  - rewrite H. reflexivity.
Qed.

Lemma Forall2_impl_In {A B : Type} (R R' : A -> B -> Prop) l1 l2 :
  Forall2 R l1 l2 -> (forall a b, In a l1 -> R a b -> R' a b) ->
  Forall2 R' l1 l2.
Proof.
  induction 1 as [|a b l1 l2 HR _ IH]; intros H; constructor.
  - apply H; [left; reflexivity|exact HR].
  - apply IH. intros x y Hx. apply H. right. exact Hx.
Qed.

Lemma In_concat_incl {A : Type} (part : list A) (parts : list (list A)) :
  In part parts -> incl part (concat parts).
Proof.
  intros H x Hx. apply in_concat. exists part. split; assumption.
Qed.

(** The selections of the declaring-type group of a field, and where they
    are in the result. *)
Lemma declaring_group_emitted (fields : FieldSet) pt out (f : Field) :
  selectionSetFromFieldSet fields pt = Done out ->
  In f fields ->
  exists rep sels,
    In rep (firstOccurrences sameObject declaringType fields) /\
    sameObject (declaringType rep) (declaringType f) = true /\
    combinedSelections
      (withKey sameObject declaringType (declaringType f) fields) = Done sels /\
    In (wrapInInlineFragmentIfNeeded sels (declaringType rep) pt)
       (match mapM (fun rep =>
            do sels <- combinedSelections
                         (withKey sameObject declaringType (declaringType rep) fields);
            Done (wrapInInlineFragmentIfNeeded sels (declaringType rep) pt))
         (firstOccurrences sameObject declaringType fields) with
        | Done parts => parts | _ => [] end) /\
    incl (wrapInInlineFragmentIfNeeded sels (declaringType rep) pt) out.
Proof.
  rewrite selectionSetFromFieldSet_eq. intros H Hf.
  match type of H with bind ?m _ = _ => destruct m as [parts| |] eqn:Hm end;
    simpl in H; try discriminate.
  injection H as <-.
  apply mapM_Done in Hm.
  destruct (firstOccurrences_rep sameObject declaringType sameObject_refl
              sameObject_sym sameObject_trans f fields Hf) as (rep & Hrep & Hsame).
  destruct (Forall2_In_l _ _ _ rep Hm Hrep) as (part & Hpart & HR).
  rewrite (withKey_same sameObject declaringType sameObject_sym sameObject_trans
             _ _ fields Hsame) in HR.
  destruct (combinedSelections
              (withKey sameObject declaringType (declaringType f) fields))
    as [sels| |]; simpl in HR; try discriminate.
  injection HR as <-.
  exists rep, sels. repeat split; auto.
  apply In_concat_incl. exact Hpart.
Qed.

(** On selection trees, so for fields whose [SelectionSetNode] objects are
    not shared: the fields of a FieldSet that share the declaring type
    object and the response name of a field [f] give exactly one field in
    the selections of their declaring-type group. It is built on the first
    of them: when the return type of that first field is composite, its
    nested selection is the merge of the nested selections of all of them;
    otherwise it is the node of the first field as it is. The declaring-type
    group is in the result, directly or inside the fragment of the type. *)
Theorem fields_merged_once (fields : FieldSet)
    (pt : option GraphQLCompositeType) (out : list SelectionNode) (f : Field) :
  selectionSetFromFieldSet fields pt = Done out ->
  In f fields ->
  let sameType := withKey sameObject declaringType (declaringType f) fields in
  let members := withKey String.eqb responseName (responseName f) sameType in
  exists (rep first : Field) (sels : list SelectionNode) (node : FieldNode),
    In rep fields /\
    sameObject (declaringType rep) (declaringType f) = true /\
    combinedSelections sameType = Done sels /\
    (if isParentType (declaringType rep) pt then incl sels out
     else In (INLINE_FRAGMENT (Some (typeName (declaringType rep))) [] sels) out) /\
    List.filter (hasResponseName (responseName f)) sels = [FIELD node] /\
    head members = Some first /\
    if isCompositeType (getNamedType (fieldDefType (fieldDef first))) then
      exists merged,
        mergeSelectionSets (map fieldNode members) = Done merged /\
        node = withSelectionSet (fieldNode first) merged
    else node = fieldNode first.
Proof.
  intros H Hf sameType members.
  destruct (declaring_group_emitted fields pt out f H Hf)
    as (rep & sels & Hrep & Hsame & Hsels & _ & Hout).
  assert (In f sameType) as HfT.
  { apply List.filter_In. split; [exact Hf|apply sameObject_refl]. }
  destruct (firstOccurrences_rep String.eqb responseName String.eqb_refl
              String.eqb_sym eqb_trans f sameType HfT) as (r0 & Hr0 & Hr0f).
  pose proof Hsels as Hall. rewrite combinedSelections_eq in Hall.
  apply mapM_Done in Hall. fold sameType in Hall.
  assert (Forall2
            (fun r n =>
               (exists c,
                  combineFields
                    (withKey String.eqb responseName (responseName r) sameType)
                  = Done c /\ n = FIELD (fieldNode c)) /\
               String.eqb (responseName f) (responseName r)
               = hasResponseName (responseName f) n)
            (firstOccurrences String.eqb responseName sameType) sels) as Hall'.
  { eapply Forall2_impl_In; [exact Hall|]. cbv beta. intros r n Hr Hrn.
    destruct (combineFields
                (withKey String.eqb responseName (responseName r) sameType))
      as [c| |] eqn:Hc; simpl in Hrn; try discriminate.
    injection Hrn as <-. split; [eauto|]. simpl.
    rewrite (combineFields_responseName _ r c
               (head_withKey_first String.eqb responseName String.eqb_refl
                  String.eqb_sym eqb_trans _ _ Hr) Hc).
    reflexivity. }
  apply Forall2_filter in Hall'.
  rewrite (distinctKeys_filter_one String.eqb responseName String.eqb_sym
             eqb_trans _ r0 (responseName f)) in Hall';
    [|apply firstOccurrences_distinct; apply String.eqb_sym|exact Hr0|exact Hr0f].
  inversion Hall' as [|? n0 ? rest (c & Hc & ->) Hrest Heq1 Heq2]; subst.
  inversion Hrest; subst.
  assert (members = withKey String.eqb responseName (responseName r0) sameType)
    as Hmem.
  { apply (withKey_same String.eqb responseName String.eqb_sym eqb_trans).
    rewrite String.eqb_sym. exact Hr0f. }
  assert (head members = Some r0) as Hhead.
  { rewrite Hmem.
    apply (head_withKey_first String.eqb responseName String.eqb_refl
             String.eqb_sym eqb_trans). exact Hr0. }
  exists rep, r0, sels, (fieldNode c).
  split; [eapply firstOccurrences_incl; exact Hrep|].
  split; [exact Hsame|]. split; [exact Hsels|].
  split.
  { unfold wrapInInlineFragmentIfNeeded in Hout.
    fold (isParentType (declaringType rep) pt) in Hout.
    destruct (isParentType (declaringType rep) pt); [exact Hout|].
    apply Hout. left. reflexivity. }
  split; [symmetry; assumption|]. split; [exact Hhead|].
  rewrite <- Hmem in Hc.
  destruct (combineFields_first members r0 c Hhead Hc) as (_ & _ & Hnode).
  exact Hnode.
Qed.

Lemma fields_merged_once_witness :
  let T := typeT 1 in
  let fields :=
    [ field_ T "a" stringField None;
      field_ T "b" objectField (Some [leaf_ None "x"]);
      field_ (typeT 2) "c" stringField None;
      field_ T "b" objectField (Some [leaf_ None "y"]) ] in
  let f := field_ T "b" objectField (Some [leaf_ None "y"]) in
  let out :=
    [ leaf_ None "a"; branch_ "b" [leaf_ None "x"; leaf_ None "y"];
      INLINE_FRAGMENT (Some "T") [] [leaf_ None "c"] ] in
  let sameType := withKey sameObject declaringType (declaringType f) fields in
  let members := withKey String.eqb responseName (responseName f) sameType in
  selectionSetFromFieldSet fields (Some T) = Done out /\
  In f fields /\
  exists (rep first : Field) (sels : list SelectionNode) (node : FieldNode),
    In rep fields /\
    sameObject (declaringType rep) (declaringType f) = true /\
    combinedSelections sameType = Done sels /\
    (if isParentType (declaringType rep) (Some T) then incl sels out
     else In (INLINE_FRAGMENT (Some (typeName (declaringType rep))) [] sels) out) /\
    List.filter (hasResponseName (responseName f)) sels = [FIELD node] /\
    head members = Some first /\
    if isCompositeType (getNamedType (fieldDefType (fieldDef first))) then
      exists merged,
        mergeSelectionSets (map fieldNode members) = Done merged /\
        node = withSelectionSet (fieldNode first) merged
    else node = fieldNode first.
Proof.
  intros T fields f out sameType members.
  split; [reflexivity|]. split; [simpl; tauto|].
  apply (fields_merged_once fields (Some T) out f); [reflexivity|simpl; tauto].
Defined.

(** C3 (as amended): the selections of a declaring-type group are in the
    result as they are when the declaring type is the very object given as
    parent type; in every other case, and so whenever no parent type is
    given, they are wrapped in one inline fragment whose type condition is
    the name of the declaring type. The groups follow the first appearance
    of their declaring type. *)
Theorem wrapped_unless_parent_type (fields : FieldSet)
    (pt : option GraphQLCompositeType) (out : list SelectionNode) :
  selectionSetFromFieldSet fields pt = Done out ->
  exists parts : list (list SelectionNode),
    out = concat parts /\
    Forall2
      (fun rep part =>
         exists sels,
           combinedSelections
             (withKey sameObject declaringType (declaringType rep) fields)
           = Done sels /\
           ((exists p, pt = Some p /\ sameObject (declaringType rep) p = true /\
                       part = sels) \/
            ((pt = None \/
              exists p, pt = Some p /\ sameObject (declaringType rep) p = false) /\
             part = [INLINE_FRAGMENT (Some (typeName (declaringType rep))) []
                       sels])))
      (firstOccurrences sameObject declaringType fields) parts.
Proof.
  rewrite selectionSetFromFieldSet_eq. intros H.
  match type of H with bind ?m _ = _ => destruct m as [parts| |] eqn:Hm end;
    simpl in H; try discriminate.
  injection H as <-. exists parts. split; [reflexivity|].
  apply mapM_Done in Hm.
  eapply Forall2_impl_In; [exact Hm|]. cbv beta. intros rep part _ Hp.
  destruct (combinedSelections
              (withKey sameObject declaringType (declaringType rep) fields))
    as [sels| |]; simpl in Hp; try discriminate.
  injection Hp as <-. exists sels. split; [reflexivity|].
  unfold wrapInInlineFragmentIfNeeded.
  destruct pt as [p|].
  - destruct (sameObject (declaringType rep) p) eqn:Hsame.
    + left. exists p. auto.
    + right. split; [right; exists p; auto|reflexivity].
  - right. split; [left; reflexivity|reflexivity].
Qed.

Lemma wrapped_unless_parent_type_witness :
  let T := typeT 1 in
  let fields :=
    [ field_ T "a" stringField None; field_ (typeT 2) "c" stringField None ] in
  let out := [ leaf_ None "a"; INLINE_FRAGMENT (Some "T") [] [leaf_ None "c"] ] in
  selectionSetFromFieldSet fields (Some T) = Done out /\
  exists parts : list (list SelectionNode),
    out = concat parts /\
    Forall2
      (fun rep part =>
         exists sels,
           combinedSelections
             (withKey sameObject declaringType (declaringType rep) fields)
           = Done sels /\
           ((exists p, Some T = Some p /\ sameObject (declaringType rep) p = true /\
                       part = sels) \/
            ((Some T = None \/
              exists p, Some T = Some p /\ sameObject (declaringType rep) p = false) /\
             part = [INLINE_FRAGMENT (Some (typeName (declaringType rep))) []
                       sels])))
      (firstOccurrences sameObject declaringType fields) parts.
Proof.
  intros T fields out. split; [reflexivity|].
  apply (wrapped_unless_parent_type fields (Some T) out). reflexivity.
Defined.

(** C3 as stated fails when no parent type is given: the one group of the
    FieldSet is wrapped in a fragment, its combined fields are not emitted
    directly. *)
Lemma wrapped_unless_parent_type_counterexample :
  let f := field_ (typeT 1) "a" stringField None in
  combinedSelections [f] = Done [leaf_ None "a"] /\
  selectionSetFromFieldSet [f] None
  = Done [INLINE_FRAGMENT (Some "T") [] [leaf_ None "a"]] /\
  [INLINE_FRAGMENT (Some "T") [] [leaf_ None "a"]] <> [leaf_ None "a"].
Proof. repeat split; discriminate. Qed.

(** Elements with distinct type objects as keys have distinct identities. *)
Lemma distinctKeys_oid (l : FieldSet) :
  distinctKeys sameObject declaringType l ->
  List.NoDup (map (fun f => oid (declaringType f)) l).
Proof.
  induction 1 as [|x l Hx _ IH]; simpl; constructor; [|exact IH].
  intros Hin. apply in_map_iff in Hin. destruct Hin as (y & Hy & Hin).
  assert (hasKey sameObject declaringType (declaringType x) l = true) as Hc;
    [|congruence].
  apply existsb_exists. exists y. split; [exact Hin|].
  unfold sameObject. apply Nat.eqb_eq. exact Hy.
Qed.

(** A group of [groupByParentType]: its key is the type object of a first
    occurrence, its members are the fields with that very object. *)
Lemma groupByParentType_group (fields : FieldSet) T (members : FieldSet) :
  In (T, members) (groupByParentType fields) ->
  exists rep, In rep fields /\ declaringType rep = T /\
              members = withKey sameObject declaringType T fields.
Proof.
  unfold groupByParentType.
  rewrite (groupBy_groups _ _ sameObject_refl sameObject_sym sameObject_trans).
  intros H. apply in_map_iff in H. destruct H as (rep & Heq & Hrep).
  injection Heq as <- <-. exists rep. repeat split.
  apply (firstOccurrences_incl sameObject declaringType). exact Hrep.
Qed.

(** C10: [groupByParentType] groups the fields by the type object of their
    scope, whatever its name: two fields of a FieldSet are in one group
    exactly when their declaring types are the same object; a group holds
    all the fields of the FieldSet with the object that is its key, that
    object is the declaring type of one of them, and no two groups have the
    same object. In the result of [selectionSetFromFieldSet] every group is
    emitted in turn, directly when its key is the very object given as
    parent type and else in a fragment on the name of its key, also when
    the parent type has that name. So with two objects named [T], of which
    the first declares two of three fields, the two groups give two
    fragments on [T] under a third object named [T], and the first group
    is emitted directly under the first object. *)
Theorem grouped_by_type_object :
  (forall (fields : FieldSet) (f g : Field),
     In f fields -> In g fields ->
     (exists T members,
        In (T, members) (groupByParentType fields) /\
        In f members /\ In g members)
     <-> oid (declaringType f) = oid (declaringType g)) /\
  (forall (fields : FieldSet) T (members : FieldSet),
     In (T, members) (groupByParentType fields) ->
     members
     = List.filter (fun f => Nat.eqb (oid T) (oid (declaringType f))) fields /\
     exists rep, In rep members /\ declaringType rep = T) /\
  (forall fields : FieldSet,
     List.NoDup (map (fun group => oid (fst group)) (groupByParentType fields))) /\
  (forall (fields : FieldSet) (pt : option GraphQLCompositeType)
          (out : list SelectionNode),
     selectionSetFromFieldSet fields pt = Done out ->
     exists parts : list (list SelectionNode),
       out = concat parts /\
       Forall2
         (fun (group : GraphQLCompositeType * FieldSet) part =>
            exists sels,
              combinedSelections (snd group) = Done sels /\
              part =
              if match pt with
                 | Some p => Nat.eqb (oid (fst group)) (oid p)
                 | None => false
                 end
              then sels
              else [INLINE_FRAGMENT (Some (typeName (fst group))) [] sels])
         (groupByParentType fields) parts) /\
  exists (T1 T2 P : GraphQLCompositeType) (f1 f2 f3 : Field),
    declaringType f1 = T1 /\ declaringType f2 = T2 /\ declaringType f3 = T1 /\
    typeName T1 = typeName T2 /\ typeName P = typeName T1 /\
    oid T1 <> oid T2 /\ oid T1 <> oid P /\ oid T2 <> oid P /\
    groupByParentType [f1; f2; f3] = [(T1, [f1; f3]); (T2, [f2])] /\
    selectionSetFromFieldSet [f1; f2; f3] (Some P)
    = Done [ INLINE_FRAGMENT (Some (typeName T1)) []
               [FIELD (fieldNode f1); FIELD (fieldNode f3)];
             INLINE_FRAGMENT (Some (typeName T1)) [] [FIELD (fieldNode f2)] ] /\
    selectionSetFromFieldSet [f1; f2; f3] (Some T1)
    = Done [ FIELD (fieldNode f1); FIELD (fieldNode f3);
             INLINE_FRAGMENT (Some (typeName T1)) [] [FIELD (fieldNode f2)] ].
Proof.
  split; [|split; [|split; [|split]]].
  - intros fields f g Hf Hg. split.
    + intros (T & members & Hin & Hfm & Hgm).
      apply groupByParentType_group in Hin. destruct Hin as (rep & _ & _ & ->).
      apply List.filter_In in Hfm, Hgm.
      destruct Hfm as [_ Hfm], Hgm as [_ Hgm].
      unfold sameObject in Hfm, Hgm. apply Nat.eqb_eq in Hfm, Hgm. congruence.
    + intros Hoid.
      destruct (firstOccurrences_rep sameObject declaringType sameObject_refl
                  sameObject_sym sameObject_trans f fields Hf) as (r & Hr & Hrf).
      exists (declaringType r),
             (withKey sameObject declaringType (declaringType r) fields).
      split; [|split].
      * unfold groupByParentType.
        rewrite (groupBy_groups _ _ sameObject_refl sameObject_sym
                   sameObject_trans).
        apply in_map_iff. exists r. split; [reflexivity|exact Hr].
      * apply List.filter_In. split; [exact Hf|exact Hrf].
      * apply List.filter_In. split; [exact Hg|].
        unfold sameObject in *. apply Nat.eqb_eq. apply Nat.eqb_eq in Hrf.
        congruence.
  - intros fields T members Hin.
    apply groupByParentType_group in Hin.
    destruct Hin as (rep & Hrep & HT & ->). split; [reflexivity|].
    exists rep. split; [|exact HT].
    apply List.filter_In. split; [exact Hrep|].
    rewrite <- HT. apply sameObject_refl.
  - intros fields. unfold groupByParentType.
    rewrite (groupBy_groups _ _ sameObject_refl sameObject_sym sameObject_trans).
    rewrite map_map. simpl.
    apply distinctKeys_oid.
    apply firstOccurrences_distinct. exact sameObject_sym.
  - intros fields pt out H. unfold selectionSetFromFieldSet in H.
    match type of H with bind ?m _ = _ => destruct m as [parts| |] eqn:Hm end;
      simpl in H; try discriminate.
    injection H as <-. exists parts. split; [reflexivity|].
    apply mapM_Done in Hm.
    eapply Forall2_impl_In; [exact Hm|]. cbv beta.
    intros [T members] part _ Hp. simpl.
    destruct (combinedSelections members) as [sels| |]; simpl in Hp;
      try discriminate.
    injection Hp as <-. exists sels. split; reflexivity.
  - exists (typeT 1), (typeT 2), (typeT 3),
           (field_ (typeT 1) "a" stringField None),
           (field_ (typeT 2) "b" stringField None),
           (field_ (typeT 1) "c" stringField None).
    repeat split; simpl; discriminate.
Qed.

(** ** The assignments to the objects of the input *)

Section StoreRun.
Import Store.

  (** C5: the call assigns to a [SelectionSetNode] of its input. With the
      fields [a { b { x } }] and [a { b { y } }] in the store, the first
      input field reads [a { b { x } }] before the call and
      [a { b { x y } }] after it. *)
Theorem input_selection_set_assigned :
    let before := Merger.branch_ "a" [Merger.branch_ "b" [Merger.leaf_ None "x"]] in
    let after :=
      Merger.branch_ "a"
        [Merger.branch_ "b" [Merger.leaf_ None "x"; Merger.leaf_ None "y"]] in
    decode 3 store_ab (FIELD (fieldNode field_abx)) = Some before /\
    match selectionSetFromFieldSet 3 [field_abx; field_aby] (Some typeT) store_ab with
    | Done (out, h) =>
        decode 3 h (FIELD (fieldNode field_abx)) = Some after /\
        map (decode 3 h) out = [Some after]
    | _ => False
    end /\
    before <> after.
  Proof. vm_compute. repeat split; discriminate. Qed.

  (** C1: the nested selection of a merged field is not always the merge of
      the nested selections of the fields of its group. The fields
      [a { b { x } }] and [a { b { y } }] of the type [T] are followed by
      two fields of the type [U], in one scope and with the response name
      [a]: the first has the node of the first field of [T], which reads
      [a { b { x } }], the second reads [a { c }]. The merge of their nested
      selections is [c; b { x }]. The call returns one field [a] for the
      type [T] and, in a fragment on [U], one field [a] whose nested
      selection is [c; b { x y }]: the group of [T], merged first, has
      assigned to the [SelectionSetNode] of [b], which the first field of
      [U] shares. *)
Theorem shared_node_merged_with_other_group :
    let x := Merger.leaf_ None "x" in
    let y := Merger.leaf_ None "y" in
    let c := Merger.leaf_ None "c" in
    let a (s : list SelectionNode) := mkFieldNode None "a" [] [] (Some s) in
    let fields := [field_abx; field_aby; field_abx_U; field_ac_U] in
    scope field_abx_U = scope field_ac_U /\
    getResponseName (fieldNode field_abx_U)
    = getResponseName (fieldNode field_ac_U) /\
    decode 3 store_abc (nodeOf field_abx_U)
    = Some (Ast.FIELD (a [Merger.branch_ "b" [x]])) /\
    decode 3 store_abc (nodeOf field_ac_U) = Some (Ast.FIELD (a [c])) /\
    Merger.mergeSelectionSets [a [Merger.branch_ "b" [x]]; a [c]]
    = Done [c; Merger.branch_ "b" [x]] /\
    match selectionSetFromFieldSet 3 fields (Some typeT) store_abc with
    | Done (out, h) =>
        map (decode 4 h) out
        = [ Some (Ast.FIELD (a [Merger.branch_ "b" [x; y]]));
            Some (Ast.INLINE_FRAGMENT (Some "U") []
                    [Ast.FIELD (a [c; Merger.branch_ "b" [x; y]])]) ]
    | _ => False
    end /\
    [c; Merger.branch_ "b" [x; y]] <> [c; Merger.branch_ "b" [x]].
  Proof. vm_compute. repeat split; discriminate. Qed.
End StoreRun.

(** ** The schema normaliser *)

Section NormalizerFacts.
Import Normalizer.

Example normalizeRootTypes_transform :
    normalizeRootTypes fixture_transform =
    Normalized
      [ ObjectType EXTENSION "Query" [] [plain "product" "Product"];
        ObjectType DEFINITION "Product" [] [plain "sku" "String"];
        ObjectType EXTENSION "Mutation" [] [plain "updateProduct" "Product"] ].
  Proof. reflexivity. Qed.

Example normalizeRootTypes_remove :
    normalizeRootTypes fixture_remove =
    Normalized
      [ ObjectType EXTENSION "Query" [] [plain "product" "Product"];
        ObjectType DEFINITION "Product" [] [plain "sku" "String"] ].
  Proof. reflexivity. Qed.

Example normalizeRootTypes_drop_fields :
    normalizeRootTypes fixture_drop_fields =
    Normalized
      [ ObjectType EXTENSION "Query" [] [plain "product" "Product"];
        ObjectType EXTENSION "Mutation" [] [plain "keepThisField" "String"] ].
  Proof. reflexivity. Qed.

Example stripExternalFields_fixture :
    stripExternalFields fixture_external "serviceA" =
    ( [ ObjectType DEFINITION "Query" [] [plain "product" "Product"];
        ObjectType EXTENSION "Product" [keyDirective] [];
        ObjectType DEFINITION "Mutation" [] [plain "updateProduct" "Product"] ],
      [ mkStripped
          (mkFieldDefinition "sku" "String" [mkDirective "external" []])
          "Product" "serviceA" ] ).
  Proof. reflexivity. Qed.

Lemma In_omap {A B : Type} (f : A -> option B) (l : list A) (b : B) :
    In b (omap f l) <-> exists a, In a l /\ f a = Some b.
  Proof.
    induction l as [|x l IH]; simpl.
    - split; [tauto|]. intros (a & [] & _).
    - destruct (f x) as [y|] eqn:Hx; simpl; rewrite IH; split.
      + intros [<-|(a & Ha & Hfa)]; eauto.
      + intros (a & [<-|Ha] & Hfa); [left; congruence|eauto].
      + intros (a & Ha & Hfa); eauto.
      + intros (a & [<-|Ha] & Hfa); [congruence|eauto].
  Qed.

Lemma normalizeRootTypes_declared d b d' :
    schemaDeclaration d = Some b -> normalizeRootTypes d = Normalized d' ->
    d' = omap (rewriteDefinition b (droppedNames b d)) d.
  Proof.
    unfold normalizeRootTypes. intros ->.
    destruct (missingBinding b d); [discriminate|]. intros [= <-]. reflexivity.
  Qed.

Lemma keepField_spec dropped f :
    keepField dropped f = true <-> ~ In (returnType f) dropped.
  Proof.
    unfold keepField. rewrite negb_true_iff. split.
    - intros H Hin. assert (existsb (String.eqb (returnType f)) dropped = true)
        as Ht; [|congruence].
      apply existsb_exists. exists (returnType f). split; [exact Hin|].
      apply String.eqb_refl.
    - intros H. apply not_true_is_false. intros Ht. apply H.
      apply existsb_exists in Ht. destruct Ht as (x & Hx & Heq).
      apply String.eqb_eq in Heq. subst. exact Hx.
  Qed.

  (** C7 (as amended): with a schema declaration, a type bound by it
      becomes an extension of the default root type name of its operation,
      with its directives and with its fields except those whose return
      type is the name of a dropped type, so with its whole field list when
      it has no such field; no definition keeps a bound name and no schema
      declaration is left. *)
Theorem bound_root_types_rewritten (d d' : TypeDefDocument)
      (b : list (OperationKind * string)) :
    schemaDeclaration d = Some b -> normalizeRootTypes d = Normalized d' ->
    (forall b', ~ In (SchemaDeclaration b') d') /\
    (forall k n ds fs op,
        In (ObjectType k n ds fs) d -> designated b n = Some op ->
        In (ObjectType EXTENSION (defaultRootName op) ds
              (List.filter (keepField (droppedNames b d)) fs)) d' /\
        (Forall (fun f => ~ In (returnType f) (droppedNames b d)) fs ->
         In (ObjectType EXTENSION (defaultRootName op) ds fs) d')) /\
    (forall n op ds fs,
        designated b n = Some op -> ~ In (ObjectType DEFINITION n ds fs) d').
  Proof.
    intros Hb Hn. rewrite (normalizeRootTypes_declared d b d' Hb Hn).
    split; [|split].
    - intros b' Hin. apply In_omap in Hin. destruct Hin as (t & _ & Ht).
      destruct t as [b0|k n ds fs]; simpl in Ht; [discriminate|].
      destruct (isDefaultRootName n &&
                match designated b n with Some _ => false | None => true end);
        [discriminate|].
      destruct (designated b n); discriminate.
    - intros k n ds fs op Hin Hop.
      assert (In (ObjectType EXTENSION (defaultRootName op) ds
                    (List.filter (keepField (droppedNames b d)) fs))
                 (omap (rewriteDefinition b (droppedNames b d)) d)) as H.
      { apply In_omap. exists (ObjectType k n ds fs). split; [exact Hin|].
        simpl. rewrite Hop. rewrite andb_false_r. reflexivity. }
      split; [exact H|]. intros Hall.
      rewrite filter_all in H; [exact H|].
      eapply Forall_impl; [exact Hall|]. simpl. intros f Hf.
      apply keepField_spec. exact Hf.
    - intros n op ds fs Hop Hin. apply In_omap in Hin.
      destruct Hin as (t & _ & Ht).
      destruct t as [b0|k n0 ds0 fs0]; simpl in Ht; [discriminate|].
      destruct (isDefaultRootName n0 &&
                match designated b n0 with Some _ => false | None => true end);
        [discriminate|].
      destruct (designated b n0) eqn:Hn0; [discriminate|].
      injection Ht as -> -> -> _. congruence.
  Qed.

Lemma bound_root_types_rewritten_witness :
    let d := fixture_transform in
    let b := [(QUERY, "RootQuery"); (MUTATION, "RootMutation")] in
    let d' :=
      [ ObjectType EXTENSION "Query" [] [plain "product" "Product"];
        ObjectType DEFINITION "Product" [] [plain "sku" "String"];
        ObjectType EXTENSION "Mutation" [] [plain "updateProduct" "Product"] ] in
    schemaDeclaration d = Some b /\ normalizeRootTypes d = Normalized d' /\
    (forall b', ~ In (SchemaDeclaration b') d') /\
    (forall k n ds fs op,
        In (ObjectType k n ds fs) d -> designated b n = Some op ->
        In (ObjectType EXTENSION (defaultRootName op) ds
              (List.filter (keepField (droppedNames b d)) fs)) d' /\
        (Forall (fun f => ~ In (returnType f) (droppedNames b d)) fs ->
         In (ObjectType EXTENSION (defaultRootName op) ds fs) d')) /\
    (forall n op ds fs,
        designated b n = Some op -> ~ In (ObjectType DEFINITION n ds fs) d').
  Proof.
    intros d b d'. split; [reflexivity|]. split; [reflexivity|].
    apply (bound_root_types_rewritten d d' b); reflexivity.
  Defined.

  (** C7 as stated fails on the third fixture of the tests: [RootMutation]
      is bound to [mutation], and its field list is not carried over
      unchanged: [removeThisField], which returns the dropped type [Query],
      is not in the extension of [Mutation]. *)
Lemma bound_root_types_rewritten_counterexample :
    let fs := [plain "keepThisField" "String"; plain "removeThisField" "Query"] in
    exists d',
      normalizeRootTypes fixture_drop_fields = Normalized d' /\
      In (ObjectType DEFINITION "RootMutation" [] fs) fixture_drop_fields /\
      designated [(QUERY, "RootQuery"); (MUTATION, "RootMutation")] "RootMutation"
      = Some MUTATION /\
      ~ In (ObjectType EXTENSION (defaultRootName MUTATION) [] fs) d' /\
      In (ObjectType EXTENSION (defaultRootName MUTATION) []
            [plain "keepThisField" "String"]) d'.
  Proof.
    intros fs. eexists. split; [reflexivity|].
    split; [simpl; tauto|]. split; [reflexivity|].
    split; [|simpl; tauto].
    simpl. intros [H|[H|[]]]; discriminate.
  Qed.

Lemma droppedNames_spec b d n :
    In n (droppedNames b d) <->
    exists k ds fs,
      In (ObjectType k n ds fs) d /\ isDefaultRootName n = true /\
      designated b n = None.
  Proof.
    unfold droppedNames. rewrite In_omap. split.
    - intros (t & Ht & Hn). apply List.filter_In in Ht. destruct Ht as [Ht Hd].
      destruct t as [b0|k n0 ds fs]; simpl in Hn; [discriminate|].
      injection Hn as ->. simpl in Hd. apply andb_true_iff in Hd.
      destruct Hd as [Hroot Hdes]. exists k, ds, fs.
      destruct (designated b n); [discriminate|]. auto.
    - intros (k & ds & fs & Hin & Hroot & Hdes).
      exists (ObjectType k n ds fs). split; [|reflexivity].
      apply List.filter_In. split; [exact Hin|]. simpl.
      rewrite Hroot, Hdes. reflexivity.
  Qed.



Lemma countExternal_strip d : countExternal (map stripDefinition d) = 0.
  Proof.
    unfold countExternal. induction d as [|t d IH]; simpl; [reflexivity|].
    rewrite IH. destruct t as [b|k n ds fs]; simpl; [reflexivity|].
    rewrite Nat.add_0_r.
    induction fs as [|f fs IHf]; simpl; [reflexivity|].
    destruct (isExternal f) eqn:Hf; simpl; [exact IHf|].
    rewrite Hf. exact IHf.
  Qed.

Lemma length_stripped d s :
    length (flat_map (strippedOf s) d) = countExternal d.
  Proof.
    unfold countExternal. induction d as [|t d IH]; simpl; [reflexivity|].
    rewrite length_app, IH. f_equal.
    destruct t as [b|k n ds fs]; simpl; [reflexivity|]. apply length_map.
  Qed.

Lemma filter_flat_map_comm {A B : Type} (p : B -> bool) (f : A -> list B)
      (l : list A) :
    List.filter p (flat_map f l) = flat_map (fun x => List.filter p (f x)) l.
  Proof.
    induction l as [|x l IH]; simpl; [reflexivity|].
    rewrite List.filter_app, IH. reflexivity.
  Qed.

  (** C9: the document returned by [stripExternalFields] has no field
      flagged external; there is one record per external field of the
      input, with that field, the name of its type and the given service
      name, and the recorded fields are the external fields of the input in
      document order; the definitions are those of the input, in the same
      order and with the same names and directives, also when no field is
      left; and each definition keeps exactly its fields that are not
      flagged external, in their order. *)
Theorem external_fields_stripped (d : TypeDefDocument) (s : string) :
    countExternal (fst (stripExternalFields d s)) = 0 /\
    length (snd (stripExternalFields d s)) = countExternal d /\
    (forall r, In r (snd (stripExternalFields d s)) ->
       serviceName r = s /\ isExternal (strippedField r) = true /\
       exists k ds fs,
         In (ObjectType k (parentTypeName r) ds fs) d /\
         In (strippedField r) fs) /\
    (forall k n ds fs f,
       In (ObjectType k n ds fs) d -> In f fs -> isExternal f = true ->
       In (mkStripped f n s) (snd (stripExternalFields d s))) /\
    length (fst (stripExternalFields d s)) = length d /\
    map withoutFields (fst (stripExternalFields d s)) = map withoutFields d /\
    Forall2 (fun t t' =>
               fieldsOf t'
               = List.filter (fun f => negb (isExternal f)) (fieldsOf t))
            d (fst (stripExternalFields d s)) /\
    (forall k n ds fs f,
       In (ObjectType k n ds fs) d -> In f fs -> isExternal f = false ->
       exists fs',
         In (ObjectType k n ds fs') (fst (stripExternalFields d s)) /\
         In f fs') /\
    map strippedField (snd (stripExternalFields d s))
    = List.filter isExternal (flat_map fieldsOf d).
  Proof.
    unfold stripExternalFields. simpl.
    split; [apply countExternal_strip|].
    split; [apply length_stripped|].
    split; [|split; [|split; [|split; [|split; [|split]]]]].
    - intros r Hr. apply in_flat_map in Hr. destruct Hr as (t & Ht & Hr).
      destruct t as [b|k n ds fs]; simpl in Hr; [destruct Hr|].
      apply in_map_iff in Hr. destruct Hr as (f & <- & Hf).
      apply List.filter_In in Hf. simpl. repeat split; try tauto.
      exists k, ds, fs. tauto.
    - intros k n ds fs f Hin Hf Hext. apply in_flat_map.
      exists (ObjectType k n ds fs). split; [exact Hin|]. simpl.
      apply in_map_iff. exists f. split; [reflexivity|].
      apply List.filter_In. tauto.
    - apply length_map.
    - rewrite map_map. apply map_ext. intros [b|k n ds fs]; reflexivity.
    - induction d as [|t d IH]; simpl; constructor; [|exact IH].
      destruct t as [b|k n ds fs]; reflexivity.
    - intros k n ds fs f Hin Hf Hext.
      exists (List.filter (fun f => negb (isExternal f)) fs). split.
      + apply in_map_iff. exists (ObjectType k n ds fs).
        split; [reflexivity|exact Hin].
      + apply List.filter_In. rewrite Hext. split; [exact Hf|reflexivity].
    - rewrite filter_flat_map_comm.
      induction d as [|t d IH]; simpl; [reflexivity|].
      rewrite map_app, IH. f_equal.
      destruct t as [b|k n ds fs]; simpl; [reflexivity|].
      rewrite map_map. simpl. apply map_id.
  Qed.
End NormalizerFacts.

(** ** The merge over the store *)

Lemma mapS_ext {A B : Type} (f g : A -> Store.store -> outcome (B * Store.store))
    (l : list A) (h : Store.store) :
  (forall a h1, In a l -> f a h1 = g a h1) -> Store.mapS f l h = Store.mapS g l h.
Proof.
  revert h. induction l as [|a l IH]; intros h H; simpl; [reflexivity|].
  rewrite (H a h) by (left; reflexivity).
  destruct (g a h) as [r| |]; simpl; try reflexivity.
  rewrite IH; [reflexivity|]. intros b h1 Hb. apply H. right. exact Hb.
Qed.

Lemma mapS_map {A B C : Type} (f : B -> Store.store -> outcome (C * Store.store))
    (g : A -> B) (l : list A) (h : Store.store) :
  Store.mapS f (map g l) h = Store.mapS (fun a => f (g a)) l h.
Proof.
  revert h. induction l as [|a l IH]; intros h; simpl; [reflexivity|].
  destruct (f (g a) h) as [r| |]; simpl; try reflexivity.
  rewrite IH. reflexivity.
Qed.

Lemma store_leaf_named node :
  Store.isLeaf node = true -> exists v, Store.nameValue node = Some v.
Proof.
  destruct node as [f|n d|tc d s]; simpl; eauto. discriminate.
Qed.

(** The members of the group of [e] among the branching items of [l], the
    first occurrences of the keys, and the leaf items kept. *)
Local Abbreviation sgroup e l :=
  (withKey String.eqb Store.keyOf (Store.keyOf e) (Store.branches l)).
Local Abbreviation stemplates l :=
  (firstOccurrences String.eqb Store.keyOf (Store.branches l)).
Local Abbreviation sscalarsOf l :=
  (firstOccurrences sameName Store.nameValue (Store.leaves l)).

(** The assignment of the second phase for the group of [e]. *)
Lemma store_mergeWithFuel_unfold n ns h :
  (forall e l, In e ns -> Store.selectionSet_of e = Some l -> is_Some (h !! l)) ->
  Store.mergeWithFuel (S n) ns h =
  if forallb Store.keyed (Store.branches ns) then
    do r <-
      Store.mapS
        (fun e h1 =>
           match Store.selectionSet_of e with
           | None => Done (e, h1)
           | Some l =>
               do m <- Store.mergeWithFuel n
                         (flat_map (Store.children h) (sgroup e ns)) h1;
               Done (e, <[l := fst m]> (snd m))
           end)
        (stemplates ns) h;
    Done (sscalarsOf ns ++ fst r, snd r)
  else TypeError.
Proof.
  intros Hread. simpl.
  rewrite (collect_spec Store.selectionSet_of Store.nameValue
             Store.typeCondition_of (Store.read h) (Store.children h)).
  2:{ intros e _. apply store_leaf_named. }
  2:{ intros e l He Hl. unfold Store.read, Store.children. rewrite Hl.
      destruct (Hread e l He Hl) as [sels ->]. reflexivity. }
  destruct (forallb Store.keyed (Store.branches ns)) eqn:Hkeyed; [|reflexivity].
  simpl.
  rewrite (groupBy_groups _ _ String.eqb_refl String.eqb_sym eqb_trans).
  rewrite !mapS_map.
  match goal with
  | |- bind (Store.mapS ?f ?l ?h) _ = bind (Store.mapS ?g ?l ?h) _ =>
      rewrite (mapS_ext f g l h)
  end; [reflexivity|].
  intros e h1 He. cbv beta.
  destruct (template_lookup Store.selectionSet_of Store.nameValue
              Store.typeCondition_of (Store.children h) ns e Hkeyed He)
    as (s & H1 & H2 & H3 & H4 & H5).
  cbv zeta in H1, H3, H5.
  rewrite H1, H2, H3, H1, H4, H5. reflexivity.
Qed.

(** ** The trees of a store *)

Lemma traverse_Some {A B : Type} (f : A -> option B) l k :
  traverse f l = Some k <-> Forall2 (fun a b => f a = Some b) l k.
Proof.
  revert k. induction l as [|a l IH]; intros k; simpl.
  - split; [intros [= <-]; constructor|inversion 1; reflexivity].
  - split.
    + destruct (f a) as [b|] eqn:Ha; [|discriminate].
      destruct (traverse f l) as [bs|]; [|discriminate].
      intros [= <-]. constructor; [exact Ha|]. apply IH. reflexivity.
    + inversion 1 as [|? b ? bs Ha Hl]; subst. rewrite Ha.
      apply IH in Hl. rewrite Hl. reflexivity.
Qed.

Lemma traverse_app {A B : Type} (f : A -> option B) l1 l2 k1 k2 :
  traverse f l1 = Some k1 -> traverse f l2 = Some k2 ->
  traverse f (l1 ++ l2) = Some (k1 ++ k2).
Proof.
  rewrite !traverse_Some. apply Forall2_app.
Qed.

Lemma traverse_ext {A B : Type} (f g : A -> option B) l :
  (forall a, In a l -> f a = g a) -> traverse f l = traverse g l.
Proof.
  induction l as [|a l IH]; intros H; simpl; [reflexivity|].
  rewrite (H a) by (left; reflexivity).
  rewrite IH; [reflexivity|]. intros b Hb. apply H. right. exact Hb.
Qed.

Lemma flat_map_ext_In {A B : Type} (f g : A -> list B) l :
  (forall a, In a l -> f a = g a) -> flat_map f l = flat_map g l.
Proof.
  induction l as [|a l IH]; intros H; simpl; [reflexivity|].
  rewrite (H a) by (left; reflexivity).
  rewrite IH; [reflexivity|]. intros b Hb. apply H. right. exact Hb.
Qed.

Lemma elem_of_flat_map {A B : Type} (f : A -> list B) (l : list A) (b : B) :
  b ∈ flat_map f l <-> exists a, In a l /\ b ∈ f a.
Proof.
  rewrite list_elem_of_In, in_flat_map.
  split; intros (a & Ha & Hb); exists a; split; auto;
    apply list_elem_of_In; exact Hb.
Qed.

(** A node of the store and the tree read from it have the same name, type
    condition and kind of item. *)
Lemma decode_shallow k h n v :
  Store.decode k h n = Some v ->
  Store.nameValue n = nameValue v /\
  Store.typeCondition_of n = typeCondition_of v /\
  Store.isLeaf n = isLeaf v.
Proof.
  destruct k as [|k]; [discriminate|]. simpl.
  destruct n as [[a nm args ds [l|]]|nm d|tc d l]; simpl.
  - destruct (h !! l) as [sels|]; [|discriminate].
    destruct (traverse (Store.decode k h) sels); [|discriminate].
    intros [= <-]. auto.
  - intros [= <-]. auto.
  - intros [= <-]. auto.
  - destruct (h !! l) as [sels|]; [|discriminate].
    destruct (traverse (Store.decode k h) sels); [|discriminate].
    intros [= <-]. auto.
Qed.

Lemma decode_keyOf k h n v :
  Store.decode k h n = Some v ->
  Store.keyOf n = keyOf v /\ Store.keyed n = keyed v.
Proof.
  intros H. destruct (decode_shallow k h n v H) as (Hn & Ht & _).
  unfold Loop.keyOf, Loop.keyed, Loop.selectionKey. rewrite Hn, Ht. auto.
Qed.

(** The selections of a branching node of the store are those of its tree. *)
Lemma decode_children k h n v :
  Store.decode (S k) h n = Some v -> Store.isLeaf n = false ->
  exists l,
    Store.selectionSet_of n = Some l /\ is_Some (h !! l) /\
    traverse (Store.decode k h) (Store.children h n) = Some (children v).
Proof.
  unfold Store.children, children. simpl.
  destruct n as [[a nm args ds [l|]]|nm d|tc d l]; simpl; try discriminate.
  - destruct (h !! l) as [sels|] eqn:Hsels; [|discriminate].
    destruct (traverse (Store.decode k h) sels) eqn:Ht; [|discriminate].
    intros [= <-] _. exists l. rewrite Hsels. simpl.
    split; [reflexivity|]. split; [eexists; reflexivity|reflexivity].
  - destruct (h !! l) as [sels|] eqn:Hsels; [|discriminate].
    destruct (traverse (Store.decode k h) sels) eqn:Ht; [|discriminate].
    intros [= <-] _. exists l. rewrite Hsels. simpl.
    split; [reflexivity|]. split; [eexists; reflexivity|reflexivity].
Qed.

Lemma footprint_branch k h n l :
  Store.selectionSet_of n = Some l ->
  Store.footprint (S k) h n = l :: Store.footprints k h (Store.children h n).
Proof.
  intros Hl. unfold Store.children, Store.footprints. simpl. rewrite Hl.
  destruct (h !! l); reflexivity.
Qed.

Lemma footprint_leaf k h n : Store.isLeaf n = true -> Store.footprint k h n = [].
Proof.
  unfold Loop.isLeaf. destruct k; [reflexivity|]. simpl.
  destruct (Store.selectionSet_of n); [discriminate|reflexivity].
Qed.

(** Reading a tree looks at the objects of its footprint only. *)
Lemma decode_frame k : forall h h' n,
  (forall l, l ∈ Store.footprint k h n -> h' !! l = h !! l) ->
  Store.decode k h' n = Store.decode k h n /\
  Store.footprint k h' n = Store.footprint k h n.
Proof.
  induction k as [|k IH]; intros h h' n H; [split; reflexivity|].
  assert (forall l sels,
            Store.selectionSet_of n = Some l -> h !! l = Some sels ->
            h' !! l = Some sels /\
            traverse (Store.decode k h') sels = traverse (Store.decode k h) sels /\
            flat_map (Store.footprint k h') sels
            = flat_map (Store.footprint k h) sels) as Hsel.
  { intros l sels Hl Hsels.
    assert (forall c, In c sels ->
              Store.decode k h' c = Store.decode k h c /\
              Store.footprint k h' c = Store.footprint k h c) as Hc.
    { intros c Hc. apply IH. intros l' Hl'. apply H.
      simpl. rewrite Hl, Hsels. apply elem_of_cons. right.
      apply elem_of_flat_map. eauto. }
    split; [|split].
    - rewrite <- Hsels. apply H. simpl. rewrite Hl. apply elem_of_cons. auto.
    - apply traverse_ext. intros c Hin. apply Hc. exact Hin.
    - apply flat_map_ext_In. intros c Hin. apply Hc. exact Hin. }
  assert (forall l, Store.selectionSet_of n = Some l -> h' !! l = h !! l) as Hl0.
  { intros l Hl. apply H. simpl. rewrite Hl. apply elem_of_cons. auto. }
  split.
  - simpl. destruct n as [[a nm args ds [l|]]|nm d|tc d l]; simpl in *;
      try reflexivity.
    + rewrite (Hl0 l eq_refl). destruct (h !! l) as [sels|] eqn:Hs; [|reflexivity].
      destruct (Hsel l sels eq_refl Hs) as (_ & -> & _). reflexivity.
    + rewrite (Hl0 l eq_refl). destruct (h !! l) as [sels|] eqn:Hs; [|reflexivity].
      destruct (Hsel l sels eq_refl Hs) as (_ & -> & _). reflexivity.
  - simpl. destruct (Store.selectionSet_of n) as [l|] eqn:Hl; [|reflexivity].
    rewrite (Hl0 l eq_refl). destruct (h !! l) as [sels|] eqn:Hs; [|reflexivity].
    destruct (Hsel l sels eq_refl Hs) as (_ & _ & ->). reflexivity.
Qed.

Lemma decodes_frame k h h' ns :
  (forall l, l ∈ Store.footprints k h ns -> h' !! l = h !! l) ->
  traverse (Store.decode k h') ns = traverse (Store.decode k h) ns /\
  Store.footprints k h' ns = Store.footprints k h ns.
Proof.
  intros H.
  assert (forall c, In c ns ->
            Store.decode k h' c = Store.decode k h c /\
            Store.footprint k h' c = Store.footprint k h c) as Hc.
  { intros c Hc. apply decode_frame. intros l Hl. apply H.
    apply elem_of_flat_map. eauto. }
  split.
  - apply traverse_ext. intros c Hin. apply Hc. exact Hin.
  - apply flat_map_ext_In. intros c Hin. apply Hc. exact Hin.
Qed.

(** A branching node whose object holds new selections reads as its tree
    with these selections. *)
Lemma decode_withSelections k0 k h0 h e v l outs merged :
  Store.decode k0 h0 e = Some v -> Store.selectionSet_of e = Some l ->
  h !! l = Some outs -> traverse (Store.decode k h) outs = Some merged ->
  Store.decode (S k) h e = Some (withSelections v merged).
Proof.
  destruct k0 as [|k0]; [discriminate|]. simpl.
  destruct e as [[a nm args ds [l0|]]|nm d|tc d l0]; simpl;
    try discriminate.
  - destruct (h0 !! l0) as [sels|]; [|discriminate].
    destruct (traverse (Store.decode k0 h0) sels); [|discriminate].
    intros [= <-] [= ->] -> ->. reflexivity.
  - destruct (h0 !! l0) as [sels|]; [|discriminate].
    destruct (traverse (Store.decode k0 h0) sels); [|discriminate].
    intros [= <-] [= ->] -> ->. reflexivity.
Qed.

(** ** Groups as a rearrangement of the list *)

Lemma flat_map_flat_map {A B C : Type} (f : B -> list C) (g : A -> list B) l :
  flat_map f (flat_map g l) = flat_map (fun a => flat_map f (g a)) l.
Proof.
  induction l as [|a l IH]; simpl; [reflexivity|].
  rewrite flat_map_app, IH. reflexivity.
Qed.

Lemma flat_map_submseteq {A B : Type} (f g : A -> list B) l :
  (forall a, In a l -> f a ⊆+ g a) -> flat_map f l ⊆+ flat_map g l.
Proof.
  induction l as [|a l IH]; intros H; simpl; [reflexivity|].
  apply submseteq_app; [apply H; left; reflexivity|].
  apply IH. intros b Hb. apply H. right. exact Hb.
Qed.

Lemma flat_map_filter_submseteq {A B : Type} (f : A -> list B) p l :
  flat_map f (List.filter p l) ⊆+ flat_map f l.
Proof.
  induction l as [|a l IH]; simpl; [reflexivity|].
  destruct (p a); simpl.
  - apply submseteq_skips_l. exact IH.
  - apply submseteq_inserts_l. exact IH.
Qed.

Lemma flat_map_filter_split {A B : Type} (f : A -> list B) p l :
  flat_map f l ≡ₚ
  flat_map f (List.filter p l) ++ flat_map f (List.filter (fun a => negb (p a)) l).
Proof.
  induction l as [|a l IH]; simpl; [reflexivity|].
  destruct (p a); simpl.
  - rewrite <- app_assoc. apply Permutation_app_head. exact IH.
  - rewrite IH. rewrite !app_assoc. apply Permutation_app_tail.
    apply Permutation_app_comm.
Qed.

Lemma submseteq_NoDup {A : Type} (l k : list A) : NoDup k -> l ⊆+ k -> NoDup l.
Proof.
  intros Hk Hl. apply submseteq_Permutation in Hl. destruct Hl as [k' Hk'].
  rewrite Hk' in Hk. apply NoDup_app in Hk. tauto.
Qed.

Section Regroup.
Context {A K : Type}.
Variable sameKey : K -> K -> bool.
Variable key : A -> K.
Hypothesis sameKey_refl : forall a, sameKey a a = true.
Hypothesis sameKey_sym : forall a b, sameKey a b = sameKey b a.
Hypothesis sameKey_trans :
  forall a b c, sameKey a b = true -> sameKey b c = true -> sameKey a c = true.

Local Abbreviation firsts := (firstOccurrences sameKey key).
Local Abbreviation members := (withKey sameKey key).

Lemma withKey_absent k l : hasKey sameKey key k l = false -> members k l = [].
Proof using sameKey_sym.
  intros H. apply filter_none. apply List.Forall_forall. intros x Hx.
  apply not_true_is_false. intros Hs.
  assert (hasKey sameKey key k l = true) as Hc; [|congruence].
  apply existsb_exists. exists x. split; [exact Hx|].
  rewrite sameKey_sym. exact Hs.
Qed.

(** The groups of the first occurrences of a key [k] are the elements that
    have the key [k]. *)
Lemma groups_of_key k l :
  flat_map (fun e => members (key e) l)
           (List.filter (fun e => sameKey k (key e)) (firsts l))
  = members k l.
Proof using sameKey_refl sameKey_sym sameKey_trans.
  destruct (hasKey sameKey key k l) eqn:Hk.
  - rewrite <- (hasKey_firstOccurrences sameKey key sameKey_sym sameKey_trans)
      in Hk.
    apply existsb_exists in Hk. destruct Hk as (r & Hr & Hrk).
    rewrite (distinctKeys_filter_one sameKey key sameKey_sym sameKey_trans
               _ r k); [|apply firstOccurrences_distinct; assumption|exact Hr
                        |exact Hrk].
    simpl. rewrite app_nil_r.
    apply (withKey_same sameKey key sameKey_sym sameKey_trans). exact Hrk.
  - rewrite (withKey_absent k l Hk).
    rewrite <- (hasKey_firstOccurrences sameKey key sameKey_sym sameKey_trans)
      in Hk.
    fold (members k (firsts l)). rewrite (withKey_absent k _ Hk). reflexivity.
Qed.

(** The groups, taken in the order of the first occurrences of their keys,
    hold every element of the list once. *)
Lemma groups_Permutation l :
  flat_map (fun e => members (key e) l) (firsts l) ≡ₚ l.
Proof using sameKey_refl sameKey_sym sameKey_trans.
  induction l as [|x l IH]; simpl; [reflexivity|].
  unfold withKey at 1. simpl. rewrite sameKey_refl. simpl.
  apply Permutation_cons; [reflexivity|]. fold (members (key x) l).
  rewrite <- IH at 3.
  rewrite (flat_map_filter_split (fun e => members (key e) l)
             (fun e => sameKey (key x) (key e)) (firsts l)).
  rewrite groups_of_key.
  apply Permutation_app_head.
  erewrite flat_map_ext_In; [reflexivity|].
  intros e He. apply List.filter_In in He. destruct He as [_ He].
  apply negb_true_iff in He.
  unfold withKey. simpl. rewrite sameKey_sym, He. reflexivity.
Qed.
End Regroup.

(** ** The groups of the store and of the trees *)

Section Forall2Groups.
Context {A B K : Type}.
Variable R : A -> B -> Prop.
Variable sameKey : K -> K -> bool.
Variable keyA : A -> K.
Variable keyB : B -> K.
Hypothesis R_key : forall a b, R a b -> keyA a = keyB b.

Lemma Forall2_withKey k l1 l2 :
  Forall2 R l1 l2 ->
  Forall2 R (withKey sameKey keyA k l1) (withKey sameKey keyB k l2).
Proof using R_key.
  intros H. apply Forall2_filter.
  eapply Forall2_impl; [exact H|]. simpl. intros a b Hab.
  split; [exact Hab|]. rewrite (R_key a b Hab). reflexivity.
Qed.

Lemma Forall2_firstOccurrences l1 l2 :
  Forall2 R l1 l2 ->
  Forall2 R (firstOccurrences sameKey keyA l1) (firstOccurrences sameKey keyB l2).
Proof using R_key.
  induction 1 as [|a b l1 l2 Hab _ IH]; simpl; constructor; [exact Hab|].
  apply Forall2_filter.
  eapply Forall2_impl; [exact IH|]. simpl. intros a' b' Hab'.
  split; [exact Hab'|].
  rewrite (R_key a b Hab), (R_key a' b' Hab'). reflexivity.
Qed.
End Forall2Groups.

Section Decoded.
Variable k : nat.
Variable h : Store.store.
Variable ns : list Store.Node.
Variable vs : list SelectionNode.
Hypothesis Hdec : Forall2 (fun n v => Store.decode (S k) h n = Some v) ns vs.

Local Abbreviation D := (fun n v => Store.decode (S k) h n = Some v).

Lemma decoded_isLeaf n v : D n v -> Store.isLeaf n = isLeaf v.
Proof. intros H. apply (decode_shallow _ _ _ _ H). Qed.

Lemma decoded_keyOf n v : D n v -> Store.keyOf n = keyOf v.
Proof. intros H. apply (decode_keyOf _ _ _ _ H). Qed.

Lemma decoded_nameValue n v : D n v -> Store.nameValue n = nameValue v.
Proof. intros H. apply (decode_shallow _ _ _ _ H). Qed.

Lemma decoded_leaves : Forall2 D (Store.leaves ns) (leaves vs).
Proof using Hdec.
  apply Forall2_filter. eapply Forall2_impl; [exact Hdec|]. simpl.
  intros n v Hnv. split; [exact Hnv|apply decoded_isLeaf; exact Hnv].
Qed.

Lemma decoded_branches : Forall2 D (Store.branches ns) (branches vs).
Proof using Hdec.
  apply Forall2_filter. eapply Forall2_impl; [exact Hdec|]. simpl.
  intros n v Hnv. split; [exact Hnv|].
  rewrite (decoded_isLeaf n v Hnv). reflexivity.
Qed.

Lemma decoded_scalars : Forall2 D (sscalarsOf ns) (firstOccurrences sameName nameValue (leaves vs)).
Proof using Hdec.
  apply Forall2_firstOccurrences; [exact decoded_nameValue|exact decoded_leaves].
Qed.

Lemma decoded_templates :
  Forall2 D (stemplates ns) (firstOccurrences String.eqb keyOf (branches vs)).
Proof using Hdec.
  apply Forall2_firstOccurrences; [exact decoded_keyOf|exact decoded_branches].
Qed.

Lemma decoded_keyed :
  forallb Store.keyed (Store.branches ns) = forallb keyed (branches vs).
Proof using Hdec.
  pose proof decoded_branches as H.
  induction H as [|n v l1 l2 Hnv _ IH]; simpl; [reflexivity|].
  rewrite IH. f_equal. apply (decode_keyOf _ _ _ _ Hnv).
Qed.

(** The selections gathered for a group are those gathered for the group
    of the trees. *)
Lemma decoded_children (G : list Store.Node) (T : list SelectionNode) :
  Forall2 D G T -> Forall (fun n => Store.isLeaf n = false) G ->
  traverse (Store.decode k h) (flat_map (Store.children h) G)
  = Some (flat_map children T).
Proof.
  induction 1 as [|n v G T Hnv _ IH]; intros HG; simpl; [reflexivity|].
  inversion HG as [|? ? Hn HG']; subst.
  destruct (decode_children _ _ _ _ Hnv Hn) as (l & _ & _ & Hc).
  apply traverse_app; [exact Hc|apply IH; exact HG'].
Qed.

Lemma decoded_group e_h e_v :
  D e_h e_v ->
  traverse (Store.decode k h) (flat_map (Store.children h) (sgroup e_h ns))
  = Some (flat_map children
            (withKey String.eqb keyOf (keyOf e_v) (branches vs))).
Proof using Hdec.
  intros He. apply decoded_children.
  - rewrite (decoded_keyOf _ _ He).
    apply Forall2_withKey; [exact decoded_keyOf|exact decoded_branches].
  - apply List.Forall_forall. intros n Hn.
    apply List.filter_In in Hn. destruct Hn as [Hn _].
    apply List.filter_In in Hn. destruct Hn as [_ Hn].
    apply negb_true_iff. exact Hn.
Qed.

Lemma decoded_reads e l :
  In e ns -> Store.selectionSet_of e = Some l -> is_Some (h !! l).
Proof using Hdec.
  intros He Hl.
  destruct (Forall2_In_l _ _ _ e Hdec He) as (v & _ & Hv).
  destruct (decode_children _ _ _ _ Hv) as (l' & Hl' & Hsome & _).
  - unfold Loop.isLeaf. rewrite Hl. reflexivity.
  - congruence.
Qed.
End Decoded.

(** ** The objects a group may be assigned *)

Lemma children_footprint k h m :
  Store.footprints k h (Store.children h m) ⊆+ Store.footprint (S k) h m.
Proof.
  destruct (Store.selectionSet_of m) as [l|] eqn:Hl.
  - rewrite (footprint_branch _ _ _ _ Hl). apply submseteq_cons. reflexivity.
  - unfold Store.children. rewrite Hl. apply submseteq_nil_l.
Qed.

Lemma groupFootprint_group k h ns e :
  In e (stemplates ns) ->
  Store.groupFootprint k h
    (fun e => flat_map (Store.children h) (sgroup e ns)) e
  ⊆+ Store.footprints (S k) h (sgroup e ns).
Proof.
  intros He.
  pose proof (head_withKey_first String.eqb Store.keyOf String.eqb_refl
                String.eqb_sym eqb_trans _ _ He) as Hhead.
  assert (In e (Store.branches ns)) as Hb
    by (eapply firstOccurrences_incl; exact He).
  destruct (branch_selectionSet Store.selectionSet_of _ _ Hb) as [l Hl].
  unfold Store.groupFootprint. rewrite Hl.
  destruct (sgroup e ns) as [|first rest]; [discriminate|].
  simpl in Hhead. injection Hhead as ->.
  unfold Store.footprints. cbn [flat_map].
  rewrite (footprint_branch _ _ _ _ Hl). unfold Store.footprints.
  rewrite flat_map_app. cbn [app]. apply submseteq_skip.
  apply submseteq_skips_l.
  rewrite flat_map_flat_map. apply flat_map_submseteq.
  intros m _. apply children_footprint.
Qed.

Lemma templates_footprints k h ns :
  flat_map (Store.groupFootprint k h
              (fun e => flat_map (Store.children h) (sgroup e ns)))
           (stemplates ns)
  ⊆+ Store.footprints (S k) h ns.
Proof.
  transitivity (flat_map (fun e => Store.footprints (S k) h (sgroup e ns))
                         (stemplates ns)).
  { apply flat_map_submseteq. intros e He. apply groupFootprint_group. exact He. }
  unfold Store.footprints. rewrite <- flat_map_flat_map.
  transitivity (flat_map (Store.footprint (S k) h) (Store.branches ns)).
  - apply Permutation_submseteq. apply Permutation_flat_map.
    apply (groups_Permutation String.eqb Store.keyOf String.eqb_refl
             String.eqb_sym eqb_trans).
  - apply flat_map_filter_submseteq.
Qed.

(** ** The merge over the store agrees with the merge of the trees *)

Section SecondPhase.
Variable m : nat.
Hypothesis IHm :
  forall k h ns vs,
    Store.separated k h ns vs ->
    Store.simulates k h (Store.footprints k h ns)
      (mergeWithFuel m vs) (Store.mergeWithFuel m ns h).
Variable k : nat.
Variable h0 : Store.store.
Variable Ch : Store.Node -> list Store.Node.
Variable Cv : SelectionNode -> list SelectionNode.

(** The callbacks of the second phase, on the store and on the trees. *)
Local Abbreviation assign :=
  (fun e h1 =>
     match Store.selectionSet_of e with
     | None => Done (e, h1)
     | Some l =>
         do r <- Store.mergeWithFuel m (Ch e) h1;
         Done (e, <[l := fst r]> (snd r))
     end).
Local Abbreviation combine :=
  (fun e => do merged <- mergeWithFuel m (Cv e); Done (withSelections e merged)).
Local Abbreviation owned hi es := (flat_map (Store.groupFootprint k hi Ch) es).

Lemma second_phase : forall es_h es_v hi,
  Forall2 (fun e_h e_v =>
             Store.decode (S k) h0 e_h = Some e_v /\
             Store.isLeaf e_h = false /\
             traverse (Store.decode k hi) (Ch e_h) = Some (Cv e_v))
          es_h es_v ->
  NoDup (owned hi es_h) ->
  Store.simulates (S k) hi (owned hi es_h)
    (mapM combine es_v) (Store.mapS assign es_h hi).
Proof using IHm.
  induction es_h as [|e_h es_h IH]; intros es_v hi HF Hnd.
  - inversion HF; subst. simpl. exists [], hi.
    split; [reflexivity|]. split; [split; [reflexivity|constructor]|].
    split; [intros l Hl; exact Hl|reflexivity].
  - inversion HF as [|? e_v ? es_v' (Hdec0 & Hbr & Hch) HF']; subst.
    cbn [flat_map mapM Store.mapS] in Hnd |- *.
    unfold Loop.isLeaf in Hbr.
    assert (exists l, Store.selectionSet_of e_h = Some l) as [l Hl]
      by (destruct (Store.selectionSet_of e_h); [eauto|discriminate]).
    clear Hbr.
    assert (Store.groupFootprint k hi Ch e_h
            = l :: Store.footprints k hi (Ch e_h)) as Hgf
      by (unfold Store.groupFootprint; rewrite Hl; reflexivity).
    rewrite Hgf in Hnd |- *. clear Hgf. rewrite Hl.
    set (fpC := Store.footprints k hi (Ch e_h)) in *.
    set (FPrest := owned hi es_h) in *.
    apply NoDup_app in Hnd. destruct Hnd as (Hnd1 & Hdisj & Hnd2).
    apply NoDup_cons in Hnd1. destruct Hnd1 as (Hl_notin & HndC).
    pose proof (IHm k hi (Ch e_h) (Cv e_v) (conj Hch HndC)) as Hsim.
    unfold Store.simulates in Hsim |- *.
    fold fpC in Hsim.
    destruct (mergeWithFuel m (Cv e_v)) as [merged| |]; simpl;
      [|rewrite Hsim; reflexivity|rewrite Hsim; reflexivity].
    destruct Hsim as (outs & h1 & Hrun & (Hdec1 & Hnd_outs) & Hincl & Hframe).
    rewrite Hrun. simpl.
    set (h2 := <[l := outs]> h1).
    assert (forall l', l' ∈ FPrest -> h2 !! l' = hi !! l') as Hagree.
    { intros l' Hl'. unfold h2. rewrite lookup_insert_ne.
      - apply Hframe. intros Hin. apply (Hdisj l'); [|exact Hl'].
        apply elem_of_cons. right. exact Hin.
      - intros ->. apply (Hdisj l'); [|exact Hl']. apply elem_of_cons. left.
        reflexivity. }
    assert (forall e', In e' es_h ->
              traverse (Store.decode k h2) (Ch e')
              = traverse (Store.decode k hi) (Ch e') /\
              Store.footprints k h2 (Ch e') = Store.footprints k hi (Ch e'))
      as Hrest.
    { intros e' He'. apply decodes_frame. intros l' Hl'. apply Hagree.
      apply elem_of_flat_map. exists e'. split; [exact He'|].
      unfold Store.groupFootprint.
      destruct (Store.selectionSet_of e'); [apply elem_of_cons; right|];
        exact Hl'. }
    assert (owned h2 es_h = FPrest) as Hown.
    { apply flat_map_ext_In. intros e' He'. unfold Store.groupFootprint.
      rewrite (proj2 (Hrest e' He')). reflexivity. }
    assert (Forall2 (fun e_h e_v =>
                       Store.decode (S k) h0 e_h = Some e_v /\
                       Store.isLeaf e_h = false /\
                       traverse (Store.decode k h2) (Ch e_h) = Some (Cv e_v))
                    es_h es_v') as HF2.
    { eapply Forall2_impl_In; [exact HF'|]. cbv beta.
      intros a b Ha (H1 & H2 & H3). repeat split; auto.
      rewrite (proj1 (Hrest a Ha)). exact H3. }
    specialize (IH es_v' h2 HF2). rewrite Hown in IH. specialize (IH Hnd2).
    unfold Store.simulates in IH.
    destruct (mapM combine es_v') as [out_t| |]; simpl;
      [|rewrite IH; reflexivity|rewrite IH; reflexivity].
    destruct IH as (outs_t & hf & Hrun_t & (Hdec_t & Hnd_t) & Hincl_t & Hframe_t).
    rewrite Hrun_t. simpl.
    exists (e_h :: outs_t), hf. split; [reflexivity|].
    assert (h2 !! l = Some outs) as Hl2 by apply lookup_insert_eq.
    destruct (decodes_frame k h1 h2 outs) as [Ht2 Hf2].
    { intros l' Hl'. unfold h2. apply lookup_insert_ne. intros ->.
      apply Hl_notin. apply Hincl. exact Hl'. }
    assert (Store.footprint (S k) h2 e_h = l :: Store.footprints k h1 outs)
      as Hfp2.
    { rewrite (footprint_branch _ _ _ _ Hl). unfold Store.children.
      rewrite Hl, Hl2, Hf2. reflexivity. }
    assert (Store.decode (S k) h2 e_h = Some (withSelections e_v merged))
      as Hdec2.
    { eapply decode_withSelections; [exact Hdec0|exact Hl|exact Hl2|].
      rewrite Ht2. exact Hdec1. }
    assert (forall l', l' ∈ l :: Store.footprints k h1 outs -> l' ∈ l :: fpC)
      as Hsub.
    { intros l' H. apply elem_of_cons in H. apply elem_of_cons.
      destruct H as [->|H]; [left; reflexivity|right; apply Hincl; exact H]. }
    destruct (decode_frame (S k) h2 hf e_h) as [Hdf Hff].
    { intros l' Hl'. rewrite Hfp2 in Hl'. apply Hframe_t. intros Hin.
      apply (Hdisj l'); [apply Hsub; exact Hl'|exact Hin]. }
    split; [split|split].
    + cbn [traverse]. rewrite Hdf, Hdec2, Hdec_t. reflexivity.
    + unfold Store.footprints. cbn [flat_map]. rewrite Hff, Hfp2.
      apply NoDup_app. split; [|split].
      * apply NoDup_cons. split; [|exact Hnd_outs].
        intros Hin. apply Hl_notin. apply Hincl. exact Hin.
      * intros l' Hl' Hin. apply (Hdisj l'); [apply Hsub; exact Hl'|].
        apply Hincl_t. exact Hin.
      * exact Hnd_t.
    + intros l' Hl'. unfold Store.footprints in Hl'. cbn [flat_map] in Hl'.
      rewrite Hff, Hfp2 in Hl'. apply elem_of_app in Hl'.
      change (l' ∈ (l :: fpC) ++ FPrest). apply elem_of_app.
      destruct Hl' as [H|H]; [left; apply Hsub; exact H|].
      right. apply Hincl_t. exact H.
    + intros l' Hl'. change (l' ∉ (l :: fpC) ++ FPrest) in Hl'.
      rewrite Hframe_t
        by (intros Hin; apply Hl'; apply elem_of_app; right; exact Hin).
      unfold h2. rewrite lookup_insert_ne.
      * apply Hframe. intros Hin. apply Hl'. apply elem_of_app. left.
        apply elem_of_cons. right. exact Hin.
      * intros ->. apply Hl'. apply elem_of_app. left. apply elem_of_cons.
        left. reflexivity.
Qed.
End SecondPhase.

Lemma separated_leaves k h h' (ss : list Store.Node) (ts : list SelectionNode) :
  Forall (fun s => Store.isLeaf s = true) ss ->
  traverse (Store.decode k h) ss = Some ts ->
  traverse (Store.decode k h') ss = Some ts /\ Store.footprints k h' ss = [].
Proof.
  intros Hleaf Hdec. split.
  - rewrite <- Hdec. apply traverse_ext. intros s Hs.
    rewrite List.Forall_forall in Hleaf.
    apply decode_frame. intros l Hl.
    rewrite (footprint_leaf k h s (Hleaf s Hs)) in Hl. inversion Hl.
  - unfold Store.footprints. clear Hdec.
    induction Hleaf as [|s ss Hs _ IH]; simpl; [reflexivity|].
    rewrite (footprint_leaf k h' s Hs). exact IH.
Qed.

(** On a store that holds the trees [vs] at the nodes [ns] with no object
    shared, [mergeSelectionsSetsInternal] over the store does what it does
    on the trees: it throws on the same inputs, and when it returns, the
    nodes it returns hold in the final store the selections returned on the
    trees. It assigns only to objects of the trees it was given. *)
Theorem mergeWithFuel_refines m : forall k h ns vs,
  Store.separated k h ns vs ->
  Store.simulates k h (Store.footprints k h ns)
    (mergeWithFuel m vs) (Store.mergeWithFuel m ns h).
Proof.
  induction m as [|m IHm]; intros k h ns vs [Hdec Hnd]; [reflexivity|].
  destruct k as [|k].
  { destruct ns as [|n ns]; [|discriminate]. injection Hdec as <-.
    simpl. exists [], h. split; [reflexivity|].
    split; [split; [reflexivity|constructor]|].
    split; [intros l Hl; exact Hl|reflexivity]. }
  pose proof Hdec as HF. apply traverse_Some in HF.
  rewrite mergeWithFuel_unfold.
  rewrite store_mergeWithFuel_unfold by (apply (decoded_reads k h ns vs HF)).
  rewrite (decoded_keyed k h ns vs HF).
  destruct (forallb keyed (branches vs)); [|reflexivity].
  pose proof (second_phase m IHm k h
                (fun e => flat_map (Store.children h) (sgroup e ns))
                (fun e => flat_map children
                            (withKey String.eqb keyOf (keyOf e) (branches vs)))
                (stemplates ns)
                (firstOccurrences String.eqb keyOf (branches vs)) h) as Hph.
  pose proof (templates_footprints k h ns) as Hsubm.
  assert (forall l,
            l ∈ flat_map (Store.groupFootprint k h
                            (fun e => flat_map (Store.children h) (sgroup e ns)))
                         (stemplates ns) ->
            l ∈ Store.footprints (S k) h ns) as Hsub.
  { intros l Hl. eapply elem_of_submseteq; [exact Hl|exact Hsubm]. }
  unfold Store.simulates in Hph |- *.
  match type of Hph with
  | ?A -> ?B -> _ => assert A as HA; [|assert B as HB; [|specialize (Hph HA HB)]]
  end.
  { eapply Forall2_impl_In; [exact (decoded_templates k h ns vs HF)|].
    cbv beta. intros e_h e_v He Hev. split; [exact Hev|]. split.
    - apply firstOccurrences_incl in He. apply List.filter_In in He.
      apply negb_true_iff. tauto.
    - apply (decoded_group k h ns vs HF). exact Hev. }
  { eapply submseteq_NoDup; [exact Hnd|exact Hsubm]. }
  destruct (mapM _ (firstOccurrences String.eqb keyOf (branches vs)))
    as [result| |]; simpl; [|rewrite Hph; reflexivity|rewrite Hph; reflexivity].
  destruct Hph as (outs & hf & Hrun & (Hdec_o & Hnd_o) & Hincl & Hframe).
  rewrite Hrun. simpl.
  exists (sscalarsOf ns ++ outs), hf. split; [reflexivity|].
  pose proof (decoded_scalars k h ns vs HF) as Hsc. apply traverse_Some in Hsc.
  assert (Forall (fun s => Store.isLeaf s = true) (sscalarsOf ns)) as Hleaf.
  { apply List.Forall_forall. intros s Hs. apply firstOccurrences_incl in Hs.
    apply List.filter_In in Hs. tauto. }
  destruct (separated_leaves (S k) h hf (sscalarsOf ns) _ Hleaf Hsc)
    as [Hsc_f Hsc_fp].
  split; [split|split].
  - apply traverse_app; assumption.
  - unfold Store.footprints in *. rewrite flat_map_app, Hsc_fp. exact Hnd_o.
  - intros l Hl. unfold Store.footprints in Hl. rewrite flat_map_app in Hl.
    fold (Store.footprints (S k) hf (sscalarsOf ns)) in Hl.
    rewrite Hsc_fp in Hl. apply Hsub. apply Hincl. exact Hl.
  - intros l Hl. apply Hframe. intros Hin. apply Hl. apply Hsub. exact Hin.
Qed.

(** ** Trees, depth and allocation *)

(** The objects of a tree read from the store are in the store. *)
Lemma decode_allocated k : forall h n v l,
  Store.decode k h n = Some v -> l ∈ Store.footprint k h n -> is_Some (h !! l).
Proof.
  induction k as [|k IH]; intros h n v l Hdec Hl; [inversion Hl|].
  assert (Store.isLeaf n = false) as Hbr.
  { destruct (Store.isLeaf n) eqn:Hleaf; [|reflexivity].
    rewrite (footprint_leaf _ _ _ Hleaf) in Hl. inversion Hl. }
  destruct (decode_children _ _ _ _ Hdec Hbr) as (l0 & Hl0 & Hsome & Hch).
  rewrite (footprint_branch _ _ _ _ Hl0) in Hl.
  apply elem_of_cons in Hl. destruct Hl as [->|Hl]; [exact Hsome|].
  apply elem_of_flat_map in Hl. destruct Hl as (c & Hc & Hlc).
  apply traverse_Some in Hch.
  destruct (Forall2_In_l _ _ _ c Hch Hc) as (cv & _ & Hcv).
  exact (IH h c cv l Hcv Hlc).
Qed.

Lemma decodes_allocated k h ns vs l :
  traverse (Store.decode k h) ns = Some vs -> l ∈ Store.footprints k h ns ->
  is_Some (h !! l).
Proof.
  intros Hdec Hl. apply elem_of_flat_map in Hl. destruct Hl as (c & Hc & Hlc).
  apply traverse_Some in Hdec.
  destruct (Forall2_In_l _ _ _ c Hdec Hc) as (cv & _ & Hcv).
  exact (decode_allocated k h c cv l Hcv Hlc).
Qed.

(** A tree read within a depth is read the same within a greater one. *)
Lemma decode_mono k : forall h n v,
  Store.decode k h n = Some v ->
  Store.decode (S k) h n = Some v /\
  Store.footprint (S k) h n = Store.footprint k h n.
Proof.
  induction k as [|k IH]; intros h n v Hdec; [discriminate|].
  assert (forall sels ts,
            traverse (Store.decode k h) sels = Some ts ->
            traverse (Store.decode (S k) h) sels = Some ts /\
            flat_map (Store.footprint (S k) h) sels
            = flat_map (Store.footprint k h) sels) as Hsels.
  { intros sels ts Hts. apply traverse_Some in Hts. split.
    - apply traverse_Some. eapply Forall2_impl; [exact Hts|]. cbv beta.
      intros c cv Hc. apply IH. exact Hc.
    - apply flat_map_ext_In. intros c Hc.
      destruct (Forall2_In_l _ _ _ c Hts Hc) as (cv & _ & Hcv).
      apply (IH h c cv Hcv). }
  split.
  - destruct (Store.isLeaf n) eqn:Hleaf.
    + revert Hdec. unfold Loop.isLeaf in Hleaf.
      destruct n as [[a nm args ds [l|]]|nm d|tc d l]; simpl in *;
        try discriminate; intros H; exact H.
    + destruct (decode_children _ _ _ _ Hdec Hleaf) as (l0 & Hl0 & [sels Hs] & Hch).
      assert (Store.children h n = sels) as Hcs
        by (unfold Store.children; rewrite Hl0, Hs; reflexivity).
      rewrite Hcs in Hch.
      pose proof (proj1 (Hsels _ _ Hch)) as Hch'.
      assert (withSelections v (children v) = v) as Hv.
      { pose proof (proj2 (proj2 (decode_shallow _ _ _ _ Hdec))) as Hlf.
        rewrite Hleaf in Hlf. symmetry in Hlf. unfold Loop.isLeaf in Hlf.
        unfold children.
        destruct v as [[a nm args ds [s|]]|nm d|tc d s]; simpl in *;
          try discriminate; reflexivity. }
      rewrite <- Hv at 1.
      exact (decode_withSelections (S k) (S k) h h n v l0 sels (children v)
               Hdec Hl0 Hs Hch').
  - destruct (Store.isLeaf n) eqn:Hleaf.
    + rewrite !footprint_leaf by exact Hleaf. reflexivity.
    + destruct (decode_children _ _ _ _ Hdec Hleaf) as (l0 & Hl0 & _ & Hch).
      rewrite !(footprint_branch _ _ _ _ Hl0). f_equal.
      destruct (Store.children h n) as [|c cs] eqn:Hcs; [reflexivity|].
      apply (Hsels _ _ Hch).
Qed.

Lemma decodes_mono k h ns vs :
  traverse (Store.decode k h) ns = Some vs ->
  traverse (Store.decode (S k) h) ns = Some vs /\
  Store.footprints (S k) h ns = Store.footprints k h ns.
Proof.
  intros Hts. apply traverse_Some in Hts. split.
  - apply traverse_Some. eapply Forall2_impl; [exact Hts|]. cbv beta.
    intros c cv Hc. apply decode_mono. exact Hc.
  - apply flat_map_ext_In. intros c Hc.
    destruct (Forall2_In_l _ _ _ c Hts Hc) as (cv & _ & Hcv).
    apply (decode_mono k h c cv Hcv).
Qed.

(** A tree read within the depth [k] is not deeper than [k]. *)
Lemma decode_depth k : forall h n v,
  Store.decode k h n = Some v -> depth v <= k.
Proof.
  induction k as [|k IH]; intros h n v Hdec; [discriminate|].
  destruct (Store.isLeaf n) eqn:Hleaf.
  - assert (isLeaf v = true) as Hv
      by (rewrite <- (proj2 (proj2 (decode_shallow _ _ _ _ Hdec))); exact Hleaf).
    unfold Loop.isLeaf in Hv.
    destruct v as [[a nm args ds [s|]]|nm d|tc d s]; simpl in *;
      try discriminate; lia.
  - destruct (decode_children _ _ _ _ Hdec Hleaf) as (l0 & _ & _ & Hch).
    assert (isLeaf v = false) as Hv
      by (rewrite <- (proj2 (proj2 (decode_shallow _ _ _ _ Hdec))); exact Hleaf).
    rewrite (depth_branch v Hv).
    apply traverse_Some in Hch.
    assert (forall cs ts,
              Forall2 (fun c t => Store.decode k h c = Some t) cs ts ->
              depthList ts <= k) as Hall.
    { induction 1 as [|c t cs ts Hct _ IHc]; [unfold depthList; simpl; lia|].
      unfold depthList in *. simpl. apply IH in Hct. lia. }
    specialize (Hall _ _ Hch). lia.
Qed.

Lemma decodes_depth k h ns vs :
  traverse (Store.decode k h) ns = Some vs -> depthList vs <= k.
Proof.
  intros H. apply traverse_Some in H.
  induction H as [|c t cs ts Hct _ IHc]; [unfold depthList; simpl; lia|].
  unfold depthList in *. simpl. apply decode_depth in Hct. lia.
Qed.

(** ** Steps in sequence over the store *)

Section Sequential.
Context {X Xv Y Yv : Type}.
Variable step : X -> Store.store -> outcome (Y * Store.store).
Variable pstep : Xv -> outcome Yv.
Variable F : X -> list Store.loc.
Variable holds : Store.store -> Y -> Yv -> Prop.
Variable reaches : Store.store -> Y -> list Store.loc.
Hypothesis holds_frame :
  forall h h' y yv,
    holds h y yv -> (forall l, l ∈ reaches h y -> h' !! l = h !! l) ->
    holds h' y yv /\ reaches h' y = reaches h y.
Variable h0 : Store.store.

(** Steps that own disjoint parts of the initial store run one after the
    other as on values: a step finds its part as it was, and leaves the
    results of the steps before it as they are. *)
Lemma sequential : forall xs xvs,
  Forall2 (fun x xv =>
             forall h,
               (forall l, is_Some (h0 !! l) -> is_Some (h !! l)) ->
               (forall l, l ∈ F x -> h !! l = h0 !! l) ->
               Store.runsTo holds reaches h (F x) (pstep xv) (step x h))
          xs xvs ->
  NoDup (flat_map F xs) ->
  (forall l, l ∈ flat_map F xs -> is_Some (h0 !! l)) ->
  forall h,
    (forall l, is_Some (h0 !! l) -> is_Some (h !! l)) ->
    (forall l, l ∈ flat_map F xs -> h !! l = h0 !! l) ->
    Store.runsTo (fun h ys yvs => Forall2 (holds h) ys yvs)
      (fun h ys => flat_map (reaches h) ys)
      h (flat_map F xs) (mapM pstep xvs) (Store.mapS step xs h).
Proof using holds_frame.
  induction 1 as [|x xv xs xvs Hx _ IH]; intros Hnd Halloc h Hdom Hagree.
  - simpl. exists [], h. split; [reflexivity|]. split; [constructor|].
    split; [intros l Hl; inversion Hl|]. auto.
  - cbn [flat_map mapM Store.mapS] in *.
    apply NoDup_app in Hnd. destruct Hnd as (Hnd1 & Hdisj & Hnd2).
    specialize (Hx h Hdom
                  (fun l Hl => Hagree l (proj2 (elem_of_app _ _ _)
                                           (or_introl Hl)))).
    unfold Store.runsTo in Hx |- *.
    destruct (pstep xv) as [yv| |]; simpl;
      [|rewrite Hx; reflexivity|rewrite Hx; reflexivity].
    destruct Hx as (y & h1 & Hrun & Hy & Hreach & Hframe & Hmono).
    rewrite Hrun. simpl.
    assert (forall l, l ∈ flat_map F xs -> is_Some (h !! l) /\ l ∉ F x) as Hrest.
    { intros l Hl. split.
      - apply Hdom. apply Halloc. apply elem_of_app. right. exact Hl.
      - intros Hin. exact (Hdisj l Hin Hl). }
    specialize (IH Hnd2
                  (fun l Hl => Halloc l (proj2 (elem_of_app _ _ _)
                                           (or_intror Hl)))
                  h1 (fun l Hl => Hmono l (Hdom l Hl))).
    unfold Store.runsTo in IH.
    match type of IH with ?A -> _ => assert A as HA; [|specialize (IH HA)] end.
    { intros l Hl. destruct (Hrest l Hl) as [Hs Hn].
      rewrite (Hframe l Hs Hn). apply Hagree. apply elem_of_app. right.
      exact Hl. }
    destruct (mapM pstep xvs) as [yvs| |]; simpl;
      [|rewrite IH; reflexivity|rewrite IH; reflexivity].
    destruct IH as (ys & h2 & Hrun2 & Hys & Hreach2 & Hframe2 & Hmono2).
    rewrite Hrun2. simpl. exists (y :: ys), h2. split; [reflexivity|].
    assert (forall l, l ∈ reaches h1 y -> h2 !! l = h1 !! l) as Hkeep.
    { intros l Hl. destruct (Hreach l Hl) as [Hs [Hown|Hnew]].
      - apply Hframe2; [exact Hs|]. intros Hin. exact (Hdisj l Hown Hin).
      - apply Hframe2; [exact Hs|]. intros Hin.
        destruct (Hrest l Hin) as [[v Hv] _]. congruence. }
    destruct (holds_frame h1 h2 y yv Hy Hkeep) as [Hy2 Hr2].
    split; [constructor; assumption|]. split; [|split].
    + intros l Hl. cbn [flat_map] in Hl. rewrite Hr2 in Hl.
      apply elem_of_app in Hl. destruct Hl as [Hl|Hl].
      * destruct (Hreach l Hl) as [Hs Hcase]. split.
        -- rewrite (Hkeep l Hl). exact Hs.
        -- destruct Hcase as [Hown|Hnew]; [left|right; exact Hnew].
           apply elem_of_app. left. exact Hown.
      * destruct (Hreach2 l Hl) as [Hs Hcase]. split; [exact Hs|].
        destruct Hcase as [Hown|Hnew].
        -- left. apply elem_of_app. right. exact Hown.
        -- right. destruct (h !! l) as [v|] eqn:Hv; [|reflexivity].
           destruct (Hmono l (ex_intro _ v Hv)) as [v1 Hv1]. congruence.
    + intros l Hs Hn.
      rewrite Hframe2.
      * apply Hframe; [exact Hs|]. intros Hin. apply Hn. apply elem_of_app.
        left. exact Hin.
      * apply Hmono. exact Hs.
      * intros Hin. apply Hn. apply elem_of_app. right. exact Hin.
    + intros l Hs. apply Hmono2. apply Hmono. exact Hs.
Qed.
End Sequential.

(** ** The store only grows *)

Lemma mapS_allocated {A B : Type}
    (f : A -> Store.store -> outcome (B * Store.store)) l :
  (forall a h r h', In a l -> f a h = Done (r, h') ->
                    forall x, is_Some (h !! x) -> is_Some (h' !! x)) ->
  forall h rs h', Store.mapS f l h = Done (rs, h') ->
                  forall x, is_Some (h !! x) -> is_Some (h' !! x).
Proof.
  induction l as [|a l IH]; intros Hf h rs h'; simpl.
  - intros [= _ <-] x Hx. exact Hx.
  - destruct (f a h) as [[r h1]| |] eqn:Ha; simpl; try discriminate.
    destruct (Store.mapS f l h1) as [[rs1 h2]| |] eqn:Hl; simpl;
      try discriminate.
    intros [= _ <-] x Hx.
    eapply IH; [|exact Hl|].
    + intros b hb rb hb' Hb. apply Hf. right. exact Hb.
    + eapply Hf; [left; reflexivity|exact Ha|exact Hx].
Qed.

Lemma insert_allocated (h : Store.store) l v x :
  is_Some (h !! x) -> is_Some (<[l := v]> h !! x).
Proof.
  intros Hx. destruct (decide (l = x)) as [->|Hne].
  - rewrite lookup_insert_eq. eauto.
  - rewrite lookup_insert_ne by exact Hne. exact Hx.
Qed.

Lemma mergeWithFuel_allocated m : forall ns h outs h',
  Store.mergeWithFuel m ns h = Done (outs, h') ->
  forall x, is_Some (h !! x) -> is_Some (h' !! x).
Proof.
  induction m as [|m IH]; intros ns h outs h'; [discriminate|].
  simpl.
  destruct (foldM (Store.collect_step h) ns ([], [])) as [[scalars selMap]| |];
    simpl; try discriminate.
  match goal with
  | |- bind (Store.mapS ?f ?l ?h) _ = _ -> _ =>
      destruct (Store.mapS f l h) as [[rs h1]| |] eqn:Hm; simpl;
        try discriminate;
      pose proof (mapS_allocated f l) as Hall
  end.
  intros [= _ <-].
  eapply Hall; [|exact Hm]. clear Hall Hm.
  intros kv h2 r h3 _. cbv beta.
  destruct (head (field (snd kv))) as [first|]; [|discriminate].
  destruct (Store.selectionKey first) as [key|]; [|discriminate].
  destruct (map_get String.eqb key selMap) as [e|]; [|discriminate].
  destruct (head (field e)) as [template|]; [|discriminate].
  destruct (Store.selectionSet_of template) as [l|].
  - destruct (Store.mergeWithFuel m (selections (snd kv)) h2)
      as [[outs1 h4]| |] eqn:Hrec; simpl; try discriminate.
    intros [= _ <-] x Hx. apply insert_allocated.
    exact (IH _ _ _ _ Hrec x Hx).
  - intros [= _ <-] x Hx. exact Hx.
Qed.

(** ** [combineFields] over the store *)

Lemma decode_children_any k h n v :
  Store.decode (S k) h n = Some v ->
  traverse (Store.decode k h) (Store.children h n) = Some (children v).
Proof.
  intros Hdec. destruct (Store.isLeaf n) eqn:Hleaf.
  - pose proof (proj2 (proj2 (decode_shallow _ _ _ _ Hdec))) as Hv.
    rewrite Hleaf in Hv. symmetry in Hv.
    unfold Loop.isLeaf in Hleaf, Hv. unfold Store.children, children.
    destruct (Store.selectionSet_of n); [discriminate|].
    destruct (selectionSet_of v); [discriminate|]. reflexivity.
  - destruct (decode_children _ _ _ _ Hdec Hleaf) as (l & _ & _ & H). exact H.
Qed.

Lemma decode_field_head k h (fn : FieldNodeOf Store.loc) (fv : FieldNode) :
  Store.decode k h (Store.FIELD fn) = Some (FIELD fv) ->
  alias fn = alias fv /\ name fn = name fv /\
  arguments fn = arguments fv /\ directives fn = directives fv.
Proof.
  destruct k as [|k]; [discriminate|]. simpl.
  destruct fn as [a nm args ds [l|]]; simpl.
  - destruct (h !! l) as [sels|]; [|discriminate].
    destruct (traverse (Store.decode k h) sels); [|discriminate].
    intros [= <-]. auto.
  - intros [= <-]. auto.
Qed.

Section Gather.
Variable k : nat.
Variable h : Store.store.

Lemma gatherSelections_store (g_h : Store.FieldSet) (g_v : FieldSet) :
  Forall2 (Store.holdsField (S k) h) g_h g_v ->
  Store.gatherSelections h (map fieldNode g_h)
  = Done (flat_map (Store.children h) (map Store.nodeOf g_h)) /\
  traverse (Store.decode k h) (flat_map (Store.children h) (map Store.nodeOf g_h))
  = Some (gatherSelections (map fieldNode g_v)).
Proof.
  induction 1 as [|f fv g_h g_v (_ & _ & Hf) _ [IH1 IH2]]; simpl;
    [split; reflexivity|].
  pose proof (decode_children_any _ _ _ _ Hf) as Hch.
  split.
  - rewrite IH1.
    assert (match selectionSet (fieldNode f) with
            | Some l => Store.read h l
            | None => Done []
            end = Done (Store.children h (Store.nodeOf f))) as ->;
      [|reflexivity].
    unfold Store.children, Store.nodeOf. simpl.
    destruct (selectionSet (fieldNode f)) as [l|] eqn:Hl; [|reflexivity].
    destruct (decode_children k h (Store.nodeOf f) _ Hf) as (l' & Hl' & [sels Hs] & _).
    { unfold Loop.isLeaf, Store.nodeOf. simpl. rewrite Hl. reflexivity. }
    unfold Store.nodeOf in Hl'. simpl in Hl'. rewrite Hl in Hl'.
    injection Hl' as <-. unfold Store.read. rewrite Hs. reflexivity.
  - apply traverse_app; [|exact IH2]. exact Hch.
Qed.

Lemma gathered_footprints (nodes : list Store.Node) :
  Store.footprints k h (flat_map (Store.children h) nodes)
  ⊆+ Store.footprints (S k) h nodes.
Proof.
  unfold Store.footprints. rewrite flat_map_flat_map.
  apply flat_map_submseteq. intros n _. apply children_footprint.
Qed.
End Gather.

(** A group that the store [h0] holds is still held by a store that agrees
    with [h0] on its objects. *)
Lemma holdsFields_frame K h0 h (g_h : Store.FieldSet) (g_v : FieldSet) :
  Forall2 (Store.holdsField K h0) g_h g_v ->
  (forall l, l ∈ Store.footprints K h0 (map Store.nodeOf g_h) ->
             h !! l = h0 !! l) ->
  Forall2 (Store.holdsField K h) g_h g_v /\
  Store.footprints K h (map Store.nodeOf g_h)
  = Store.footprints K h0 (map Store.nodeOf g_h).
Proof.
  intros HF Hagree.
  assert (forall f, In f g_h ->
            Store.decode K h (Store.nodeOf f) = Store.decode K h0 (Store.nodeOf f) /\
            Store.footprint K h (Store.nodeOf f)
            = Store.footprint K h0 (Store.nodeOf f)) as Hf.
  { intros f Hin. apply decode_frame. intros l Hl. apply Hagree.
    apply elem_of_flat_map. exists (Store.nodeOf f).
    split; [apply in_map; exact Hin|exact Hl]. }
  split.
  - eapply Forall2_impl_In; [exact HF|]. intros f fv Hin (H1 & H2 & H3).
    repeat split; auto. rewrite (proj1 (Hf f Hin)). exact H3.
  - unfold Store.footprints. rewrite !flat_map_concat_map, !map_map.
    f_equal. apply map_ext_in. intros f Hin. apply Hf. exact Hin.
Qed.

Section CombineFields.
Variable fuel : nat.
Variable k : nat.
Hypothesis Hfuel : k < fuel.
Variable h0 : Store.store.

Local Abbreviation holdsNode :=
  (fun (h : Store.store) y yv => Store.decode (S k) h y = Some yv).
Local Abbreviation reachesNode :=
  (fun (h : Store.store) y => Store.footprint (S k) h y).

(** [combineFields] on a group whose objects are as in [h0]: the node it
    returns holds the node combined on values; its new [SelectionSetNode]
    is a new object of the store. *)
Lemma combineFields_runs (g_h : Store.FieldSet) (g_v : FieldSet) :
  Forall2 (Store.holdsField (S k) h0) g_h g_v ->
  NoDup (Store.footprints (S k) h0 (map Store.nodeOf g_h)) ->
  forall h,
    (forall l, is_Some (h0 !! l) -> is_Some (h !! l)) ->
    (forall l, l ∈ Store.footprints (S k) h0 (map Store.nodeOf g_h) ->
               h !! l = h0 !! l) ->
    Store.runsTo holdsNode reachesNode h
      (Store.footprints (S k) h0 (map Store.nodeOf g_h))
      (do c <- combineFields g_v; Done (FIELD (fieldNode c)))
      (do c <- Store.combineFields fuel g_h h;
       Done (Store.FIELD (fieldNode (fst c)), snd c)).
Proof using Hfuel.
  intros HF0 Hnd0 h Hdom Hagree.
  destruct (holdsFields_frame _ _ _ _ _ HF0 Hagree) as [HF Hfp].
  rewrite <- Hfp in Hnd0 |- *. clear Hfp Hagree HF0.
  set (F := Store.footprints (S k) h (map Store.nodeOf g_h)) in *.
  destruct (gatherSelections_store k h g_h g_v HF) as [Hg Hdecg].
  pose proof (gathered_footprints k h (map Store.nodeOf g_h)) as Hsubm.
  fold F in Hsubm.
  inversion HF as [|f fv g_h' g_v' (Hscope & Hdef & Hnode) HF' Heq1 Heq2].
  { reflexivity. }
  rewrite Heq1, Heq2.
  assert (combineFields g_v
          = let returnType := getNamedType (fieldDefType (fieldDef fv)) in
            if isCompositeType returnType then
              do merged <- mergeSelectionSets (map fieldNode g_v);
              Done (mkField (scope fv)
                      (withSelectionSet (fieldNode fv) merged) (fieldDef fv))
            else Done (mkField (scope fv) (fieldNode fv) (fieldDef fv))) as ->
    by (rewrite <- Heq2; reflexivity).
  assert (Store.combineFields fuel g_h h
          = let returnType := getNamedType (fieldDefType (fieldDef f)) in
            if isCompositeType returnType then
              do m <- Store.mergeSelectionSets fuel (map fieldNode g_h) h;
              Done (mkField (scope f)
                      (mkFieldNode (alias (fieldNode f)) (name (fieldNode f))
                         (arguments (fieldNode f)) (directives (fieldNode f))
                         (Some (fst m)))
                      (fieldDef f),
                    snd m)
            else Done (mkField (scope f) (fieldNode f) (fieldDef f), h)) as ->
    by (rewrite <- Heq1; reflexivity).
  cbv zeta. rewrite Hdef.
  destruct (isCompositeType (getNamedType (fieldDefType (fieldDef fv)))).
  - unfold Store.mergeSelectionSets, mergeSelectionSets. rewrite Hg.
    cbn [bind].
    set (gathered_h := flat_map (Store.children h) (map Store.nodeOf g_h)) in *.
    set (gathered_v := gatherSelections (map fieldNode g_v)) in *.
    assert (Store.separated k h gathered_h gathered_v) as Hsep.
    { split; [exact Hdecg|]. eapply submseteq_NoDup; [exact Hnd0|exact Hsubm]. }
    pose proof (mergeWithFuel_refines fuel k h _ _ Hsep) as Hsim.
    rewrite <- (mergeWithFuel_enough fuel gathered_v)
      by (pose proof (decodes_depth _ _ _ _ Hdecg); lia).
    unfold Store.simulates in Hsim. unfold Store.runsTo.
    destruct (mergeWithFuel fuel gathered_v) as [merged| |]; cbn [bind];
      [|rewrite Hsim; reflexivity|rewrite Hsim; reflexivity].
    destruct Hsim as (outs & h1 & Hrun & (Hdec1 & Hnd1) & Hincl & Hframe).
    rewrite Hrun. cbn [bind fst snd Store.alloc].
    set (l_new := fresh (dom h1)).
    assert (h1 !! l_new = None) as Hnew
      by (apply not_elem_of_dom; apply is_fresh).
    assert (forall l, l ∈ Store.footprints k h1 outs ->
                      <[l_new:=outs]> h1 !! l = h1 !! l) as Hfr2.
    { intros l Hl. apply lookup_insert_ne. intros <-.
      destruct (decodes_allocated _ _ _ _ _ Hdec1 Hl) as [x Hx]. congruence. }
    destruct (decodes_frame k h1 (<[l_new:=outs]> h1) outs Hfr2) as [Hdec2 Hfp2].
    assert (forall l, is_Some (h !! l) -> is_Some (h1 !! l)) as Hmono1.
    { intros l Hl. eapply mergeWithFuel_allocated; [exact Hrun|exact Hl]. }
    assert (forall l, l ∈ Store.footprints k h gathered_h -> l ∈ F) as HinF.
    { intros l Hl. eapply elem_of_submseteq; [exact Hl|exact Hsubm]. }
    eexists _, _. split; [reflexivity|]. split; [|split; [|split]].
    + cbn [fieldNode Store.decode selectionSet].
      rewrite lookup_insert_eq, Hdec2, Hdec1.
      destruct (decode_field_head _ _ _ _ Hnode) as (-> & -> & -> & ->).
      reflexivity.
    + intros l Hl. cbn [fieldNode] in Hl.
      rewrite (footprint_branch k _ _ l_new) in Hl by reflexivity.
      unfold Store.children in Hl. cbn [Store.selectionSet_of selectionSet] in Hl.
      rewrite lookup_insert_eq in Hl. fold (Store.footprints k (<[l_new:=outs]> h1) outs) in Hl.
      rewrite Hfp2 in Hl.
      apply elem_of_cons in Hl. destruct Hl as [->|Hl].
      * split; [rewrite lookup_insert_eq; eexists; reflexivity|].
        right. destruct (h !! l_new) as [x|] eqn:Hx; [|reflexivity].
        destruct (Hmono1 l_new) as [y Hy]; [eexists; exact Hx|]. congruence.
      * split.
        -- rewrite Hfr2 by exact Hl. eapply decodes_allocated; [exact Hdec1|exact Hl].
        -- left. apply HinF, Hincl, Hl.
    + intros l Hl HnF.
      rewrite lookup_insert_ne.
      * apply Hframe. intros Hc. apply HnF, HinF, Hc.
      * intros <-. destruct (Hmono1 l_new Hl) as [y Hy]. congruence.
    + intros l Hl. destruct (decide (l = l_new)) as [->|Hne].
      * rewrite lookup_insert_eq. eexists; reflexivity.
      * rewrite lookup_insert_ne by congruence. apply Hmono1, Hl.
  - cbn [bind fst snd fieldNode]. eexists _, _.
    split; [reflexivity|]. split; [exact Hnode|]. split; [|split].
    + intros l Hl. split.
      * eapply decode_allocated; [exact Hnode|exact Hl].
      * left. unfold F. rewrite <- Heq1. cbn [map flat_map Store.footprints].
        apply elem_of_app. left. exact Hl.
    + intros l _ _. reflexivity.
    + intros l Hl. exact Hl.
Qed.
End CombineFields.

(** ** The groups of the fields of a store *)

Section GroupsOfFields.
Context {A B K : Type}.
Variable R : A -> B -> Prop.
Variable sameKey : K -> K -> bool.
Variable keyA : A -> K.
Variable keyB : B -> K.
Hypothesis R_key : forall a b, R a b -> keyA a = keyB b.
Hypothesis sameKey_refl : forall a, sameKey a a = true.
Hypothesis sameKey_sym : forall a b, sameKey a b = sameKey b a.
Hypothesis sameKey_trans :
  forall a b c, sameKey a b = true -> sameKey b c = true -> sameKey a c = true.

(** Related lists are grouped alike: the same keys in the same order, with
    related groups. *)
Lemma Forall2_groupBy l1 l2 :
  Forall2 R l1 l2 ->
  Forall2 (fun g gv => fst g = fst gv /\ Forall2 R (snd g) (snd gv))
          (groupBy sameKey keyA l1) (groupBy sameKey keyB l2).
Proof using R_key sameKey_refl sameKey_sym sameKey_trans.
  intros H.
  rewrite !(groupBy_groups _ _ sameKey_refl sameKey_sym sameKey_trans).
  apply Forall2_fmap.
  eapply Forall2_impl;
    [exact (Forall2_firstOccurrences R sameKey keyA keyB R_key _ _ H)|].
  intros a b Hab. unfold groupOf. cbn [fst snd].
  split; [exact (R_key a b Hab)|].
  rewrite (R_key a b Hab).
  exact (Forall2_withKey R sameKey keyA keyB R_key _ _ _ H).
Qed.

(** The groups hold the elements of the list, each once. *)
Lemma groupBy_Permutation {C : Type} (G : A -> list C) l :
  flat_map (fun g => flat_map G (snd g)) (groupBy sameKey keyA l)
  ≡ₚ flat_map G l.
Proof using sameKey_refl sameKey_sym sameKey_trans.
  rewrite (groupBy_groups _ _ sameKey_refl sameKey_sym sameKey_trans).
  rewrite flat_map_concat_map, map_map, <- flat_map_concat_map.
  cbn [groupOf snd].
  rewrite <- (flat_map_flat_map G
                (fun e => withKey sameKey keyA (keyA e) l)
                (firstOccurrences sameKey keyA l)).
  apply Permutation_flat_map.
  exact (groups_Permutation sameKey keyA sameKey_refl sameKey_sym
           sameKey_trans l).
Qed.
End GroupsOfFields.

Lemma NoDup_flat_map_In {A B : Type} (F : A -> list B) xs x :
  NoDup (flat_map F xs) -> In x xs -> NoDup (F x).
Proof.
  induction xs as [|a xs IH]; simpl; [tauto|].
  intros Hnd. apply NoDup_app in Hnd. destruct Hnd as (Ha & _ & Hxs).
  intros [->|Hx]; [exact Ha|exact (IH Hxs Hx)].
Qed.

Lemma footprints_fields K h (fs : Store.FieldSet) :
  Store.footprints K h (map Store.nodeOf fs)
  = flat_map (fun f => Store.footprint K h (Store.nodeOf f)) fs.
Proof.
  unfold Store.footprints.
  rewrite flat_map_concat_map, map_map, <- flat_map_concat_map. reflexivity.
Qed.

(** The fields the store holds have the response names and the declaring
    types of their values. *)
Lemma holdsField_responseName K h (f : Store.Field) (fv : Field) :
  Store.holdsField K h f fv ->
  getResponseName (fieldNode f) = getResponseName (fieldNode fv).
Proof.
  intros (_ & _ & Hnode). unfold Store.nodeOf in Hnode.
  destruct (decode_field_head _ _ _ _ Hnode) as (Ha & Hn & _).
  unfold getResponseName. rewrite Ha, Hn. reflexivity.
Qed.

Lemma holdsField_parentType K h (f : Store.Field) (fv : Field) :
  Store.holdsField K h f fv ->
  parentType (scope f) = parentType (scope fv).
Proof. intros (Hs & _). rewrite Hs. reflexivity. Qed.

Lemma holdsFields_allocated K h (fs : Store.FieldSet) (fvs : FieldSet) l :
  Forall2 (Store.holdsField K h) fs fvs ->
  l ∈ Store.footprints K h (map Store.nodeOf fs) -> is_Some (h !! l).
Proof.
  intros HF Hl. rewrite footprints_fields in Hl.
  apply elem_of_flat_map in Hl. destruct Hl as (f & Hf & Hlf).
  destruct (Forall2_In_l _ _ _ f HF Hf) as (fv & _ & (_ & _ & Hdec)).
  exact (decode_allocated _ _ _ _ _ Hdec Hlf).
Qed.

Lemma decode_fragment K h tc d l sels ts :
  h !! l = Some sels -> traverse (Store.decode K h) sels = Some ts ->
  Store.decode (S K) h (Store.INLINE_FRAGMENT tc d l)
  = Some (INLINE_FRAGMENT tc d ts).
Proof. intros H1 H2. simpl. rewrite H1, H2. reflexivity. Qed.

Lemma traverse_concat {A B : Type} (f : A -> option B) ls ks :
  Forall2 (fun l k => traverse f l = Some k) ls ks ->
  traverse f (concat ls) = Some (concat ks).
Proof.
  induction 1 as [|l k ls ks Hl _ IH]; [reflexivity|].
  simpl. apply traverse_app; assumption.
Qed.

Lemma flat_map_concat {A B : Type} (f : A -> list B) ls :
  flat_map f (concat ls) = flat_map (flat_map f) ls.
Proof.
  induction ls as [|l ls IH]; simpl; [reflexivity|].
  rewrite flat_map_app, IH. reflexivity.
Qed.

(** A step that may assign to fewer objects. *)
Lemma runsTo_owned {Y Yv : Type} (holds : Store.store -> Y -> Yv -> Prop)
    (reaches : Store.store -> Y -> list Store.loc) h owned owned' r run :
  (forall l, l ∈ owned -> l ∈ owned') ->
  Store.runsTo holds reaches h owned r run ->
  Store.runsTo holds reaches h owned' r run.
Proof.
  intros Hsub. unfold Store.runsTo. destruct r as [yv| |]; [|tauto|tauto].
  intros (y & h' & Hrun & Hy & Hreach & Hframe & Hmono).
  exists y, h'. split; [exact Hrun|]. split; [exact Hy|].
  split; [|split; [|exact Hmono]].
  - intros l Hl. destruct (Hreach l Hl) as [Hs [Ho|Hn]]; auto.
  - intros l Hs Hn. apply Hframe; [exact Hs|]. intros Ho. exact (Hn (Hsub l Ho)).
Qed.

Section TopLevel.
Variable fuel : nat.
Variable k : nat.
Hypothesis Hfuel : k < fuel.
Variable h0 : Store.store.

Local Abbreviation fieldsFootprint fs :=
  (Store.footprints (S k) h0 (map Store.nodeOf fs)).

(** The loop over the response names of one declaring-type group. *)
Lemma combinedSelections_runs (fs : Store.FieldSet) (fvs : FieldSet) :
  Forall2 (Store.holdsField (S k) h0) fs fvs ->
  NoDup (fieldsFootprint fs) ->
  forall h,
    (forall l, is_Some (h0 !! l) -> is_Some (h !! l)) ->
    (forall l, l ∈ fieldsFootprint fs -> h !! l = h0 !! l) ->
    Store.runsTo
      (fun h ys yvs => Forall2 (fun y yv => Store.decode (S k) h y = Some yv) ys yvs)
      (fun h ys => flat_map (Store.footprint (S k) h) ys)
      h (fieldsFootprint fs)
      (combinedSelections fvs) (Store.combinedSelections fuel fs h).
Proof using Hfuel.
  intros HF Hnd h Hdom Hagree.
  pose proof (Forall2_groupBy (Store.holdsField (S k) h0) String.eqb
                (fun f => getResponseName (fieldNode f))
                (fun f => getResponseName (fieldNode f))
                (holdsField_responseName (S k) h0)
                String.eqb_refl String.eqb_sym eqb_trans fs fvs HF) as Hgroups.
  pose proof (groupBy_Permutation String.eqb
                (fun f : Store.Field => getResponseName (fieldNode f))
                String.eqb_refl String.eqb_sym eqb_trans
                (fun f => Store.footprint (S k) h0 (Store.nodeOf f)) fs) as Hperm.
  rewrite <- footprints_fields in Hperm.
  set (F := fun kv : string * Store.FieldSet =>
              flat_map (fun f => Store.footprint (S k) h0 (Store.nodeOf f))
                       (snd kv)) in *.
  fold (@groupByResponseName Store.loc fs) in Hperm, Hgroups.
  fold (@groupByResponseName (list SelectionNode) fvs) in Hgroups.
  assert (NoDup (flat_map F (groupByResponseName fs))) as HndF
    by exact (proj2 (NoDup_Permutation_proper _ _ Hperm) Hnd).
  apply (runsTo_owned _ _ h (flat_map F (groupByResponseName fs)));
    [intros l Hl; exact (proj1 (elem_of_Permutation_proper l _ _ Hperm) Hl)|].
  unfold combinedSelections, Store.combinedSelections.
  assert (forall l, l ∈ flat_map F (groupByResponseName fs) ->
                    l ∈ fieldsFootprint fs) as Hin
    by (intros l Hl; exact (proj1 (elem_of_Permutation_proper l _ _ Hperm) Hl)).
  refine (sequential _ _ F
            (fun h y yv => Store.decode (S k) h y = Some yv)
            (fun h y => Store.footprint (S k) h y) _ h0 _ _ _ _ _ h _ _).
  - intros h1 h2 y yv Hy Hkeep.
    destruct (decode_frame (S k) h1 h2 y Hkeep) as [Hd Hf].
    split; [rewrite Hd; exact Hy|exact Hf].
  - eapply Forall2_impl_In; [exact Hgroups|]. cbv beta.
    intros g gv Hg [_ HFg] h1 Hdom1 Hagree1.
    unfold F in Hagree1 |- *. rewrite <- footprints_fields in Hagree1 |- *.
    apply (combineFields_runs fuel k Hfuel h0 (snd g) (snd gv) HFg);
      [|exact Hdom1|exact Hagree1].
    rewrite footprints_fields. exact (NoDup_flat_map_In F _ g HndF Hg).
  - exact HndF.
  - intros l Hl. exact (holdsFields_allocated _ _ _ _ _ HF (Hin l Hl)).
  - exact Hdom.
  - intros l Hl. exact (Hagree l (Hin l Hl)).
Qed.

(** [wrapInInlineFragmentIfNeeded] after the loop: the fragment, when there
    is one, takes a new [SelectionSetNode]. *)
Lemma wrap_runs typeCondition pt h owned r run :
  Store.runsTo
    (fun h ys yvs => Forall2 (fun y yv => Store.decode (S k) h y = Some yv) ys yvs)
    (fun h ys => flat_map (Store.footprint (S k) h) ys)
    h owned r run ->
  Store.runsTo
    (fun h ys yvs => traverse (Store.decode (S (S k)) h) ys = Some yvs)
    (fun h ys => Store.footprints (S (S k)) h ys)
    h owned
    (do sels <- r; Done (wrapInInlineFragmentIfNeeded sels typeCondition pt))
    (do c <- run;
     Done (Store.wrapInInlineFragmentIfNeeded (fst c) typeCondition pt (snd c))).
Proof.
  unfold Store.runsTo. destruct r as [yvs| |]; cbn [bind];
    [|intros ->; reflexivity|intros ->; reflexivity].
  intros (ys & h1 & -> & Hys & Hreach & Hframe & Hmono). cbn [bind fst snd].
  apply traverse_Some in Hys.
  destruct (decodes_mono _ _ _ _ Hys) as [Hys2 Hfp2].
  unfold Store.wrapInInlineFragmentIfNeeded, wrapInInlineFragmentIfNeeded.
  cbv zeta.
  destruct (match pt with
            | Some p => sameObject typeCondition p
            | None => false
            end).
  - exists ys, h1. split; [reflexivity|]. split; [exact Hys2|].
    split; [|split; assumption].
    intros l Hl. rewrite Hfp2 in Hl. exact (Hreach l Hl).
  - unfold Store.alloc. cbv zeta.
    set (l_new := fresh (dom h1)).
    assert (h1 !! l_new = None) as Hnew
      by (apply not_elem_of_dom; apply is_fresh).
    assert (forall l, l ∈ Store.footprints (S k) h1 ys ->
                      <[l_new:=ys]> h1 !! l = h1 !! l) as Hfr.
    { intros l Hl. apply lookup_insert_ne. intros <-.
      destruct (decodes_allocated _ _ _ _ _ Hys Hl) as [x Hx]. congruence. }
    destruct (decodes_frame (S k) h1 (<[l_new:=ys]> h1) ys Hfr) as [Hd Hf].
    eexists _, _. split; [reflexivity|]. split; [|split; [|split]].
    + apply traverse_Some. constructor; [|constructor].
      apply (decode_fragment _ _ _ _ _ ys); [apply lookup_insert_eq|].
      rewrite Hd. exact Hys.
    + intros l Hl. unfold Store.footprints in Hl. cbn [flat_map] in Hl.
      rewrite app_nil_r in Hl.
      rewrite (footprint_branch (S k) _ _ l_new) in Hl by reflexivity.
      unfold Store.children in Hl. cbn [Store.selectionSet_of] in Hl.
      rewrite lookup_insert_eq in Hl.
      fold (Store.footprints (S k) (<[l_new:=ys]> h1) ys) in Hl.
      rewrite Hf in Hl.
      apply elem_of_cons in Hl. destruct Hl as [->|Hl].
      * split; [rewrite lookup_insert_eq; eexists; reflexivity|].
        right. destruct (h !! l_new) as [x|] eqn:Hx; [|reflexivity].
        destruct (Hmono l_new) as [y Hy]; [eexists; exact Hx|]. congruence.
      * destruct (Hreach l Hl) as [Hs Hcase]. split; [|exact Hcase].
        rewrite Hfr by exact Hl. exact Hs.
    + intros l Hs Hn. rewrite lookup_insert_ne; [exact (Hframe l Hs Hn)|].
      intros <-. destruct (Hmono l_new Hs) as [y Hy]. congruence.
    + intros l Hs. apply insert_allocated. exact (Hmono l Hs).
Qed.

(** [selectionSetFromFieldSet] on fields whose selection sets are objects
    of the store, none of them shared: it returns, or throws, as the function
    on trees does; the selections it returns hold the trees that function
    returns; it assigns to [SelectionSetNode] objects of the given fields
    only, and the objects of its result are among these and the new ones. *)
Theorem selectionSetFromFieldSet_refines (fs : Store.FieldSet)
    (fvs : FieldSet) pt :
  Forall2 (Store.holdsField (S k) h0) fs fvs ->
  NoDup (fieldsFootprint fs) ->
  Store.runsTo
    (fun h ys yvs => traverse (Store.decode (S (S k)) h) ys = Some yvs)
    (fun h ys => Store.footprints (S (S k)) h ys)
    h0 (fieldsFootprint fs)
    (selectionSetFromFieldSet fvs pt)
    (Store.selectionSetFromFieldSet fuel fs pt h0).
Proof using Hfuel.
  intros HF Hnd.
  pose proof (Forall2_groupBy (Store.holdsField (S k) h0) sameObject
                (fun f => parentType (scope f))
                (fun f => parentType (scope f))
                (holdsField_parentType (S k) h0)
                sameObject_refl sameObject_sym sameObject_trans fs fvs HF)
    as Hgroups.
  pose proof (groupBy_Permutation sameObject
                (fun f : Store.Field => parentType (scope f))
                sameObject_refl sameObject_sym sameObject_trans
                (fun f => Store.footprint (S k) h0 (Store.nodeOf f)) fs) as Hperm.
  rewrite <- footprints_fields in Hperm.
  set (F := fun kv : GraphQLCompositeType * Store.FieldSet =>
              flat_map (fun f => Store.footprint (S k) h0 (Store.nodeOf f))
                       (snd kv)) in *.
  fold (@groupByParentType Store.loc fs) in Hperm, Hgroups.
  fold (@groupByParentType (list SelectionNode) fvs) in Hgroups.
  assert (NoDup (flat_map F (groupByParentType fs))) as HndF
    by exact (proj2 (NoDup_Permutation_proper _ _ Hperm) Hnd).
  assert (forall l, l ∈ flat_map F (groupByParentType fs) ->
                    l ∈ fieldsFootprint fs) as Hin
    by (intros l Hl; exact (proj1 (elem_of_Permutation_proper l _ _ Hperm) Hl)).
  apply (runsTo_owned _ _ h0 (flat_map F (groupByParentType fs)) _ _ _ Hin).
  unfold selectionSetFromFieldSet, Store.selectionSetFromFieldSet.
  match goal with
  | |- Store.runsTo _ _ _ _ (bind (mapM ?pstep _) _) (bind (Store.mapS ?step _ _) _) =>
      pose proof (sequential step pstep F
                    (fun h ys yvs =>
                       traverse (Store.decode (S (S k)) h) ys = Some yvs)
                    (fun h ys => Store.footprints (S (S k)) h ys)) as Hseq
  end.
  cbv beta in Hseq.
  match type of Hseq with ?A -> _ => assert A as Hfr; [|specialize (Hseq Hfr)] end.
  { intros h1 h2 ys yvs Hys Hkeep.
    destruct (decodes_frame (S (S k)) h1 h2 ys Hkeep) as [Hd Hf].
    split; [rewrite Hd; exact Hys|exact Hf]. }
  specialize (Hseq h0 (groupByParentType fs) (groupByParentType fvs)).
  match type of Hseq with ?A -> _ => assert A as HA; [|specialize (Hseq HA)] end.
  { eapply Forall2_impl_In; [exact Hgroups|]. cbv beta.
    intros [tc g] [tcv gv] Hg [Htc HFg] h1 Hdom1 Hagree1.
    cbn [fst snd] in Htc, HFg. subst tcv.
    unfold F in Hagree1 |- *. cbn [snd] in Hagree1 |- *.
    rewrite <- footprints_fields in Hagree1 |- *.
    apply wrap_runs.
    apply (combinedSelections_runs g gv HFg); [|exact Hdom1|exact Hagree1].
    rewrite footprints_fields.
    exact (NoDup_flat_map_In F _ (tc, g) HndF Hg). }
  specialize (Hseq HndF
                (fun l Hl => holdsFields_allocated _ _ _ _ _ HF (Hin l Hl))
                h0 (fun l Hl => Hl) (fun l _ => eq_refl)).
  unfold Store.runsTo in Hseq |- *.
  match type of Hseq with
  | match ?m with _ => _ end => destruct m as [yvss| |]
  end; cbn [bind]; [|rewrite Hseq; reflexivity|rewrite Hseq; reflexivity].
  destruct Hseq as (yss & h' & Hrun & Hyss & Hreach & Hframe & Hmono).
  rewrite Hrun. cbn [bind fst snd].
  exists (concat yss), h'. split; [reflexivity|].
  split; [exact (traverse_concat _ _ _ Hyss)|].
  split; [|split; assumption].
  intros l Hl. apply Hreach. unfold Store.footprints in Hl |- *.
  rewrite flat_map_concat in Hl. exact Hl.
Qed.
End TopLevel.

(** On the store of the fields [a { b { x } }] and [a { b { y } }], where
    no object is shared, the call returns what the function on trees
    returns. *)
Example selectionSetFromFieldSet_refines_ab :
  let fvs :=
    [ field_ Store.typeT "a" Store.objectField
        (Some [branch_ "b" [leaf_ None "x"]]);
      field_ Store.typeT "a" Store.objectField
        (Some [branch_ "b" [leaf_ None "y"]]) ] in
  let fs := [Store.field_abx; Store.field_aby] in
  Store.runsTo
    (fun h ys yvs => traverse (Store.decode 4 h) ys = Some yvs)
    (fun h ys => Store.footprints 4 h ys)
    Store.store_ab
    (Store.footprints 3 Store.store_ab (map Store.nodeOf fs))
    (selectionSetFromFieldSet fvs (Some Store.typeT))
    (Store.selectionSetFromFieldSet 3 fs (Some Store.typeT) Store.store_ab).
Proof.
  cbv zeta.
  apply (selectionSetFromFieldSet_refines 3 2 ltac:(lia) Store.store_ab).
  - repeat constructor.
  - vm_compute.
    repeat (apply NoDup_cons; split;
            [intros Hc;
             repeat (apply elem_of_cons in Hc;
                     destruct Hc as [Hc|Hc]; [discriminate|]);
             inversion Hc|]).
    apply NoDup_nil_2.
Qed.

(** ** What [groupBy] returns *)

Lemma distinctKeys_nth {A K : Type} (sameKey : K -> K -> bool) (key : A -> K)
    (l : list A) :
  (forall a b, sameKey a b = sameKey b a) ->
  distinctKeys sameKey key l ->
  forall i j a b, i <> j -> nth_error l i = Some a -> nth_error l j = Some b ->
                  sameKey (key a) (key b) = false.
Proof.
  intros Hsym. induction 1 as [|x l Hx _ IH]; intros i j a b Hij Ha Hb.
  - destruct i; discriminate.
  - assert (forall y, In y l -> sameKey (key y) (key x) = false) as Hfresh.
    { intros y Hy. apply not_true_is_false. intros Ht.
      assert (hasKey sameKey key (key x) l = true) as Hc; [|congruence].
      apply existsb_exists. exists y. split; [exact Hy|exact Ht]. }
    destruct i as [|i], j as [|j]; simpl in Ha, Hb.
    + congruence.
    + injection Ha as <-. rewrite Hsym. apply Hfresh.
      eapply nth_error_In. exact Hb.
    + injection Hb as <-. apply Hfresh. eapply nth_error_In. exact Ha.
    + apply (IH i j); [congruence|exact Ha|exact Hb].
Qed.

Lemma firstOccurrences_prefix {A K : Type} (sameKey : K -> K -> bool)
    (key : A -> K) (l l' : list A) :
  (forall a b, sameKey a b = sameKey b a) ->
  (forall a b c, sameKey a b = true -> sameKey b c = true -> sameKey a c = true) ->
  exists more,
    firstOccurrences sameKey key (l ++ l') = firstOccurrences sameKey key l ++ more.
Proof.
  intros Hsym Htrans. induction l' as [|x l' IH] using rev_ind.
  - exists []. rewrite !app_nil_r. reflexivity.
  - destruct IH as [more IH]. rewrite app_assoc.
    rewrite (firstOccurrences_snoc sameKey key Hsym Htrans), IH.
    destruct (hasKey sameKey key (key x) (l ++ l')).
    + exists more. reflexivity.
    + exists (more ++ [x]). rewrite app_assoc. reflexivity.
Qed.

(** X1: a group of [groupBy] is never empty; it holds the elements of the
    input that have the key of the group, all of them and in the order of
    the input, and its key is the key of an element of the input. *)
Theorem groupBy_group_members {T U : Type} (sameKey : U -> U -> bool)
    (keyFunction : T -> U) (l : list T) (k : U) (g : list T) :
  keyEquality sameKey ->
  In (k, g) (groupBy sameKey keyFunction l) ->
  g <> [] /\
  g = List.filter (fun x => sameKey k (keyFunction x)) l /\
  exists e, In e l /\ k = keyFunction e.
Proof.
  intros (Hrefl & Hsym & Htrans) Hin.
  split; [exact (groupBy_nonempty sameKey keyFunction Hrefl Hsym Htrans l k g Hin)|].
  rewrite (groupBy_groups sameKey keyFunction Hrefl Hsym Htrans) in Hin.
  apply in_map_iff in Hin. destruct Hin as (e & [= <- <-] & He).
  split; [reflexivity|].
  exists e. split; [|reflexivity].
  eapply firstOccurrences_incl. exact He.
Qed.

Lemma groupBy_group_members_witness :
  let l := ["a"; "b"; "a"] in
  ["a"; "a"] <> [] /\
  ["a"; "a"] = List.filter (fun x => String.eqb "a" x) l /\
  exists e, In e l /\ "a" = e.
Proof.
  intros l.
  apply (groupBy_group_members String.eqb (fun x => x) l "a" ["a"; "a"]).
  - split; [exact String.eqb_refl|]. split; [exact String.eqb_sym|exact eqb_trans].
  - vm_compute. left. reflexivity.
Defined.

(** X2: the keys of the groups of [groupBy] are pairwise different, every
    element of the input has the key of a group, and the keys are in the
    order of their first appearance: a longer input only adds keys after
    those of the shorter one. *)
Theorem groupBy_keys_first_appearance {T U : Type} (sameKey : U -> U -> bool)
    (keyFunction : T -> U) (l : list T) :
  keyEquality sameKey ->
  let keys := map fst (groupBy sameKey keyFunction l) in
  (forall i j ki kj,
      i <> j -> nth_error keys i = Some ki -> nth_error keys j = Some kj ->
      sameKey ki kj = false) /\
  (forall x, In x l -> existsb (fun k => sameKey k (keyFunction x)) keys = true) /\
  (forall l', exists more,
      map fst (groupBy sameKey keyFunction (l ++ l')) = keys ++ more).
Proof.
  intros (Hrefl & Hsym & Htrans) keys.
  assert (forall l0, map fst (groupBy sameKey keyFunction l0)
                     = map keyFunction (firstOccurrences sameKey keyFunction l0))
    as Hkeys.
  { intros l0. rewrite (groupBy_groups sameKey keyFunction Hrefl Hsym Htrans).
    rewrite map_map. reflexivity. }
  unfold keys. rewrite Hkeys. split; [|split].
  - intros i j ki kj Hij Hi Hj.
    rewrite nth_error_map in Hi, Hj.
    destruct (nth_error (firstOccurrences sameKey keyFunction l) i) as [a|] eqn:Ha;
      [|discriminate].
    destruct (nth_error (firstOccurrences sameKey keyFunction l) j) as [b|] eqn:Hb;
      [|discriminate].
    injection Hi as <-. injection Hj as <-.
    exact (distinctKeys_nth sameKey keyFunction _ Hsym
             (firstOccurrences_distinct sameKey keyFunction Hsym l)
             i j a b Hij Ha Hb).
  - intros x Hx.
    pose proof (hasKey_In sameKey keyFunction Hrefl x l Hx) as Hk.
    rewrite <- (hasKey_firstOccurrences sameKey keyFunction Hsym Htrans) in Hk.
    unfold hasKey in Hk. rewrite existsb_exists in Hk.
    destruct Hk as (y & Hy & Hyx).
    apply existsb_exists. exists (keyFunction y).
    split; [apply in_map; exact Hy|exact Hyx].
  - intros l'. rewrite Hkeys.
    destruct (firstOccurrences_prefix sameKey keyFunction l l' Hsym Htrans)
      as [more ->].
    exists (map keyFunction more). apply map_app.
Qed.

Lemma groupBy_keys_first_appearance_witness :
  let l := ["a"; "b"; "a"] in
  let keys := map fst (groupBy String.eqb (fun x : string => x) l) in
  (forall i j ki kj,
      i <> j -> nth_error keys i = Some ki -> nth_error keys j = Some kj ->
      String.eqb ki kj = false) /\
  (forall x, In x l -> existsb (fun k => String.eqb k x) keys = true) /\
  (forall l', exists more,
      map fst (groupBy String.eqb (fun x : string => x) (l ++ l')) = keys ++ more).
Proof.
  intros l.
  apply (groupBy_keys_first_appearance String.eqb (fun x : string => x) l).
  split; [exact String.eqb_refl|]. split; [exact String.eqb_sym|exact eqb_trans].
Defined.

(** X3: the groups of [groupBy] hold the elements of the input, each of
    them once. *)
Theorem groupBy_partition {T U : Type} (sameKey : U -> U -> bool)
    (keyFunction : T -> U) (l : list T) :
  keyEquality sameKey ->
  concat (map snd (groupBy sameKey keyFunction l)) ≡ₚ l.
Proof.
  intros (Hrefl & Hsym & Htrans).
  pose proof (groupBy_Permutation sameKey keyFunction Hrefl Hsym Htrans
                (fun x => [x]) l) as H.
  assert (forall xs : list T, flat_map (fun x => [x]) xs = xs) as Hid
    by (induction xs as [|x xs IH]; simpl; congruence).
  rewrite Hid in H.
  rewrite <- flat_map_concat_map.
  rewrite (flat_map_ext snd (fun g => flat_map (fun x => [x]) (snd g)));
    [exact H|].
  intros g. symmetry. apply Hid.
Qed.

Lemma groupBy_partition_witness :
  let l := ["a"; "b"; "a"] in
  concat (map snd (groupBy String.eqb (fun x : string => x) l)) ≡ₚ l.
Proof.
  intros l. apply (groupBy_partition String.eqb (fun x : string => x) l).
  split; [exact String.eqb_refl|]. split; [exact String.eqb_sym|exact eqb_trans].
Defined.

(** ** When the merge throws *)

Lemma wellKeyed_leaf e : isLeaf e = true -> wellKeyed e = true.
Proof.
  unfold isLeaf.
  destruct e as [[a n args ds [s|]]|n d|tc d s]; simpl; try discriminate;
    reflexivity.
Qed.

Lemma keyed_wellKeyed e :
  isLeaf e = false -> keyed e = true ->
  forallb wellKeyed (children e) = true -> wellKeyed e = true.
Proof.
  unfold isLeaf, keyed, children, selectionKey.
  destruct e as [[a n args ds [s|]]|n d|[tc|] d s]; simpl; try discriminate.
  - destruct (String.eqb n ""); simpl; [discriminate|auto].
  - auto.
Qed.

Lemma forallb_flat_map_In {A B : Type} (p : B -> bool) (f : A -> list B)
    (l : list A) a :
  forallb p (flat_map f l) = true -> In a l -> forallb p (f a) = true.
Proof.
  induction l as [|x l IH]; simpl; [tauto|].
  rewrite forallb_app. intros H. apply andb_true_iff in H.
  intros [->|Ha]; [tauto|apply IH; tauto].
Qed.

(** The merge returns on well-keyed selections only. *)
Lemma mergeWithFuel_Done_wellKeyed n : forall l out,
  mergeWithFuel n l = Done out -> forallb wellKeyed l = true.
Proof.
  induction n as [|n IH]; intros l out; [discriminate|].
  rewrite mergeWithFuel_unfold.
  destruct (forallb keyed (branches l)) eqn:Hkeyed; [|discriminate].
  match goal with |- bind ?m _ = _ -> _ => destruct m as [result| |] eqn:Hm end;
    simpl; try discriminate.
  intros _. apply mapM_Done in Hm.
  apply forallb_forall. intros x Hx.
  destruct (isLeaf x) eqn:Hleaf; [apply wellKeyed_leaf; exact Hleaf|].
  assert (In x (branches l)) as Hb.
  { apply List.filter_In. split; [exact Hx|]. rewrite Hleaf. reflexivity. }
  rewrite forallb_forall in Hkeyed.
  apply keyed_wellKeyed; [exact Hleaf|apply Hkeyed; exact Hb|].
  destruct (firstOccurrences_rep String.eqb keyOf String.eqb_refl String.eqb_sym
              eqb_trans x (branches l) Hb) as (e & He & Hex).
  destruct (Forall2_In_l _ _ _ e Hm He) as (g & _ & Hg).
  destruct (mergeWithFuel n (flat_map children (group e l))) as [merged| |] eqn:Hmerged;
    simpl in Hg; try discriminate.
  apply IH in Hmerged.
  apply (forallb_flat_map_In _ _ _ x Hmerged).
  apply List.filter_In. split; [exact Hb|exact Hex].
Qed.

Lemma mergeSelectionsSetsInternal_cases (l : list SelectionNode) :
  match mergeSelectionsSetsInternal l with
  | Done _ => forallb wellKeyed l = true
  | TypeError => forallb wellKeyed l = false
  | Stuck => False
  end.
Proof.
  destruct (mergeSelectionsSetsInternal l) as [out| |] eqn:Hm.
  - exact (mergeWithFuel_Done_wellKeyed _ _ _ Hm).
  - destruct (forallb wellKeyed l) eqn:Hwk; [|reflexivity].
    destruct (mergeSelectionsSetsInternal_total l Hwk) as [out Hout]. congruence.
  - exact (mergeSelectionsSetsInternal_not_Stuck l Hm).
Qed.

Lemma mergeSelectionsSetsInternal_TypeError (l : list SelectionNode) :
  forallb wellKeyed l = false -> mergeSelectionsSetsInternal l = TypeError.
Proof.
  intros Hwk. pose proof (mergeSelectionsSetsInternal_cases l) as H.
  destruct (mergeSelectionsSetsInternal l); [congruence|reflexivity|destruct H].
Qed.

(** The run over a store of unshared objects ends as the merge on the
    trees it holds, whatever bound is given above their depth. *)
Lemma store_merge_outcome (m k : nat) (h : Store.store)
    (ns : list Store.Node) (vs : list SelectionNode) :
  Store.separated k h ns vs -> k < m ->
  Store.simulates k h (Store.footprints k h ns)
    (mergeSelectionsSetsInternal vs) (Store.mergeWithFuel m ns h).
Proof.
  intros Hsep Hm.
  rewrite <- (mergeWithFuel_enough m vs).
  - apply mergeWithFuel_refines. exact Hsep.
  - destruct Hsep as [Hdec _]. apply decodes_depth in Hdec. lia.
Qed.

(** X4: on a store that holds the selections at unshared
    [SelectionSetNode] objects, [mergeSelectionsSetsInternal] returns
    exactly when the selections are well keyed at every depth, and throws a
    [TypeError] on the others: those that hold, at some depth, an inline
    fragment without a type condition or a field with a nested selection
    and an empty name. *)
Theorem merge_throws_iff_unkeyed (m k : nat) (h : Store.store)
    (ns : list Store.Node) (vs : list SelectionNode) :
  Store.separated k h ns vs -> k < m ->
  match Store.mergeWithFuel m ns h with
  | Done _ => forallb wellKeyed vs = true
  | TypeError => forallb wellKeyed vs = false
  | Stuck => False
  end.
Proof.
  intros Hsep Hm.
  pose proof (store_merge_outcome m k h ns vs Hsep Hm) as Hrun.
  pose proof (mergeSelectionsSetsInternal_cases vs) as Hvs.
  unfold Store.simulates in Hrun.
  destruct (mergeSelectionsSetsInternal vs) as [trees| |].
  - destruct Hrun as (nodes & h' & -> & _). exact Hvs.
  - rewrite Hrun. exact Hvs.
  - destruct Hvs.
Qed.

(** The selections [b { x }] and [b { y }] of [store_ab] are held at
    unshared objects. *)
Lemma store_ab_separated :
  Store.separated 2 Store.store_ab
    [Store.FIELD (Store.branch_ "b" 1); Store.FIELD (Store.branch_ "b" 3)]
    [branch_ "b" [leaf_ None "x"]; branch_ "b" [leaf_ None "y"]].
Proof.
  split; [reflexivity|]. vm_compute.
  repeat (apply NoDup_cons; split;
          [intros Hc;
           repeat (apply elem_of_cons in Hc;
                   destruct Hc as [Hc|Hc]; [discriminate|]);
           inversion Hc|]).
  apply NoDup_nil_2.
Defined.

Lemma merge_throws_iff_unkeyed_witness :
  let ns := [Store.FIELD (Store.branch_ "b" 1); Store.FIELD (Store.branch_ "b" 3)] in
  let vs := [branch_ "b" [leaf_ None "x"]; branch_ "b" [leaf_ None "y"]] in
  Store.separated 2 Store.store_ab ns vs /\ 2 < 3 /\
  match Store.mergeWithFuel 3 ns Store.store_ab with
  | Done _ => forallb wellKeyed vs = true
  | TypeError => forallb wellKeyed vs = false
  | Stuck => False
  end.
Proof.
  intros ns vs. split; [exact store_ab_separated|]. split; [lia|].
  apply (merge_throws_iff_unkeyed 3 2 Store.store_ab ns vs store_ab_separated).
  lia.
Defined.

(** ** The merged selections as a function *)

Lemma mapM_Done_map {A B : Type} (f : A -> outcome B) (g : A -> B) l :
  (forall a, In a l -> f a = Done (g a)) -> mapM f l = Done (map g l).
Proof.
  induction l as [|a l IH]; intros H; simpl; [reflexivity|].
  rewrite H by (left; reflexivity). simpl.
  rewrite IH by (intros x Hx; apply H; right; exact Hx). reflexivity.
Qed.

Lemma wellKeyed_group e l :
  forallb wellKeyed l = true -> In e (branches l) ->
  forallb wellKeyed (flat_map children (group e l)) = true.
Proof.
  intros Hwk He. apply forallb_flat_map. intros x Hx.
  apply List.filter_In in Hx. destruct Hx as [Hx _].
  apply List.filter_In in Hx. destruct Hx as [Hx Hleaf].
  apply negb_true_iff in Hleaf. rewrite forallb_forall in Hwk.
  apply wellKeyed_branch; auto.
Qed.

Lemma wellKeyed_keyed l :
  forallb wellKeyed l = true -> forallb keyed (branches l) = true.
Proof.
  intros Hwk. apply forallb_forall. intros x Hx.
  apply List.filter_In in Hx. destruct Hx as [Hx Hleaf].
  apply negb_true_iff in Hleaf. rewrite forallb_forall in Hwk.
  apply wellKeyed_branch; auto.
Qed.

(** On well-keyed selections the merge returns the merged selections. *)
Lemma mergeWithFuel_merged n : forall l,
  depthList l < n -> forallb wellKeyed l = true ->
  mergeWithFuel n l = Done (mergedWithFuel n l).
Proof.
  induction n as [|n IH]; intros l Hn Hwk; [lia|].
  rewrite mergeWithFuel_unfold, (wellKeyed_keyed l Hwk).
  cbn [mergedWithFuel].
  rewrite (mapM_Done_map _
             (fun e => withSelections e
                         (mergedWithFuel n (flat_map children (group e l))))).
  - reflexivity.
  - intros e He.
    assert (In e (branches l)) as Hb by (eapply firstOccurrences_incl; exact He).
    pose proof (depthList_group _ _ Hb).
    rewrite IH; [reflexivity|lia|apply wellKeyed_group; assumption].
Qed.

(** ** First occurrences of a list in two parts *)

Section FirstsOfParts.
Context {A K : Type}.
Variable sameKey : K -> K -> bool.
Variable key : A -> K.
Hypothesis sameKey_refl : forall a, sameKey a a = true.
Hypothesis sameKey_sym : forall a b, sameKey a b = sameKey b a.
Hypothesis sameKey_trans :
  forall a b c, sameKey a b = true -> sameKey b c = true -> sameKey a c = true.

Local Abbreviation firsts := (firstOccurrences sameKey key).
Local Abbreviation members := (withKey sameKey key).
Local Abbreviation has := (hasKey sameKey key).

Lemma filter_filter (p q : A -> bool) l :
  List.filter p (List.filter q l) = List.filter (fun x => q x && p x) l.
Proof.
  induction l as [|x l IH]; simpl; [reflexivity|].
  destruct (q x); simpl; [destruct (p x); simpl; congruence|exact IH].
Qed.

Lemma firstOccurrences_app l1 l2 :
  firsts (l1 ++ l2)
  = firsts l1 ++ List.filter (fun y => negb (has (key y) l1)) (firsts l2).
Proof using sameKey_sym.
  induction l1 as [|x l1 IH]; simpl.
  - symmetry. apply filter_all. apply List.Forall_forall. reflexivity.
  - f_equal. rewrite IH, List.filter_app. f_equal.
    rewrite filter_filter. apply List.filter_ext. intros y.
    rewrite negb_orb. apply andb_comm.
Qed.

Lemma firstOccurrences_of_distinct l : distinctKeys sameKey key l -> firsts l = l.
Proof using sameKey_sym.
  induction 1 as [|x l Hx _ IH]; simpl; [reflexivity|].
  rewrite IH. f_equal. apply filter_all. apply List.Forall_forall.
  intros y Hy. apply negb_true_iff. apply not_true_is_false. intros Hs.
  assert (has (key x) l = true) as Hc; [|congruence].
  apply existsb_exists. exists y. split; [exact Hy|].
  rewrite sameKey_sym. exact Hs.
Qed.

Lemma firstOccurrences_firsts l1 l2 :
  firsts (firsts l1 ++ firsts l2) = firsts (l1 ++ l2).
Proof using sameKey_sym sameKey_trans.
  rewrite !firstOccurrences_app.
  rewrite (firstOccurrences_of_distinct (firsts l1)),
          (firstOccurrences_of_distinct (firsts l2))
    by (apply firstOccurrences_distinct; assumption).
  f_equal. apply List.filter_ext. intros y.
  rewrite (hasKey_firstOccurrences sameKey key sameKey_sym sameKey_trans).
  reflexivity.
Qed.

(** A function that keeps the keys of the elements of a list. *)
Variable g : A -> A.

Lemma hasKey_map k l :
  (forall e, In e l -> key (g e) = key e) -> has k (map g l) = has k l.
Proof.
  induction l as [|x l IH]; intros H; simpl; [reflexivity|].
  rewrite H by (left; reflexivity).
  rewrite IH by (intros e He; apply H; right; exact He). reflexivity.
Qed.

Lemma withKey_map k l :
  (forall e, In e l -> key (g e) = key e) ->
  members k (map g l) = map g (members k l).
Proof.
  induction l as [|x l IH]; intros H; simpl; [reflexivity|].
  rewrite H by (left; reflexivity).
  rewrite IH by (intros e He; apply H; right; exact He).
  destruct (sameKey k (key x)); reflexivity.
Qed.

Lemma distinctKeys_map l :
  (forall e, In e l -> key (g e) = key e) ->
  distinctKeys sameKey key l -> distinctKeys sameKey key (map g l).
Proof.
  intros H Hd. induction Hd as [|x l Hx _ IH]; simpl; constructor.
  - rewrite H by (left; reflexivity).
    rewrite hasKey_map by (intros e He; apply H; right; exact He). exact Hx.
  - apply IH. intros e He. apply H. right. exact He.
Qed.

Lemma filter_map_comm (p : A -> bool) l :
  List.filter p (map g l) = map g (List.filter (fun x => p (g x)) l).
Proof.
  induction l as [|x l IH]; simpl; [reflexivity|].
  destruct (p (g x)); simpl; congruence.
Qed.
End FirstsOfParts.

(** ** Merging in two parts *)

(** The item of a group, and the items of the groups of a list. *)
Local Abbreviation itemOf n l :=
  (fun e => withSelections e (mergedWithFuel n (flat_map children (group e l)))).
Local Abbreviation itemsOf n l := (map (itemOf n l) (templates l)).
Local Abbreviation nestedOf k l :=
  (flat_map children (withKey String.eqb keyOf k (branches l))).

Lemma mergedWithFuel_nil n : mergedWithFuel n [] = [].
Proof. destruct n; reflexivity. Qed.

Lemma template_branch l e : In e (templates l) -> In e (branches l) /\ isLeaf e = false.
Proof.
  intros He. apply firstOccurrences_incl in He. split; [exact He|].
  apply List.filter_In in He. apply negb_true_iff. tauto.
Qed.

Lemma itemOf_key n l e : In e (templates l) -> keyOf (itemOf n l e) = keyOf e.
Proof.
  intros He. apply template_branch in He. destruct He as [_ He].
  apply (withSelections_branch e _ He).
Qed.

Lemma itemsOf_branches n l : Forall (fun x => isLeaf x = false) (itemsOf n l).
Proof.
  apply List.Forall_forall. intros x Hx. apply in_map_iff in Hx.
  destruct Hx as (e & <- & He). apply template_branch in He.
  destruct He as [_ He]. apply (withSelections_branch e _ He).
Qed.

Lemma merged_parts n l :
  leaves (mergedWithFuel (S n) l) = scalarsOf l /\
  branches (mergedWithFuel (S n) l) = itemsOf n l.
Proof.
  cbn [mergedWithFuel].
  exact (two_phase_split _ _ (scalarsOf_leaves l) (itemsOf_branches n l)).
Qed.

Lemma withSelections_twice e m m' :
  withSelections (withSelections e m) m' = withSelections e m'.
Proof. destruct e as [f|nm d|tc d s]; reflexivity. Qed.

(** The nested selections of the items with the key [k] are the merged
    nested selections of the branching items with that key. *)
Lemma itemsOf_nested n l k :
  flat_map children (withKey String.eqb keyOf k (itemsOf n l))
  = mergedWithFuel n (nestedOf k l).
Proof.
  rewrite (withKey_map String.eqb keyOf (itemOf n l) k (templates l))
    by (intros e He; apply itemOf_key; exact He).
  destruct (hasKey String.eqb keyOf k (branches l)) eqn:Hk.
  - rewrite <- (hasKey_firstOccurrences String.eqb keyOf String.eqb_sym eqb_trans)
      in Hk.
    apply existsb_exists in Hk. destruct Hk as (r & Hr & Hrk).
    change (withKey String.eqb keyOf k (templates l))
      with (List.filter (fun y => String.eqb k (keyOf y)) (templates l)).
    rewrite (distinctKeys_filter_one String.eqb keyOf String.eqb_sym eqb_trans
               _ r k
               (firstOccurrences_distinct String.eqb keyOf String.eqb_sym _)
               Hr Hrk).
    cbn [map flat_map]. rewrite app_nil_r.
    destruct (template_branch _ _ Hr) as [_ Hleaf].
    destruct (withSelections_branch r
                (mergedWithFuel n (flat_map children (group r l))) Hleaf)
      as (_ & _ & ->).
    rewrite (withKey_same String.eqb keyOf String.eqb_sym eqb_trans
               (keyOf r) k (branches l) Hrk).
    reflexivity.
  - rewrite (withKey_absent String.eqb keyOf String.eqb_sym k (branches l) Hk).
    rewrite <- (hasKey_firstOccurrences String.eqb keyOf String.eqb_sym eqb_trans)
      in Hk.
    rewrite (withKey_absent String.eqb keyOf String.eqb_sym k _ Hk).
    cbn [map flat_map]. symmetry. apply mergedWithFuel_nil.
Qed.

Lemma branches_app l1 l2 : branches (l1 ++ l2) = branches l1 ++ branches l2.
Proof. apply List.filter_app. Qed.

Lemma leaves_app l1 l2 : leaves (l1 ++ l2) = leaves l1 ++ leaves l2.
Proof. apply List.filter_app. Qed.

Lemma nestedOf_app k l1 l2 : nestedOf k (l1 ++ l2) = nestedOf k l1 ++ nestedOf k l2.
Proof. rewrite branches_app, withKey_app, flat_map_app. reflexivity. Qed.

(** The merged selections of a list in two parts are those of the merged
    selections of the parts. *)
Lemma mergedWithFuel_app n : forall l1 l2,
  depthList (l1 ++ l2) < n ->
  mergedWithFuel n (l1 ++ l2)
  = mergedWithFuel n (mergedWithFuel n l1 ++ mergedWithFuel n l2).
Proof.
  induction n as [|n IH]; intros l1 l2 Hn; [lia|].
  destruct (merged_parts n l1) as [HL1 HB1].
  destruct (merged_parts n l2) as [HL2 HB2].
  set (a := mergedWithFuel (S n) l1) in *.
  set (b := mergedWithFuel (S n) l2) in *.
  assert (forall e m,
            In e (branches (l1 ++ l2)) ->
            itemOf n (a ++ b) (withSelections e m) = itemOf n (l1 ++ l2) e)
    as Hitem.
  { intros e m He.
    assert (isLeaf e = false) as Hleaf
      by (apply List.filter_In in He; apply negb_true_iff; tauto).
    destruct (withSelections_branch e m Hleaf) as (_ & -> & _).
    rewrite withSelections_twice. f_equal.
    rewrite (nestedOf_app _ a b), HB1, HB2, !itemsOf_nested.
    pose proof (depthList_group _ _ He) as Hd.
    rewrite <- IH by (rewrite <- nestedOf_app; lia).
    rewrite <- nestedOf_app. reflexivity. }
  set (f := itemOf n (l1 ++ l2)) in *.
  set (h := itemOf n (a ++ b)) in *.
  cbn [mergedWithFuel]. fold f. fold h.
  f_equal.
  - rewrite !leaves_app, HL1, HL2. symmetry.
    apply (firstOccurrences_firsts sameName nameValue sameName_sym sameName_trans).
  - rewrite !branches_app, HB1, HB2.
    rewrite !(firstOccurrences_app String.eqb keyOf String.eqb_sym).
    assert (forall l e, In e (templates l) -> keyOf (itemOf n l e) = keyOf e)
      as Hkey by (intros l e; apply itemOf_key).
    rewrite (firstOccurrences_of_distinct String.eqb keyOf String.eqb_sym
               (itemsOf n l1)),
            (firstOccurrences_of_distinct String.eqb keyOf String.eqb_sym
               (itemsOf n l2))
      by (apply distinctKeys_map;
          [apply Hkey|apply firstOccurrences_distinct; exact String.eqb_sym]).
    rewrite filter_map_comm, !map_app, !map_map. f_equal.
    + apply map_ext_in. intros e He. symmetry. apply Hitem.
      rewrite branches_app.
      apply in_or_app. left. eapply firstOccurrences_incl. exact He.
    + rewrite (List.filter_ext_in
                 (fun x => negb (hasKey String.eqb keyOf
                                   (keyOf (itemOf n l2 x)) (itemsOf n l1)))
                 (fun y => negb (hasKey String.eqb keyOf (keyOf y) (branches l1)))).
      * apply map_ext_in. intros e He. symmetry. apply Hitem.
        rewrite branches_app.
        apply in_or_app. right. apply List.filter_In in He.
        eapply firstOccurrences_incl. apply He.
      * intros e He. rewrite (Hkey l2 e He).
        rewrite (hasKey_map String.eqb keyOf (itemOf n l1))
          by (apply Hkey).
        rewrite (hasKey_firstOccurrences String.eqb keyOf String.eqb_sym eqb_trans).
        reflexivity.
Qed.

Lemma depthList_le l d : (forall x, In x l -> depth x <= d) -> depthList l <= d.
Proof.
  unfold depthList. induction l as [|x l IH]; intros H; simpl; [lia|].
  pose proof (H x (or_introl eq_refl)).
  specialize (IH (fun y Hy => H y (or_intror Hy))). lia.
Qed.

(** Merging does not deepen the selections. *)
Lemma mergedWithFuel_depth n : forall l,
  depthList (mergedWithFuel n l) <= depthList l.
Proof.
  induction n as [|n IH]; intros l; [simpl; unfold depthList; simpl; lia|].
  apply depthList_le. intros x Hx. cbn [mergedWithFuel] in Hx.
  apply in_app_or in Hx. destruct Hx as [Hx|Hx].
  - apply firstOccurrences_incl in Hx. apply List.filter_In in Hx.
    apply depth_In. tauto.
  - apply in_map_iff in Hx. destruct Hx as (e & <- & He).
    destruct (template_branch _ _ He) as [Hb Hleaf].
    destruct (withSelections_branch e
                (mergedWithFuel n (flat_map children (group e l))) Hleaf)
      as (Hleaf' & _ & Hch).
    rewrite (depth_branch _ Hleaf'), Hch.
    pose proof (IH (flat_map children (group e l))).
    pose proof (depthList_group _ _ Hb). lia.
Qed.

Lemma keyed_withSelections e m :
  isLeaf e = false -> keyed (withSelections e m) = keyed e.
Proof.
  unfold isLeaf, keyed, selectionKey.
  destruct e as [[a nm args ds [s|]]|nm d|tc d s]; simpl; try discriminate;
    reflexivity.
Qed.

(** Merged selections are well keyed when the selections are. *)
Lemma mergedWithFuel_wellKeyed n : forall l,
  forallb wellKeyed l = true -> forallb wellKeyed (mergedWithFuel n l) = true.
Proof.
  induction n as [|n IH]; intros l Hwk; [reflexivity|].
  apply forallb_forall. intros x Hx. cbn [mergedWithFuel] in Hx.
  apply in_app_or in Hx. destruct Hx as [Hx|Hx].
  - apply firstOccurrences_incl in Hx. apply List.filter_In in Hx.
    rewrite forallb_forall in Hwk. apply Hwk. tauto.
  - apply in_map_iff in Hx. destruct Hx as (e & <- & He).
    destruct (template_branch _ _ He) as [Hb Hleaf].
    destruct (withSelections_branch e
                (mergedWithFuel n (flat_map children (group e l))) Hleaf)
      as (Hleaf' & _ & Hch).
    apply keyed_wellKeyed; [exact Hleaf'| |].
    + rewrite keyed_withSelections by exact Hleaf.
      pose proof (wellKeyed_keyed l Hwk) as Hk. rewrite forallb_forall in Hk.
      apply Hk. exact Hb.
    + rewrite Hch. apply IH. apply wellKeyed_group; assumption.
Qed.

(** Merging a list in two parts: the parts may be merged first. *)
Lemma mergeSelectionsSetsInternal_app (l1 l2 : list SelectionNode) :
  mergeSelectionsSetsInternal (l1 ++ l2) =
  do a <- mergeSelectionsSetsInternal l1;
  do b <- mergeSelectionsSetsInternal l2;
  mergeSelectionsSetsInternal (a ++ b).
Proof.
  destruct (forallb wellKeyed l1) eqn:H1.
  - destruct (forallb wellKeyed l2) eqn:H2.
    + unfold mergeSelectionsSetsInternal at 1.
      set (N := S (depthList (l1 ++ l2))).
      assert (depthList (l1 ++ l2) < N) as HN by (unfold N; lia).
      clearbody N.
      pose proof (depthList_app l1 l2) as Hd.
      rewrite <- (mergeWithFuel_enough N l1), <- (mergeWithFuel_enough N l2)
        by lia.
      rewrite (mergeWithFuel_merged N l1), (mergeWithFuel_merged N l2)
        by (assumption || lia).
      cbn [bind].
      pose proof (mergedWithFuel_depth N l1).
      pose proof (mergedWithFuel_depth N l2).
      pose proof (depthList_app (mergedWithFuel N l1) (mergedWithFuel N l2)).
      pose proof (mergedWithFuel_wellKeyed N l1 H1) as Ha.
      pose proof (mergedWithFuel_wellKeyed N l2 H2) as Hb.
      rewrite <- (mergeWithFuel_enough N
                    (mergedWithFuel N l1 ++ mergedWithFuel N l2))
        by lia.
      rewrite (mergeWithFuel_merged N
                 (mergedWithFuel N l1 ++ mergedWithFuel N l2))
        by (lia || (rewrite forallb_app, Ha, Hb; reflexivity)).
      rewrite (mergeWithFuel_merged N (l1 ++ l2))
        by (lia || (rewrite forallb_app, H1, H2; reflexivity)).
      f_equal. apply mergedWithFuel_app. lia.
    + rewrite (mergeSelectionsSetsInternal_TypeError (l1 ++ l2))
        by (rewrite forallb_app, H1, H2; reflexivity).
      rewrite (mergeSelectionsSetsInternal_TypeError l2 H2).
      destruct (mergeSelectionsSetsInternal_total l1 H1) as [a ->]. reflexivity.
  - rewrite (mergeSelectionsSetsInternal_TypeError (l1 ++ l2))
      by (rewrite forallb_app, H1; reflexivity).
    rewrite (mergeSelectionsSetsInternal_TypeError l1 H1). reflexivity.
Qed.

(** On trees, the merged selections are merged again into themselves. *)
Lemma mergeSelectionsSetsInternal_idempotent (l out : list SelectionNode) :
  mergeSelectionsSetsInternal l = Done out ->
  mergeSelectionsSetsInternal out = Done out.
Proof.
  intros H. pose proof (mergeSelectionsSetsInternal_app l []) as Happ.
  rewrite app_nil_r, H in Happ. cbn [bind] in Happ.
  change (mergeSelectionsSetsInternal []) with (@Done (list SelectionNode) [])
    in Happ.
  cbn [bind] in Happ. rewrite app_nil_r in Happ. symmetry. exact Happ.
Qed.

(** X5: merging is idempotent on unshared objects. When
    [mergeSelectionsSetsInternal] returns on a store that holds its input at
    unshared [SelectionSetNode] objects, the selections it returns hold
    trees in the final store, and merging them again from that store
    returns selections that hold the same trees. *)
Theorem merge_idempotent (m k : nat) (h h1 : Store.store)
    (ns outs : list Store.Node) (vs : list SelectionNode) :
  Store.separated k h ns vs -> k < m ->
  Store.mergeWithFuel m ns h = Done (outs, h1) ->
  exists (out : list SelectionNode) (outs2 : list Store.Node)
         (h2 : Store.store),
    traverse (Store.decode k h1) outs = Some out /\
    Store.mergeWithFuel m outs h1 = Done (outs2, h2) /\
    traverse (Store.decode k h2) outs2 = Some out.
Proof.
  intros Hsep Hm Hrun.
  pose proof (store_merge_outcome m k h ns vs Hsep Hm) as H1.
  unfold Store.simulates in H1.
  destruct (mergeSelectionsSetsInternal vs) as [out| |] eqn:Hout;
    [|congruence|congruence].
  destruct H1 as (nodes & h' & Heq & Hsep1 & _).
  rewrite Hrun in Heq. injection Heq as <- <-.
  pose proof (store_merge_outcome m k h1 outs out Hsep1 Hm) as H2.
  rewrite (mergeSelectionsSetsInternal_idempotent vs out Hout) in H2.
  destruct H2 as (outs2 & h2 & Hrun2 & Hsep2 & _).
  exists out, outs2, h2.
  split; [exact (proj1 Hsep1)|]. split; [exact Hrun2|exact (proj1 Hsep2)].
Qed.

Lemma merge_idempotent_witness :
  let ns := [Store.FIELD (Store.branch_ "b" 1); Store.FIELD (Store.branch_ "b" 3)] in
  let vs := [branch_ "b" [leaf_ None "x"]; branch_ "b" [leaf_ None "y"]] in
  let outs := [Store.FIELD (Store.branch_ "b" 1)] in
  let h1 := <[1 := [Store.leaf_ "x"; Store.leaf_ "y"]]> Store.store_ab in
  Store.separated 2 Store.store_ab ns vs /\ 2 < 3 /\
  Store.mergeWithFuel 3 ns Store.store_ab = Done (outs, h1) /\
  exists (out : list SelectionNode) (outs2 : list Store.Node)
         (h2 : Store.store),
    traverse (Store.decode 2 h1) outs = Some out /\
    Store.mergeWithFuel 3 outs h1 = Done (outs2, h2) /\
    traverse (Store.decode 2 h2) outs2 = Some out.
Proof.
  intros ns vs outs h1.
  assert (Store.mergeWithFuel 3 ns Store.store_ab = Done (outs, h1)) as Hrun
    by (vm_compute; reflexivity).
  split; [exact store_ab_separated|]. split; [lia|]. split; [exact Hrun|].
  apply (merge_idempotent 3 2 Store.store_ab h1 ns outs vs store_ab_separated);
    [lia|exact Hrun].
Defined.

(** X6: a list of selections in two parts may be merged part by part:
    merging the whole list gives what merging the merged parts gives, and
    throws when a part does. *)
Theorem merge_of_parts (l1 l2 : list SelectionNode) :
  mergeSelectionsSetsInternal (l1 ++ l2) =
  do a <- mergeSelectionsSetsInternal l1;
  do b <- mergeSelectionsSetsInternal l2;
  mergeSelectionsSetsInternal (a ++ b).
Proof. exact (mergeSelectionsSetsInternal_app l1 l2). Qed.

(** ** What the grouping of the branching items looks at *)

Lemma merge_pair (e1 e2 : SelectionNode) (k : string) :
  isLeaf e1 = false -> isLeaf e2 = false ->
  selectionKey e1 = Some k -> selectionKey e2 = Some k ->
  mergeSelectionsSetsInternal [e1; e2] =
  do merged <- mergeSelectionsSetsInternal (children e1 ++ children e2);
  Done [withSelections e1 merged].
Proof.
  intros H1 H2 K1 K2. rewrite mergeSelectionsSetsInternal_eq.
  unfold Loop.branches, Loop.leaves, Loop.keyed, Loop.keyOf, withKey.
  cbn [List.filter forallb firstOccurrences negb].
  rewrite H1, H2. cbn [List.filter forallb firstOccurrences negb].
  rewrite K1, K2, String.eqb_refl.
  cbn [andb negb mapM]. rewrite K1, String.eqb_refl.
  cbn [flat_map app]. rewrite app_nil_r.
  destruct (mergeSelectionsSetsInternal (children e1 ++ children e2));
    reflexivity.
Qed.

(** X7: the branching items are grouped by their key alone, the [name] of
    a field or the type condition of an inline fragment: two branching items
    with the same key give one item, whatever their kinds, aliases, arguments
    and directives are. It is a copy of the first, with the merge of the
    nested selections of both. *)
Theorem same_key_items_merged (e1 e2 : SelectionNode) (k : string) :
  isLeaf e1 = false -> isLeaf e2 = false ->
  selectionKey e1 = Some k -> selectionKey e2 = Some k ->
  mergeSelectionsSetsInternal [e1; e2] =
  do merged <- mergeSelectionsSetsInternal (children e1 ++ children e2);
  Done [withSelections e1 merged].
Proof. exact (merge_pair e1 e2 k). Qed.

Lemma same_key_items_merged_witness :
  let e1 := FIELD (mkFieldNode (Some "first") "user" [("id", "1")] []
                     (Some [leaf_ None "name"])) in
  let e2 := FIELD (mkFieldNode (Some "second") "user" [("id", "2")] ["@skip"]
                     (Some [leaf_ None "email"])) in
  mergeSelectionsSetsInternal [e1; e2] =
  do merged <- mergeSelectionsSetsInternal (children e1 ++ children e2);
  Done [withSelections e1 merged].
Proof.
  intros e1 e2.
  apply (same_key_items_merged e1 e2 "user"); reflexivity.
Defined.

(** X8: a field with a nested selection and an inline fragment whose type
    condition is the name of the field have the same key: they are merged
    into one item, the one that comes first, and the other is not in the
    result. *)
Theorem field_and_fragment_share_key (f : FieldNode)
    (s1 s2 : list SelectionNode) (d : list string) :
  selectionSet f = Some s1 -> name f <> "" ->
  mergeSelectionsSetsInternal [FIELD f; INLINE_FRAGMENT (Some (name f)) d s2] =
  (do merged <- mergeSelectionsSetsInternal (s1 ++ s2);
   Done [FIELD (withSelectionSet f merged)]) /\
  mergeSelectionsSetsInternal [INLINE_FRAGMENT (Some (name f)) d s2; FIELD f] =
  (do merged <- mergeSelectionsSetsInternal (s2 ++ s1);
   Done [INLINE_FRAGMENT (Some (name f)) d merged]).
Proof.
  intros Hs Hn.
  assert (selectionKey (FIELD f) = Some (name f)) as Hk.
  { unfold Loop.selectionKey. simpl.
    destruct (String.eqb (name f) "") eqn:He; [|reflexivity].
    apply String.eqb_eq in He. contradiction. }
  assert (isLeaf (FIELD f) = false) as Hleaf
    by (unfold Loop.isLeaf; simpl; rewrite Hs; reflexivity).
  assert (children (FIELD f) = s1) as Hch
    by (unfold children; simpl; rewrite Hs; reflexivity).
  set (frag := INLINE_FRAGMENT (Some (name f)) d s2).
  assert (isLeaf frag = false) as Hleaf' by reflexivity.
  assert (selectionKey frag = Some (name f)) as Hk' by reflexivity.
  split.
  - rewrite (merge_pair (FIELD f) frag (name f) Hleaf Hleaf' Hk Hk').
    rewrite Hch. reflexivity.
  - rewrite (merge_pair frag (FIELD f) (name f) Hleaf' Hleaf Hk' Hk).
    rewrite Hch. reflexivity.
Qed.

Lemma field_and_fragment_share_key_witness :
  let f := mkFieldNode None "User" [] [] (Some [leaf_ None "id"]) in
  mergeSelectionsSetsInternal
    [FIELD f; INLINE_FRAGMENT (Some (name f)) [] [leaf_ None "name"]] =
  (do merged <- mergeSelectionsSetsInternal ([leaf_ None "id"] ++ [leaf_ None "name"]);
   Done [FIELD (withSelectionSet f merged)]) /\
  mergeSelectionsSetsInternal
    [INLINE_FRAGMENT (Some (name f)) [] [leaf_ None "name"]; FIELD f] =
  (do merged <- mergeSelectionsSetsInternal ([leaf_ None "name"] ++ [leaf_ None "id"]);
   Done [INLINE_FRAGMENT (Some (name f)) [] merged]).
Proof.
  intros f.
  apply (field_and_fragment_share_key f [leaf_ None "id"] [leaf_ None "name"] []).
  - reflexivity.
  - discriminate.
Defined.

(** ** When [selectionSetFromFieldSet] returns *)

Lemma forallb_flat_map_incl {A B : Type} (p : B -> bool) (f : A -> list B)
    (l l' : list A) :
  incl l' l -> forallb p (flat_map f l) = true ->
  forallb p (flat_map f l') = true.
Proof.
  intros Hincl H. apply forallb_flat_map. intros a Ha.
  exact (forallb_flat_map_In p f l a H (Hincl a Ha)).
Qed.

Lemma gatherSelections_incl (g fields : FieldSet) :
  incl g fields ->
  forallb wellKeyed (gatherSelections (map fieldNode fields)) = true ->
  forallb wellKeyed (gatherSelections (map fieldNode g)) = true.
Proof.
  unfold gatherSelections. rewrite !flat_map_concat_map, !map_map.
  rewrite <- !flat_map_concat_map. apply forallb_flat_map_incl.
Qed.

Lemma withKey_incl {A K : Type} (sameKey : K -> K -> bool) (key : A -> K) k l :
  incl (withKey sameKey key k l) l.
Proof. intros x Hx. apply List.filter_In in Hx. tauto. Qed.

(** [combineFields] on a group that is not empty: it has an answer, and it
    returns when the nested selections of the group are well keyed. *)
Lemma combineFields_cases (g : FieldSet) :
  g <> [] ->
  match combineFields g with
  | Done _ => True
  | TypeError => forallb wellKeyed (gatherSelections (map fieldNode g)) = false
  | Stuck => False
  end.
Proof.
  destruct g as [|first rest]; [congruence|]. intros _.
  unfold combineFields. cbv zeta.
  destruct (isCompositeType (getNamedType (fieldDefType (fieldDef first))));
    [|exact I].
  unfold mergeSelectionSets.
  pose proof (mergeSelectionsSetsInternal_cases
                (gatherSelections (map fieldNode (first :: rest)))) as H.
  destruct (mergeSelectionsSetsInternal
              (gatherSelections (map fieldNode (first :: rest))));
    simpl; [exact I|exact H|exact H].
Qed.

Lemma mapM_cases {A B : Type} (f : A -> outcome B) (P : Prop) (l : list A) :
  (forall a, In a l ->
             match f a with Done _ => True | TypeError => P | Stuck => False end) ->
  match mapM f l with Done _ => True | TypeError => P | Stuck => False end.
Proof.
  induction l as [|a l IH]; intros H; simpl; [exact I|].
  pose proof (H a (or_introl eq_refl)) as Ha.
  destruct (f a); simpl; [|exact Ha|exact Ha].
  specialize (IH (fun x Hx => H x (or_intror Hx))).
  destruct (mapM f l); simpl; [exact I|exact IH|exact IH].
Qed.

(** On trees, [selectionSetFromFieldSet] fails only where the nested merge
    throws. *)
Lemma selectionSetFromFieldSet_cases (fields : FieldSet)
    (pt : option GraphQLCompositeType) :
  match selectionSetFromFieldSet fields pt with
  | Done _ => True
  | TypeError =>
      forallb wellKeyed (gatherSelections (map fieldNode fields)) = false
  | Stuck => False
  end.
Proof.
  set (P := forallb wellKeyed (gatherSelections (map fieldNode fields)) = false).
  rewrite selectionSetFromFieldSet_eq.
  match goal with
  | |- match bind (mapM ?f ?l) _ with _ => _ end =>
      pose proof (mapM_cases f P l) as H; destruct (mapM f l); simpl;
      [exact I|apply H|apply H]
  end.
  all: intros rep Hrep; rewrite combinedSelections_eq;
    set (sameType := withKey sameObject declaringType (declaringType rep) fields);
    match goal with
    | |- match bind (mapM ?f ?l) _ with _ => _ end =>
        pose proof (mapM_cases f P l) as H'; destruct (mapM f l); simpl;
        [exact I|apply H'|apply H']
    end.
  all: intros r Hr;
    set (g := withKey String.eqb responseName (responseName r) sameType);
    assert (g <> []) as Hg
      by (intros Hn;
          assert (In r g) as Hin
            by (apply List.filter_In; split;
                [eapply firstOccurrences_incl; exact Hr|apply String.eqb_refl]);
          rewrite Hn in Hin; destruct Hin);
    pose proof (combineFields_cases g Hg) as Hc;
    destruct (combineFields g); simpl; [exact I| |exact Hc];
    unfold P;
    destruct (forallb wellKeyed (gatherSelections (map fieldNode fields))) eqn:Hwk;
      [|reflexivity];
    rewrite (gatherSelections_incl g fields) in Hc;
      [discriminate| |exact Hwk];
    intros x Hx; apply (withKey_incl sameObject declaringType (declaringType rep));
    exact (withKey_incl String.eqb responseName (responseName r) _ x Hx).
Qed.

(** X9: on a store that holds the fields with unshared [SelectionSetNode]
    objects, [selectionSetFromFieldSet] has no other failure than the
    [TypeError] of the nested merge: it returns for every FieldSet whose
    nested selections are well keyed, the empty FieldSet included, and
    [combineFields] never finds a group without a first field. *)
Theorem selectionSetFromFieldSet_throws_only_unkeyed (fuel k : nat)
    (h0 : Store.store) (fs : Store.FieldSet) (fvs : FieldSet)
    (pt : option GraphQLCompositeType) :
  k < fuel ->
  Forall2 (Store.holdsField (S k) h0) fs fvs ->
  NoDup (Store.footprints (S k) h0 (map Store.nodeOf fs)) ->
  match Store.selectionSetFromFieldSet fuel fs pt h0 with
  | Done _ => True
  | TypeError =>
      forallb wellKeyed (gatherSelections (map fieldNode fvs)) = false
  | Stuck => False
  end.
Proof.
  intros Hfuel Hholds Hnd.
  pose proof (selectionSetFromFieldSet_refines fuel k Hfuel h0 fs fvs pt
                Hholds Hnd) as Hrun.
  pose proof (selectionSetFromFieldSet_cases fvs pt) as Hvs.
  unfold Store.runsTo in Hrun.
  destruct (selectionSetFromFieldSet fvs pt) as [out| |].
  - destruct Hrun as (ys & h' & -> & _). exact I.
  - rewrite Hrun. exact Hvs.
  - destruct Hvs.
Qed.

Lemma selectionSetFromFieldSet_throws_only_unkeyed_witness :
  let fvs :=
    [ field_ Store.typeT "a" Store.objectField
        (Some [branch_ "b" [leaf_ None "x"]]);
      field_ Store.typeT "a" Store.objectField
        (Some [branch_ "b" [leaf_ None "y"]]) ] in
  let fs := [Store.field_abx; Store.field_aby] in
  2 < 3 /\
  Forall2 (Store.holdsField 3 Store.store_ab) fs fvs /\
  NoDup (Store.footprints 3 Store.store_ab (map Store.nodeOf fs)) /\
  match Store.selectionSetFromFieldSet 3 fs (Some Store.typeT) Store.store_ab with
  | Done _ => True
  | TypeError =>
      forallb wellKeyed (gatherSelections (map fieldNode fvs)) = false
  | Stuck => False
  end.
Proof.
  intros fvs fs.
  assert (Forall2 (Store.holdsField 3 Store.store_ab) fs fvs) as Hholds
    by (repeat constructor).
  assert (NoDup (Store.footprints 3 Store.store_ab (map Store.nodeOf fs)))
    as Hnd.
  { vm_compute.
    repeat (apply NoDup_cons; split;
            [intros Hc;
             repeat (apply elem_of_cons in Hc;
                     destruct Hc as [Hc|Hc]; [discriminate|]);
             inversion Hc|]).
    apply NoDup_nil_2. }
  split; [lia|]. split; [exact Hholds|]. split; [exact Hnd|].
  apply (selectionSetFromFieldSet_throws_only_unkeyed 3 2 Store.store_ab fs fvs
           (Some Store.typeT)); [lia|exact Hholds|exact Hnd].
Defined.

(** ** Fields of a composite type without a nested selection *)

(** X10: [combineFields] gives a field of a composite return type a
    [selectionSet] even when no field of the group has one: the node it
    returns is the first node with an empty selection set, not the first
    node as it is. *)
Theorem composite_field_gets_selection_set (first : Field) (rest : FieldSet) :
  isCompositeType (getNamedType (fieldDefType (fieldDef first))) = true ->
  Forall (fun f => selectionSet (fieldNode f) = None) (first :: rest) ->
  combineFields (first :: rest) =
  Done (mkField (scope first) (withSelectionSet (fieldNode first) [])
                (fieldDef first)) /\
  selectionSet (withSelectionSet (fieldNode first) []) <> selectionSet (fieldNode first).
Proof.
  intros Hc Hnone. split.
  - unfold combineFields. cbv zeta. rewrite Hc.
    unfold mergeSelectionSets.
    assert (gatherSelections (map fieldNode (first :: rest)) = []) as ->.
    { unfold gatherSelections. induction Hnone as [|f l Hf _ IH]; simpl;
        [reflexivity|]. rewrite Hf. exact IH. }
    reflexivity.
  - inversion Hnone as [|? ? Hf _]. rewrite Hf. discriminate.
Qed.

Lemma composite_field_gets_selection_set_witness :
  let first := field_ (typeT 1) "a" objectField None in
  combineFields [first] =
  Done (mkField (scope first) (withSelectionSet (fieldNode first) [])
                (fieldDef first)) /\
  selectionSet (withSelectionSet (fieldNode first) []) <> selectionSet (fieldNode first).
Proof.
  intros first.
  apply (composite_field_gets_selection_set first []).
  - reflexivity.
  - repeat constructor.
Defined.

(** ** The empty selection set *)

Lemma mapM_length {A B : Type} (f : A -> outcome B) l out :
  mapM f l = Done out -> length out = length l.
Proof.
  intros H. apply mapM_Done in H.
  induction H; simpl; congruence.
Qed.

(** X11: the selections [selectionSetFromFieldSet] returns are empty for
    the empty FieldSet and for no other: every declaring-type group gives at
    least one selection. *)
Theorem selections_empty_iff_no_field (fields : FieldSet)
    (pt : option GraphQLCompositeType) (out : list SelectionNode) :
  selectionSetFromFieldSet fields pt = Done out ->
  (out = [] <-> fields = []).
Proof.
  intros H. split.
  - intros ->. destruct fields as [|f rest]; [reflexivity|exfalso].
    rewrite selectionSetFromFieldSet_eq in H. cbn [firstOccurrences mapM] in H.
    set (sameType := withKey sameObject declaringType (declaringType f) (f :: rest))
      in H.
    destruct (combinedSelections sameType) as [sels| |] eqn:Hsels;
      cbn [bind] in H; try discriminate.
    match type of H with
    | context [mapM ?g ?l] => destruct (mapM g l) as [parts| |]
    end; cbn [bind] in H; try discriminate.
    injection H as H. cbn [concat] in H. apply app_eq_nil in H.
    destruct H as [H _].
    assert (sels <> []) as Hne.
    { rewrite combinedSelections_eq in Hsels. apply mapM_length in Hsels.
      assert (In f sameType) as Hin
        by (apply List.filter_In; split; [left; reflexivity|apply sameObject_refl]).
      destruct sameType as [|x l]; [destruct Hin|].
      destruct sels; [discriminate|discriminate]. }
    unfold wrapInInlineFragmentIfNeeded in H.
    destruct (match pt with
              | Some p => sameObject (declaringType f) p
              | None => false
              end); [contradiction|discriminate].
  - intros ->. vm_compute in H. congruence.
Qed.

Lemma selections_empty_iff_no_field_witness :
  let fields := [field_ (typeT 1) "a" stringField None] in
  let out := [INLINE_FRAGMENT (Some "T") [] [leaf_ None "a"]] in
  out = [] <-> fields = [].
Proof.
  intros fields out.
  apply (selections_empty_iff_no_field fields None out). reflexivity.
Defined.

(** ** The run over the store and the function on trees *)

(** X12: on a store that holds the selections at unshared
    [SelectionSetNode] objects, the nested merge over the store does what
    the merge on trees does: it throws when that one throws, and when that
    one returns it returns nodes that hold the trees of the result, still
    unshared, made of objects of the input, after assignments to objects of
    the input only. *)
Theorem store_merge_agrees_with_trees (m k : nat) (h : Store.store)
    (ns : list Store.Node) (vs : list SelectionNode) :
  Store.separated k h ns vs ->
  Store.simulates k h (Store.footprints k h ns)
    (mergeWithFuel m vs) (Store.mergeWithFuel m ns h).
Proof. apply mergeWithFuel_refines. Qed.

Lemma store_merge_agrees_with_trees_witness :
  let ns := [Store.FIELD (Store.branch_ "b" 1); Store.FIELD (Store.branch_ "b" 3)] in
  let vs := [branch_ "b" [leaf_ None "x"]; branch_ "b" [leaf_ None "y"]] in
  Store.separated 2 Store.store_ab ns vs /\
  Store.simulates 2 Store.store_ab (Store.footprints 2 Store.store_ab ns)
    (mergeWithFuel 3 vs) (Store.mergeWithFuel 3 ns Store.store_ab).
Proof.
  intros ns vs.
  assert (Store.separated 2 Store.store_ab ns vs) as Hsep.
  { split; [reflexivity|]. vm_compute.
    repeat (apply NoDup_cons; split;
            [intros Hc;
             repeat (apply elem_of_cons in Hc;
                     destruct Hc as [Hc|Hc]; [discriminate|]);
             inversion Hc|]).
    apply NoDup_nil_2. }
  split; [exact Hsep|].
  apply (store_merge_agrees_with_trees 3 2 Store.store_ab ns vs Hsep).
Defined.

(** X13: on a store that holds the fields with unshared [SelectionSetNode]
    objects, [selectionSetFromFieldSet] over the store does what the
    function on trees does: it throws when that one throws, and when that
    one returns it returns selections that hold the trees of the result. It
    assigns to [SelectionSetNode] objects of the given fields only: the
    other objects of the store are as before, no object is removed, and the
    objects of the result are objects of the given fields or new ones. *)
Theorem store_run_agrees_with_trees (fuel k : nat) (h0 : Store.store)
    (fs : Store.FieldSet) (fvs : FieldSet) (pt : option GraphQLCompositeType) :
  k < fuel ->
  Forall2 (Store.holdsField (S k) h0) fs fvs ->
  NoDup (Store.footprints (S k) h0 (map Store.nodeOf fs)) ->
  Store.runsTo
    (fun h ys yvs => traverse (Store.decode (S (S k)) h) ys = Some yvs)
    (fun h ys => Store.footprints (S (S k)) h ys)
    h0 (Store.footprints (S k) h0 (map Store.nodeOf fs))
    (selectionSetFromFieldSet fvs pt)
    (Store.selectionSetFromFieldSet fuel fs pt h0).
Proof. intros Hfuel. exact (selectionSetFromFieldSet_refines fuel k Hfuel h0 fs fvs pt). Qed.

Lemma store_run_agrees_with_trees_witness :
  let fvs :=
    [ field_ Store.typeT "a" Store.objectField
        (Some [branch_ "b" [leaf_ None "x"]]);
      field_ Store.typeT "a" Store.objectField
        (Some [branch_ "b" [leaf_ None "y"]]) ] in
  let fs := [Store.field_abx; Store.field_aby] in
  Store.runsTo
    (fun h ys yvs => traverse (Store.decode 4 h) ys = Some yvs)
    (fun h ys => Store.footprints 4 h ys)
    Store.store_ab
    (Store.footprints 3 Store.store_ab (map Store.nodeOf fs))
    (selectionSetFromFieldSet fvs (Some Store.typeT))
    (Store.selectionSetFromFieldSet 3 fs (Some Store.typeT) Store.store_ab).
Proof.
  cbv zeta.
  apply (store_run_agrees_with_trees 3 2 Store.store_ab).
  - lia.
  - repeat constructor.
  - vm_compute.
    repeat (apply NoDup_cons; split;
            [intros Hc;
             repeat (apply elem_of_cons in Hc;
                     destruct Hc as [Hc|Hc]; [discriminate|]);
             inversion Hc|]).
    apply NoDup_nil_2.
Defined.

(** On a store that holds the fields with unshared [SelectionSetNode]
    objects, the selections the run returns hold trees in which the fields
    that share the declaring type object and the response name of a field
    [f] are one field, built on the first of them, whose nested selection
    is the merge of the nested selections of all of them when its return
    type is composite. *)
Lemma fields_merged_once_unshared (fuel k : nat) (h0 h' : Store.store)
    (fs : Store.FieldSet) (ys : list Store.Node) (fvs : FieldSet)
    (pt : option GraphQLCompositeType) (f : Field) :
  k < fuel ->
  Forall2 (Store.holdsField (S k) h0) fs fvs ->
  NoDup (Store.footprints (S k) h0 (map Store.nodeOf fs)) ->
  Store.selectionSetFromFieldSet fuel fs pt h0 = Done (ys, h') ->
  In f fvs ->
  let sameType := withKey sameObject declaringType (declaringType f) fvs in
  let members := withKey String.eqb responseName (responseName f) sameType in
  exists out : list SelectionNode,
    traverse (Store.decode (S (S k)) h') ys = Some out /\
    exists (rep first : Field) (sels : list SelectionNode) (node : FieldNode),
      In rep fvs /\
      sameObject (declaringType rep) (declaringType f) = true /\
      combinedSelections sameType = Done sels /\
      (if isParentType (declaringType rep) pt then incl sels out
       else In (INLINE_FRAGMENT (Some (typeName (declaringType rep))) [] sels)
               out) /\
      List.filter (hasResponseName (responseName f)) sels = [FIELD node] /\
      head members = Some first /\
      if isCompositeType (getNamedType (fieldDefType (fieldDef first))) then
        exists merged,
          mergeSelectionSets (map fieldNode members) = Done merged /\
          node = withSelectionSet (fieldNode first) merged
      else node = fieldNode first.
Proof.
  intros Hfuel Hholds Hnd Hrun Hf sameType members.
  pose proof (selectionSetFromFieldSet_refines fuel k Hfuel h0 fs fvs pt
                Hholds Hnd) as H.
  unfold Store.runsTo in H.
  destruct (selectionSetFromFieldSet fvs pt) as [out| |] eqn:Hout;
    [|congruence|congruence].
  destruct H as (y & h1 & Heq & Hdec & _).
  rewrite Hrun in Heq. injection Heq as <- <-.
  exists out. split; [exact Hdec|].
  exact (fields_merged_once fvs pt out f Hout Hf).
Qed.

(** ** [printFields] and [matchesField] *)

Lemma string_app_assoc (a b c : string) : (a +:+ b) +:+ c = a +:+ (b +:+ c).
Proof.
  induction a as [|x a IH]; [reflexivity|].
  change (String x ((a +:+ b) +:+ c) = String x (a +:+ (b +:+ c))).
  f_equal. exact IH.
Qed.

Lemma concat_app (sep : string) (l1 l2 : list string) :
  l1 <> [] -> l2 <> [] ->
  String.concat sep (l1 ++ l2)
  = String.concat sep l1 +:+ sep +:+ String.concat sep l2.
Proof.
  intros H1 H2. induction l1 as [|x l1 IH]; [congruence|].
  destruct l1 as [|y l1].
  - simpl. destruct l2 as [|z l2]; [congruence|]. reflexivity.
  - change (String.concat sep ((x :: y :: l1) ++ l2))
      with (x +:+ sep +:+ String.concat sep ((y :: l1) ++ l2)).
    rewrite IH by discriminate.
    change (String.concat sep (x :: y :: l1))
      with (x +:+ sep +:+ String.concat sep (y :: l1)).
    rewrite !string_app_assoc. reflexivity.
Qed.

(** X14: [printFields] prints the fields of a FieldSet in their order,
    separated by a comma and a space, between brackets: the text of two
    FieldSets put one after the other is the texts of the two, joined by a
    comma and a space inside one pair of brackets. *)
Theorem printFields_app {SS : Type} (fs gs : list (FieldOf SS)) :
  fs <> [] -> gs <> [] ->
  exists a b,
    printFields (Some fs) = "[" +:+ a +:+ "]" /\
    printFields (Some gs) = "[" +:+ b +:+ "]" /\
    printFields (Some (fs ++ gs)) = "[" +:+ a +:+ ", " +:+ b +:+ "]".
Proof.
  intros Hf Hg.
  exists (String.concat ", " (map printField fs)),
         (String.concat ", " (map printField gs)).
  split; [reflexivity|]. split; [reflexivity|].
  unfold printFields. rewrite map_app, concat_app.
  - rewrite !string_app_assoc. reflexivity.
  - destruct fs; [congruence|discriminate].
  - destruct gs; [congruence|discriminate].
Qed.

Lemma printFields_app_witness :
  let f := field_ (typeT 1) "a" stringField None in
  let g := field_ (typeT 2) "b" objectField None in
  exists a b,
    printFields (Some [f]) = "[" +:+ a +:+ "]" /\
    printFields (Some [g]) = "[" +:+ b +:+ "]" /\
    printFields (Some ([f] ++ [g])) = "[" +:+ a +:+ ", " +:+ b +:+ "]".
Proof.
  intros f g. apply (printFields_app [f] [g]); discriminate.
Defined.

(** X15: [matchesField] compares the names of the field definitions and
    nothing else. It is an equivalence on fields, and a field matches every
    field with the same field definition, whatever the parent type and the
    node (alias, arguments) of that field are. *)
Theorem matchesField_name_only {SS : Type} :
  (forall f : FieldOf SS, matchesField f f = true) /\
  (forall f g : FieldOf SS, matchesField f g = matchesField g f) /\
  (forall f g h : FieldOf SS,
      matchesField f g = true -> matchesField g h = true ->
      matchesField f h = true) /\
  (forall (f : FieldOf SS) s n, matchesField f (mkField s n (fieldDef f)) = true).
Proof.
  unfold matchesField. split; [|split; [|split]].
  - intros f. apply String.eqb_refl.
  - intros f g. apply String.eqb_sym.
  - intros f g h. apply eqb_trans.
  - intros f s n. apply String.eqb_refl.
Qed.

(** ** The Apollo configuration *)

Section ConfigFacts.
Import Config.

Lemma truthy_Some v s : truthy v = Some s -> v = Some s /\ s <> "".
Proof.
  destruct v as [x|]; simpl; [|discriminate].
  destruct (String.eqb x "") eqn:Hx; [discriminate|].
  intros [= ->]. split; [reflexivity|].
  intros ->. discriminate.
Qed.

Lemma truthy_of s : s <> "" -> truthy (Some s) = Some s.
Proof.
  intros Hs. simpl. destruct (String.eqb s "") eqn:Hx; [|reflexivity].
  apply String.eqb_eq in Hx. contradiction.
Qed.

Lemma truthy_idem v : truthy (truthy v) = truthy v.
Proof.
  destruct v as [s|]; simpl; [|reflexivity].
  destruct (String.eqb s "") eqn:Hx; simpl; [reflexivity|].
  rewrite Hx. reflexivity.
Qed.
End ConfigFacts.

(** X16: what the [apollo] argument gives is used as it is: with a key, a
    graph id and a graph variant that are not empty, the configuration is
    made of them and of the hash of the key, nothing is logged and nothing is
    thrown, whatever the environment variables are. *)
Theorem explicit_input_wins (sha512hex : string -> string) (env : Config.Env)
    (k g v : string) :
  k <> "" -> g <> "" -> v <> "" ->
  Config.determineApolloConfig sha512hex
    (Some (Config.mkInput (Some k) (Some g) (Some v))) env
  = (Config.Returned (Config.mkConfig (Some k) (Some (sha512hex k)) (Some g) v),
     []).
Proof.
  intros Hk Hg Hv. unfold Config.determineApolloConfig, Config.ofInput.
  cbn [Config.inputKey Config.inputGraphId Config.inputGraphVariant].
  rewrite !(truthy_of k Hk), (truthy_of g Hg), (truthy_of v Hv).
  reflexivity.
Qed.

Lemma explicit_input_wins_witness :
  Config.determineApolloConfig (fun s => s)
    (Some (Config.mkInput (Some "service:g:abc") (Some "graph") (Some "prod")))
    (Config.mkEnv (Some "user:x") (Some "other") (Some "staging") (Some "old"))
  = (Config.Returned
       (Config.mkConfig (Some "service:g:abc") (Some "service:g:abc")
          (Some "graph") "prod"),
     []).
Proof.
  apply (explicit_input_wins (fun s => s)); discriminate.
Defined.

(** X17: [determineApolloConfig] throws in one case only: the argument
    gives no graph variant and the variables [APOLLO_GRAPH_VARIANT] and
    [ENGINE_SCHEMA_TAG] are both set to strings that are not empty. Nothing is
    logged before it throws. *)
Theorem throws_iff_both_variant_variables (sha512hex : string -> string)
    (input : option Config.ApolloConfigInput) (env : Config.Env) :
  let r := Config.determineApolloConfig sha512hex input env in
  ((exists message, fst r = Config.Thrown message) <->
   Config.truthy (Config.ofInput input Config.inputGraphVariant) = None /\
   Config.truthy (Config.APOLLO_GRAPH_VARIANT env) <> None /\
   Config.truthy (Config.ENGINE_SCHEMA_TAG env) <> None) /\
  (forall message, fst r = Config.Thrown message ->
                   message = Config.bothVariablesSet /\ snd r = []).
Proof.
  unfold Config.determineApolloConfig.
  destruct (Config.truthy (Config.ofInput input Config.inputGraphVariant));
    cbn [fst snd].
  - split; [|discriminate]. split; [intros [m Hm]; discriminate|].
    intros (H & _). discriminate.
  - destruct (Config.truthy (Config.APOLLO_GRAPH_VARIANT env));
      destruct (Config.truthy (Config.ENGINE_SCHEMA_TAG env)); cbn [fst snd].
    + split; [|intros m [= <-]; auto]. split; [|eauto].
      intros _. repeat split; discriminate.
    + split; [|discriminate]. split; [intros [m Hm]; discriminate|].
      intros (_ & _ & H). congruence.
    + split; [|discriminate]. split; [intros [m Hm]; discriminate|].
      intros (_ & H & _). congruence.
    + match goal with
      | |- context [match ?x with Some _ => _ | None => _ end] => destruct x
      end; cbn [fst snd];
        (split; [|discriminate]; split; [intros [m Hm]; discriminate|];
         intros (_ & H & _); congruence).
Qed.

Section SplitFacts.
Import Config.

Lemma split_not_nil sep s : split sep s <> [].
Proof.
  destruct s as [|c s]; simpl; [discriminate|].
  destruct (Ascii.eqb c sep); [discriminate|].
  destruct (split sep s); discriminate.
Qed.

(** A string without the separator is its only piece. *)
Lemma split_none sep s :
  Forall (fun c => c <> sep) (String.list_ascii_of_string s) -> split sep s = [s].
Proof.
  induction s as [|c s IH]; simpl; [reflexivity|].
  intros H. inversion H as [|? ? Hc Hs]; subst.
  destruct (Ascii.eqb c sep) eqn:Hcs; [apply Ascii.eqb_eq in Hcs; contradiction|].
  rewrite (IH Hs). reflexivity.
Qed.

(** The first piece of a string ends at the first separator. *)
Lemma split_first sep a b :
  Forall (fun c => c <> sep) (String.list_ascii_of_string a) ->
  split sep (a +:+ String sep b) = a :: split sep b.
Proof.
  induction a as [|c a IH]; intros H.
  - change (split sep (String sep b) = "" :: split sep b).
    simpl. rewrite Ascii.eqb_refl. reflexivity.
  - change (split sep (String c (a +:+ String sep b)) = String c a :: split sep b).
    simpl in H. inversion H as [|? ? Hc Ha]; subst.
    simpl.
    destruct (Ascii.eqb c sep) eqn:Hcs; [apply Ascii.eqb_eq in Hcs; contradiction|].
    rewrite (IH Ha). reflexivity.
Qed.

(** The graph id [determineApolloConfig] takes from a key. *)
Lemma graphId_of_config sha512hex input env config :
  truthy (ofInput input inputGraphId) = None ->
  truthy (APOLLO_GRAPH_ID env) = None ->
  fst (determineApolloConfig sha512hex input env) = Returned config ->
  graphId config =
  match truthy (key config) with
  | Some k =>
      let parts := splitLimit colon 2 k in
      match nth_error parts 0 with
      | Some first =>
          if String.eqb first "service" then nth_error parts 1 else None
      | None => None
      end
  | None => None
  end.
Proof.
  intros Hg He. unfold determineApolloConfig. rewrite Hg, He.
  destruct (truthy (ofInput input inputGraphVariant));
    [intros [= <-]; reflexivity|].
  destruct (truthy (APOLLO_GRAPH_VARIANT env));
    destruct (truthy (ENGINE_SCHEMA_TAG env)); cbn [fst];
    try discriminate; try (intros [= <-]; reflexivity).
  match goal with
  | |- fst (match ?x with Some _ => _ | None => _ end) = _ -> _ =>
      destruct x eqn:Hx
  end; intros [= <-]; cbn [graphId key]; rewrite Hx; reflexivity.
Qed.
End SplitFacts.

(** X18: without a graph id in the argument and in [APOLLO_GRAPH_ID], the
    graph id is read from the key: a key [service:<id>:<rest>] gives its
    second part [<id>], and a key without a colon gives none, the key
    [service] included. *)
Theorem graphId_from_service_key (sha512hex : string -> string)
    (input : option Config.ApolloConfigInput) (env : Config.Env)
    (config : Config.ApolloConfig) :
  Config.truthy (Config.ofInput input Config.inputGraphId) = None ->
  Config.truthy (Config.APOLLO_GRAPH_ID env) = None ->
  fst (Config.determineApolloConfig sha512hex input env) = Config.Returned config ->
  (forall id rest,
      Forall (fun c => c <> Config.colon) (String.list_ascii_of_string id) ->
      Config.key config = Some ("service:" +:+ id +:+ ":" +:+ rest) ->
      Config.graphId config = Some id) /\
  (forall k,
      Forall (fun c => c <> Config.colon) (String.list_ascii_of_string k) ->
      Config.key config = Some k ->
      Config.graphId config = None).
Proof.
  intros Hg He Hr.
  rewrite (graphId_of_config sha512hex input env config Hg He Hr).
  split.
  - intros id rest Hid ->.
    change ("service:" +:+ id +:+ ":" +:+ rest)
      with ("service" +:+ String Config.colon (id +:+ String Config.colon rest)).
    set (k := "service" +:+ String Config.colon (id +:+ String Config.colon rest)).
    assert (Config.truthy (Some k) = Some k) as -> by reflexivity.
    cbv zeta. unfold Config.splitLimit, k.
    rewrite (split_first Config.colon "service")
      by (repeat constructor; discriminate).
    rewrite (split_first Config.colon id) by exact Hid.
    reflexivity.
  - intros k Hk ->. simpl Config.truthy.
    destruct (String.eqb k ""); [reflexivity|].
    cbv zeta. unfold Config.splitLimit. rewrite (split_none _ _ Hk).
    cbn [firstn nth_error]. destruct (String.eqb k "service"); reflexivity.
Qed.

Lemma graphId_from_service_key_witness :
  let config :=
    Config.mkConfig (Some "service:my-graph:secret")
      (Some "service:my-graph:secret") (Some "my-graph") "current" in
  (forall id rest,
      Forall (fun c => c <> Config.colon) (String.list_ascii_of_string id) ->
      Config.key config = Some ("service:" +:+ id +:+ ":" +:+ rest) ->
      Config.graphId config = Some id) /\
  (forall k,
      Forall (fun c => c <> Config.colon) (String.list_ascii_of_string k) ->
      Config.key config = Some k ->
      Config.graphId config = None).
Proof.
  intros config.
  apply (graphId_from_service_key (fun s => s) None
           (Config.mkEnv (Some "service:my-graph:secret") None None None) config);
    reflexivity.
Defined.

(** X19: a configuration that [determineApolloConfig] returns has a graph
    variant that is not empty, a key that is not empty when it has one, and
    a key hash exactly when it has a key: the hash of that key. *)
Theorem returned_config_invariants (sha512hex : string -> string)
    (input : option Config.ApolloConfigInput) (env : Config.Env)
    (config : Config.ApolloConfig) :
  fst (Config.determineApolloConfig sha512hex input env) = Config.Returned config ->
  Config.graphVariant config <> "" /\
  Config.key config <> Some "" /\
  Config.keyHash config = option_map sha512hex (Config.key config).
Proof.
  unfold Config.determineApolloConfig.
  set (key1 := match Config.truthy (Config.ofInput input Config.inputKey) with
               | Some k => Some k
               | None => Config.truthy (Config.APOLLO_KEY env)
               end).
  assert (Config.truthy key1 = key1) as Hkey.
  { unfold key1.
    destruct (Config.truthy (Config.ofInput input Config.inputKey)) as [k|] eqn:Hk.
    - apply truthy_Some in Hk. destruct Hk as [_ Hk]. apply truthy_of. exact Hk.
    - apply truthy_idem. }
  assert (key1 <> Some "") as Hne.
  { intros Hc. rewrite Hc in Hkey. discriminate. }
  rewrite Hkey.
  destruct (Config.truthy (Config.ofInput input Config.inputGraphVariant)) as [v|] eqn:Hv.
  { apply truthy_Some in Hv. intros [= <-]. cbn. destruct key1; tauto. }
  destruct (Config.truthy (Config.APOLLO_GRAPH_VARIANT env)) as [v|] eqn:Hev.
  { apply truthy_Some in Hev.
    destruct (Config.truthy (Config.ENGINE_SCHEMA_TAG env)); [discriminate|].
    intros [= <-]. cbn. destruct key1; tauto. }
  destruct (Config.truthy (Config.ENGINE_SCHEMA_TAG env)) as [tag|] eqn:Htag.
  { apply truthy_Some in Htag. intros [= <-]. cbn. destruct key1; tauto. }
  destruct key1; intros [= <-]; cbn; repeat split; congruence.
Qed.

Lemma returned_config_invariants_witness :
  let config :=
    Config.mkConfig (Some "user:abc") (Some "user:abc") None "staging" in
  Config.graphVariant config <> "" /\
  Config.key config <> Some "" /\
  Config.keyHash config = option_map (fun s => s) (Config.key config).
Proof.
  intros config.
  apply (returned_config_invariants (fun s => s) None
           (Config.mkEnv (Some "user:abc") None (Some "staging") None) config).
  reflexivity.
Defined.

(** X20: [determineApolloConfig] logs at most one warning. It warns that
    [ENGINE_SCHEMA_TAG] was renamed exactly when the graph variant is taken
    from that variable, and that no graph variant was provided exactly when
    there is a key and no graph variant in the argument or in the two
    variables. *)
Theorem warnings_logged (sha512hex : string -> string)
    (input : option Config.ApolloConfigInput) (env : Config.Env) :
  let r := Config.determineApolloConfig sha512hex input env in
  let noneGiven :=
    Config.truthy (Config.ofInput input Config.inputGraphVariant) = None /\
    Config.truthy (Config.APOLLO_GRAPH_VARIANT env) = None in
  (snd r = [] \/ snd r = [Config.tagRenamed] \/ snd r = [Config.noVariant]) /\
  (snd r = [Config.tagRenamed] <->
   noneGiven /\ Config.truthy (Config.ENGINE_SCHEMA_TAG env) <> None) /\
  (snd r = [Config.noVariant] <->
   noneGiven /\ Config.truthy (Config.ENGINE_SCHEMA_TAG env) = None /\
   (Config.truthy (Config.ofInput input Config.inputKey) <> None \/
    Config.truthy (Config.APOLLO_KEY env) <> None)).
Proof.
  unfold Config.determineApolloConfig.
  assert ([Config.tagRenamed] <> [Config.noVariant]) as Hdiff by discriminate.
  assert ([Config.noVariant] <> [Config.tagRenamed]) as Hdiff' by discriminate.
  destruct (Config.truthy (Config.ofInput input Config.inputGraphVariant));
    [cbn [snd]; intuition (discriminate || congruence)|].
  destruct (Config.truthy (Config.APOLLO_GRAPH_VARIANT env)).
  { destruct (Config.truthy (Config.ENGINE_SCHEMA_TAG env)); cbn [snd];
      intuition (discriminate || congruence). }
  destruct (Config.truthy (Config.ENGINE_SCHEMA_TAG env));
    [cbn [snd]; intuition (discriminate || congruence)|].
  destruct (Config.truthy (Config.ofInput input Config.inputKey)) as [k|] eqn:Hk.
  { apply truthy_Some in Hk. destruct Hk as [_ Hk].
    rewrite (truthy_of k Hk). cbn [snd]. intuition (discriminate || congruence). }
  rewrite truthy_idem.
  destruct (Config.truthy (Config.APOLLO_KEY env)); cbn [snd];
    intuition (discriminate || congruence).
Qed.

(** ** The error classes *)

Section ErrorFacts.
Import Errors.

(** The properties copied from [properties] onto an object. *)
Lemma assigned_lookup (init props : object) (k : string) :
  map_fold (fun k v this => assign this k v) init props !! k
  = if String.eqb k "__proto__" then init !! k
    else match props !! k with
         | Some v => Some v
         | None => init !! k
         end.
Proof.
  apply (map_fold_weak_ind
           (fun r m => r !! k = if String.eqb k "__proto__" then init !! k
                                else match m !! k with
                                     | Some v => Some v
                                     | None => init !! k
                                     end)).
  - rewrite lookup_empty. destruct (String.eqb k "__proto__"); reflexivity.
  - intros i x m r Hi IH. unfold assign.
    destruct (String.eqb i "__proto__") eqn:Hproto.
    + rewrite IH. destruct (String.eqb k "__proto__") eqn:Hk; [reflexivity|].
      apply String.eqb_eq in Hproto. subst i.
      rewrite lookup_insert_ne; [reflexivity|].
      intros <-. rewrite String.eqb_refl in Hk. discriminate.
    + destruct (decide (i = k)) as [->|Hne].
      * rewrite Hproto, !lookup_insert_eq. reflexivity.
      * rewrite !lookup_insert_ne by exact Hne. exact IH.
Qed.
End ErrorFacts.

(** X21: an [ApolloError] always has the extensions [{ code }] and nothing
    else in them: an [extensions] entry of [properties] is lost. Every other
    entry of [properties] becomes a property of the error, the entry
    [message] in place of the message given to the constructor. *)
Theorem ApolloError_extensions_fixed (stack message : string)
    (code : option string) (properties : option Errors.object) :
  let error := Errors.ApolloError stack message code properties in
  error !! "extensions" = Some (Errors.codeObject code) /\
  forall k v,
    k <> "extensions" -> k <> "__proto__" ->
    (properties ≫= (fun props => props !! k)) = Some v ->
    error !! k = Some v.
Proof.
  intros error. unfold error, Errors.ApolloError. split.
  - apply lookup_insert_eq.
  - intros k v Hk Hproto Hv.
    rewrite lookup_insert_ne by congruence.
    destruct properties as [props|]; [|discriminate].
    simpl in Hv. rewrite assigned_lookup, Hv.
    destruct (String.eqb k "__proto__") eqn:Hp; [|reflexivity].
    apply String.eqb_eq in Hp. contradiction.
Qed.

(** ** [toApolloError] *)

Lemma get_insert (o : Errors.object) k v : Errors.get (<[k := v]> o) k = v.
Proof. unfold Errors.get. rewrite lookup_insert_eq. reflexivity. Qed.

(** The result of [toApolloError] on an error without extensions to keep. *)
Lemma toApolloError_fresh (error : Errors.object) (c : string) :
  let error' := <["extensions" := Errors.Obj {["code" := Errors.Str c]}]> error in
  error' !! "extensions" = Some (Errors.Obj (<["code" := Errors.Str c]> ∅)) /\
  (forall k, k <> "extensions" -> error' !! k = error !! k) /\
  (forall code2,
      Errors.toApolloError error' code2
      = Done (<["extensions" :=
                 Errors.Obj {["code" := Errors.Str
                                          match code2 with
                                          | Some c2 => c2
                                          | None => "INTERNAL_SERVER_ERROR"
                                          end]}]> error)).
Proof.
  intros error'. split; [|split].
  - unfold error'. rewrite lookup_insert_eq, insert_empty. reflexivity.
  - intros k Hk. apply lookup_insert_ne. congruence.
  - intros code2. unfold Errors.toApolloError, error'. rewrite get_insert.
    rewrite insert_insert_eq, insert_singleton. reflexivity.
Qed.

Lemma toApolloError_falsy (error : Errors.object) v :
  Errors.get error "extensions" = v -> Errors.truthy v = false ->
  forall code2,
    Errors.toApolloError error code2
    = Done (<["extensions" :=
               Errors.Obj {["code" := Errors.Str
                                        match code2 with
                                        | Some c2 => c2
                                        | None => "INTERNAL_SERVER_ERROR"
                                        end]}]> error).
Proof.
  intros Hv Ht code2. unfold Errors.toApolloError. rewrite Hv.
  destruct v; try discriminate; cbn [Errors.truthy] in Ht |- *;
    rewrite ?Ht; reflexivity.
Qed.

Lemma toApolloError_primitive (error : Errors.object) v code :
  Errors.get error "extensions" = v -> Errors.truthy v = true ->
  (forall extensions, v <> Errors.Obj extensions) ->
  Errors.toApolloError error code = TypeError.
Proof.
  intros Hv Ht Hobj. unfold Errors.toApolloError. rewrite Hv.
  destruct v; try discriminate; cbn [Errors.truthy] in Ht |- *;
    rewrite ?Ht; try reflexivity.
  exfalso. eapply Hobj. reflexivity.
Qed.

(** X22: where [toApolloError] returns, the extensions of the error hold
    the given code (or the default one), the other entries of the extensions
    and the other properties of the error are as before, and a later call
    replaces the code: only the last code counts. It throws only when
    [extensions] holds a primitive value that is truthy. *)
Theorem toApolloError_sets_code (error : Errors.object) (code : option string) :
  match Errors.toApolloError error code with
  | Done error' =>
      let before :=
        match Errors.get error "extensions" with
        | Errors.Obj extensions => extensions
        | _ => ∅
        end in
      let c := match code with Some c => c | None => "INTERNAL_SERVER_ERROR" end in
      error' !! "extensions" = Some (Errors.Obj (<["code" := Errors.Str c]> before)) /\
      (forall k, k <> "extensions" -> error' !! k = error !! k) /\
      (forall code2,
          Errors.toApolloError error' code2 = Errors.toApolloError error code2)
  | TypeError =>
      Errors.truthy (Errors.get error "extensions") = true /\
      forall extensions, Errors.get error "extensions" <> Errors.Obj extensions
  | Stuck => False
  end.
Proof.
  set (c := match code with Some c => c | None => "INTERNAL_SERVER_ERROR" end).
  destruct (Errors.get error "extensions") as [| |b|n| |s|extensions] eqn:Hext.
  7: { unfold Errors.toApolloError at 1. rewrite Hext. cbv zeta.
       split; [apply lookup_insert_eq|]. split.
       - intros k Hk. apply lookup_insert_ne. congruence.
       - intros code2. unfold Errors.toApolloError.
         rewrite get_insert, Hext, !insert_insert_eq. reflexivity. }
  all: lazymatch type of Hext with
       | _ = ?v => destruct (Errors.truthy v) eqn:Ht
       end.
  all: try (rewrite (toApolloError_primitive error _ code Hext Ht)
              by discriminate;
            split; [reflexivity|discriminate]).
  all: rewrite (toApolloError_falsy error _ Hext Ht code);
       destruct (toApolloError_fresh error c) as (H1 & H2 & H3);
       cbv zeta; split; [exact H1|]; split; [exact H2|];
       intros code2; rewrite H3;
       rewrite (toApolloError_falsy error _ Hext Ht code2); reflexivity.
Qed.

(** ** [formatApolloErrors] *)

Section FormatFacts.
Import Errors.
Context {E : Type}.
Variable enrichError : E -> bool -> completion E E.
Variable internalServerError : completion E E.
Variable notAFunction : E.

Lemma mapC_formatOne_no_logFunction (format : E -> completion E E)
    (dbg : option bool) (enriched : list E) :
  Exists (fun x => exists err, format x = Throw err) enriched ->
  mapC E (formatOne E enrichError internalServerError notAFunction
            (mkOptions E (Some format) None dbg) format) enriched
  = (Throw notAFunction, []).
Proof.
  induction enriched as [|x l IH]; intros H; [inversion H|].
  cbn [mapC]. unfold formatOne at 1. cbn [logFunction].
  destruct (format x) as [y|err] eqn:Hx; [|reflexivity].
  rewrite IH; [reflexivity|].
  inversion H as [? ? [err Herr]|]; subst; [congruence|assumption].
Qed.

Lemma mapC_formatOne_masked (format : E -> completion E E)
    (log : E -> completion E unit) (dbg : option bool) (enriched : list E)
    (newError masked : E) :
  match dbg with Some b => b | None => false end = false ->
  (forall err, log err = Normal tt) ->
  internalServerError = Normal newError ->
  enrichError newError false = Normal masked ->
  mapC E (formatOne E enrichError internalServerError notAFunction
            (mkOptions E (Some format) (Some log) dbg) format) enriched
  = (Normal (map (fun x => match format x with
                           | Normal formatted => formatted
                           | Throw _ => masked
                           end) enriched),
     flat_map (fun x => match format x with
                        | Normal _ => []
                        | Throw err => [err]
                        end) enriched).
Proof.
  intros Hdbg Hlog Hise Hmasked.
  induction enriched as [|x l IH]; [reflexivity|].
  cbn [mapC map flat_map]. rewrite IH. unfold formatOne.
  cbn [logFunction debug]. rewrite Hdbg.
  destruct (format x) as [y|err]; [reflexivity|].
  rewrite Hlog, Hise, Hmasked. reflexivity.
Qed.
End FormatFacts.

(** X23: when the formatter throws for one of the errors and the options
    hold no [logFunction], [formatApolloErrors] does not return: it throws
    the [TypeError] of the call of [undefined], whatever the formatter
    threw and whether [debug] is set or not. *)
Theorem formatter_failure_needs_logFunction {E : Type}
    (enrichError : E -> bool -> Errors.completion E E)
    (internalServerError : Errors.completion E E) (notAFunction : E)
    (errors enriched : list E) (log0 : list E)
    (format : E -> Errors.completion E E) (dbg : option bool) :
  Errors.mapC E
    (fun error =>
       (enrichError error (match dbg with Some b => b | None => false end), []))
    errors
  = (Errors.Normal enriched, log0) ->
  Exists (fun x => exists err, format x = Errors.Throw err) enriched ->
  Errors.formatApolloErrors E enrichError internalServerError notAFunction
    errors (Some (Errors.mkOptions E (Some format) None dbg))
  = (Errors.Throw notAFunction, []).
Proof.
  intros Henrich Hthrows. unfold Errors.formatApolloErrors.
  cbn [Errors.debug Errors.formatter]. rewrite Henrich.
  apply mapC_formatOne_no_logFunction. exact Hthrows.
Qed.

Lemma formatter_failure_needs_logFunction_witness :
  Errors.formatApolloErrors string (fun e _ => Errors.Normal e)
    (Errors.Normal "Internal server error") "TypeError"
    ["first"; "second"]
    (Some (Errors.mkOptions string
             (Some (fun e => if String.eqb e "second" then Errors.Throw "boom"
                             else Errors.Normal e))
             None (Some true)))
  = (Errors.Throw "TypeError", []).
Proof.
  apply (formatter_failure_needs_logFunction (E := string) _ _ _
           ["first"; "second"] ["first"; "second"] []).
  - reflexivity.
  - apply Exists_cons_tl. apply Exists_cons_hd. exists "boom". reflexivity.
Defined.

(** X24: without [debug], a formatter that throws is hidden: with a
    [logFunction] that returns, [formatApolloErrors] returns one error for
    each error given, the value of the formatter where it returns and, where
    it throws, the enriched "Internal server error", which does not depend
    on the error or on what was thrown. What was thrown goes to
    [logFunction], once for each failure, in order. *)
Theorem formatter_failures_masked {E : Type}
    (enrichError : E -> bool -> Errors.completion E E)
    (internalServerError : Errors.completion E E) (notAFunction : E)
    (errors enriched : list E) (log0 : list E)
    (format : E -> Errors.completion E E)
    (log : E -> Errors.completion E unit) (dbg : option bool)
    (newError masked : E) :
  match dbg with Some b => b | None => false end = false ->
  Errors.mapC E (fun error => (enrichError error false, [])) errors
  = (Errors.Normal enriched, log0) ->
  (forall err, log err = Errors.Normal tt) ->
  internalServerError = Errors.Normal newError ->
  enrichError newError false = Errors.Normal masked ->
  Errors.formatApolloErrors E enrichError internalServerError notAFunction
    errors (Some (Errors.mkOptions E (Some format) (Some log) dbg))
  = (Errors.Normal
       (map (fun x => match format x with
                      | Errors.Normal formatted => formatted
                      | Errors.Throw _ => masked
                      end) enriched),
     flat_map (fun x => match format x with
                        | Errors.Normal _ => []
                        | Errors.Throw err => [err]
                        end) enriched).
Proof.
  intros Hdbg Henrich Hlog Hise Hmasked. unfold Errors.formatApolloErrors.
  cbn [Errors.debug Errors.formatter]. rewrite Hdbg, Henrich.
  apply (mapC_formatOne_masked enrichError internalServerError notAFunction
           format log dbg enriched newError masked); assumption.
Qed.

Lemma formatter_failures_masked_witness :
  Errors.formatApolloErrors string (fun e _ => Errors.Normal e)
    (Errors.Normal "Internal server error") "TypeError"
    ["first"; "second"]
    (Some (Errors.mkOptions string
             (Some (fun e => if String.eqb e "second" then Errors.Throw "boom"
                             else Errors.Normal e))
             (Some (fun _ => Errors.Normal tt)) None))
  = (Errors.Normal ["first"; "Internal server error"], ["boom"]).
Proof.
  apply (formatter_failures_masked (E := string) (fun e _ => Errors.Normal e)
           (Errors.Normal "Internal server error") "TypeError"
           ["first"; "second"] ["first"; "second"] []
           (fun e => if String.eqb e "second" then Errors.Throw "boom"
                     else Errors.Normal e)
           (fun _ => Errors.Normal tt) None
           "Internal server error" "Internal server error");
    reflexivity.
Defined.

(** ** The order of the combined fields *)

(** X25: the selections of a declaring-type group are fields, one for each
    response name of the group, in the order in which the response names
    first appear in the group. *)
Theorem combined_fields_in_first_appearance_order (fs : FieldSet)
    (sels : list SelectionNode) :
  combinedSelections fs = Done sels ->
  Forall2 (fun rep node =>
             exists f, node = FIELD f /\ getResponseName f = responseName rep)
          (firstOccurrences String.eqb responseName fs) sels.
Proof.
  rewrite combinedSelections_eq. intros H. apply mapM_Done in H.
  eapply Forall2_impl_In; [exact H|]. cbv beta.
  intros rep node Hrep Hnode.
  destruct (combineFields (withKey String.eqb responseName (responseName rep) fs))
    as [c| |] eqn:Hc; simpl in Hnode; try discriminate.
  injection Hnode as <-. exists (fieldNode c). split; [reflexivity|].
  apply (combineFields_responseName
           (withKey String.eqb responseName (responseName rep) fs) rep c);
    [|exact Hc].
  apply (head_withKey_first String.eqb responseName String.eqb_refl
           String.eqb_sym eqb_trans). exact Hrep.
Qed.

Lemma combined_fields_in_first_appearance_order_witness :
  let fs := [field_ (typeT 1) "b" stringField None;
             field_ (typeT 1) "a" stringField None;
             field_ (typeT 1) "b" stringField None] in
  Forall2 (fun rep node =>
             exists f, node = FIELD f /\ getResponseName f = responseName rep)
          (firstOccurrences String.eqb responseName fs)
          [leaf_ None "b"; leaf_ None "a"].
Proof.
  intros fs.
  apply (combined_fields_in_first_appearance_order fs). reflexivity.
Defined.

(** ** The size of the merged selections *)

Lemma firstOccurrences_length {A K : Type} (sameKey : K -> K -> bool)
    (key : A -> K) l :
  length (firstOccurrences sameKey key l) <= length l.
Proof.
  induction l as [|x l IH]; simpl; [lia|].
  pose proof (List.filter_length_le
                (fun y => negb (sameKey (key x) (key y)))
                (firstOccurrences sameKey key l)). lia.
Qed.

(** On trees, the merged selections are no more and no deeper than the
    selections given. *)
Lemma mergeSelectionsSetsInternal_size (l out : list SelectionNode) :
  mergeSelectionsSetsInternal l = Done out ->
  length out <= length l /\ depthList out <= depthList l.
Proof.
  intros H.
  pose proof (mergeSelectionsSetsInternal_cases l) as Hwk. rewrite H in Hwk.
  unfold mergeSelectionsSetsInternal in H.
  rewrite mergeWithFuel_merged in H by (lia || exact Hwk).
  injection H as <-.
  split; [|exact (mergedWithFuel_depth (S (depthList l)) l)].
  cbn [mergedWithFuel]. rewrite length_app, length_map.
  pose proof (firstOccurrences_length sameName nameValue (leaves l)).
  pose proof (firstOccurrences_length String.eqb keyOf (branches l)).
  assert (length (leaves l) + length (branches l) = length l) as Hsplit.
  { clear. induction l as [|x l IH]; simpl; [reflexivity|].
    destruct (isLeaf x); simpl; lia. }
  lia.
Qed.

Lemma traverse_length {A B : Type} (f : A -> option B) l k :
  traverse f l = Some k -> length l = length k.
Proof.
  intros H. apply traverse_Some in H.
  induction H as [|a b l k _ _ IH]; simpl; [reflexivity|]. rewrite IH.
  reflexivity.
Qed.

(** X26: merging unshared objects does not grow the selections. When
    [mergeSelectionsSetsInternal] returns on a store that holds its input at
    unshared [SelectionSetNode] objects, the list it returns has no more
    items than the list it is given, and the trees it holds in the final
    store are not deeper than those of the input. *)
Theorem merge_does_not_grow (m k : nat) (h h1 : Store.store)
    (ns outs : list Store.Node) (vs : list SelectionNode) :
  Store.separated k h ns vs -> k < m ->
  Store.mergeWithFuel m ns h = Done (outs, h1) ->
  length outs <= length ns /\
  exists out : list SelectionNode,
    traverse (Store.decode k h1) outs = Some out /\
    depthList out <= depthList vs.
Proof.
  intros Hsep Hm Hrun.
  pose proof (store_merge_outcome m k h ns vs Hsep Hm) as H1.
  unfold Store.simulates in H1.
  destruct (mergeSelectionsSetsInternal vs) as [out| |] eqn:Hout;
    [|congruence|congruence].
  destruct H1 as (nodes & h' & Heq & [Hdec _] & _).
  rewrite Hrun in Heq. injection Heq as <- <-.
  destruct (mergeSelectionsSetsInternal_size vs out Hout) as [Hlen Hdepth].
  rewrite (traverse_length _ _ _ Hdec), (traverse_length _ _ _ (proj1 Hsep)).
  split; [exact Hlen|]. exists out. split; [exact Hdec|exact Hdepth].
Qed.

Lemma merge_does_not_grow_witness :
  let ns := [Store.FIELD (Store.branch_ "b" 1); Store.FIELD (Store.branch_ "b" 3)] in
  let vs := [branch_ "b" [leaf_ None "x"]; branch_ "b" [leaf_ None "y"]] in
  let outs := [Store.FIELD (Store.branch_ "b" 1)] in
  let h1 := <[1 := [Store.leaf_ "x"; Store.leaf_ "y"]]> Store.store_ab in
  Store.separated 2 Store.store_ab ns vs /\ 2 < 3 /\
  Store.mergeWithFuel 3 ns Store.store_ab = Done (outs, h1) /\
  length outs <= length ns /\
  exists out : list SelectionNode,
    traverse (Store.decode 2 h1) outs = Some out /\
    depthList out <= depthList vs.
Proof.
  intros ns vs outs h1.
  assert (Store.mergeWithFuel 3 ns Store.store_ab = Done (outs, h1)) as Hrun
    by (vm_compute; reflexivity).
  split; [exact store_ab_separated|]. split; [lia|]. split; [exact Hrun|].
  apply (merge_does_not_grow 3 2 Store.store_ab h1 ns outs vs
           store_ab_separated); [lia|exact Hrun].
Defined.

(** ** Fields whose nested selections are leaf items *)

Section Flat.
Import Store.

(** The nested selections of the fields are in the store and hold leaf
    items only. *)
Local Abbreviation flat h fields :=
  (forall (f : Store.Field) l,
      In f fields -> selectionSet (fieldNode f) = Some l ->
      exists sels, h !! l = Some sels /\ forallb Store.isLeaf sels = true).

Lemma flat_weaken (h h' : store) (fields : Store.FieldSet) :
  h ⊆ h' -> flat h fields -> flat h' fields.
Proof.
  intros Hsub H f l Hf Hl. destruct (H f l Hf Hl) as (sels & Hs & Hleaf).
  exists sels. split; [|exact Hleaf].
  eapply lookup_weaken; [exact Hs|exact Hsub].
Qed.

Lemma alloc_extends (sels : list Node) (h : store) : h ⊆ snd (alloc sels h).
Proof.
  unfold alloc. cbn [snd]. apply insert_subseteq.
  apply not_elem_of_dom. apply is_fresh.
Qed.

(** Leaf items are merged without an assignment. *)
Lemma mergeWithFuel_leaves n (ns : list Node) (h : store) outs h' :
  forallb Store.isLeaf ns = true ->
  Store.mergeWithFuel n ns h = Done (outs, h') -> h' = h.
Proof.
  intros Hleaf. destruct n as [|n]; [discriminate|].
  assert (Store.branches ns = []) as Hb.
  { unfold Loop.branches. apply filter_none. apply List.Forall_forall.
    intros x Hx. rewrite forallb_forall in Hleaf. rewrite (Hleaf x Hx).
    reflexivity. }
  rewrite store_mergeWithFuel_unfold.
  - rewrite Hb. cbn. intros [= _ <-]. reflexivity.
  - intros e l He Hl. rewrite forallb_forall in Hleaf.
    specialize (Hleaf e He). unfold Loop.isLeaf in Hleaf. rewrite Hl in Hleaf.
    discriminate.
Qed.

Lemma gatherSelections_leaves (h : store) (g : Store.FieldSet) sels :
  flat h g ->
  Store.gatherSelections h (map fieldNode g) = Done sels ->
  forallb Store.isLeaf sels = true.
Proof.
  revert sels. induction g as [|f g IH]; intros sels Hflat; simpl.
  - intros [= <-]. reflexivity.
  - destruct (selectionSet (fieldNode f)) as [l|] eqn:Hl.
    + destruct (Hflat f l (or_introl eq_refl) Hl) as (here & Hh & Hleaf).
      unfold read. rewrite Hh. cbn [bind].
      destruct (Store.gatherSelections h (map fieldNode g)) as [there| |] eqn:Hg;
        cbn [bind]; try discriminate.
      intros [= <-]. rewrite forallb_app, Hleaf.
      apply (IH there); [|reflexivity].
      intros f' l' Hf'. apply Hflat. right. exact Hf'.
    + cbn [bind].
      destruct (Store.gatherSelections h (map fieldNode g)) as [there| |] eqn:Hg;
        cbn [bind]; try discriminate.
      intros [= <-]. apply (IH there); [|reflexivity].
      intros f' l' Hf'. apply Hflat. right. exact Hf'.
Qed.

Lemma combineFields_flat fuel (h : store) (g : Store.FieldSet) c h' :
  flat h g -> Store.combineFields fuel g h = Done (c, h') -> h ⊆ h'.
Proof.
  intros Hflat. unfold Store.combineFields.
  destruct g as [|first rest]; [discriminate|]. cbv zeta.
  destruct (isCompositeType (getNamedType (fieldDefType (fieldDef first))));
    [|intros [= _ <-]; reflexivity].
  unfold Store.mergeSelectionSets.
  destruct (Store.gatherSelections h (map fieldNode (first :: rest)))
    as [sels| |] eqn:Hg; cbn [bind]; try discriminate.
  pose proof (gatherSelections_leaves h _ sels Hflat Hg) as Hleaf.
  destruct (Store.mergeWithFuel fuel sels h) as [[outs h1]| |] eqn:Hm;
    cbn [bind]; try discriminate.
  apply (mergeWithFuel_leaves fuel sels h outs h1 Hleaf) in Hm. subst h1.
  cbn [fst snd]. intros [= _ <-]. apply alloc_extends.
Qed.

Lemma mapS_extends {A B : Type} (f : A -> store -> outcome (B * store))
    (l : list A) (h0 : store) :
  (forall a h r h', In a l -> h0 ⊆ h -> f a h = Done (r, h') -> h ⊆ h') ->
  forall h rs h', h0 ⊆ h -> Store.mapS f l h = Done (rs, h') -> h ⊆ h'.
Proof.
  induction l as [|a l IH]; intros Hf h rs h' Hh; simpl.
  - intros [= _ <-]. reflexivity.
  - destruct (f a h) as [[r h1]| |] eqn:Ha; cbn [bind fst snd];
      try discriminate.
    destruct (Store.mapS f l h1) as [[rs1 h2]| |] eqn:Hl; cbn [bind fst snd];
      try discriminate.
    intros [= _ <-].
    pose proof (Hf a h r h1 (or_introl eq_refl) Hh Ha) as H1.
    transitivity h1; [exact H1|].
    apply (IH (fun b hb rb hb' Hb => Hf b hb rb hb' (or_intror Hb)) h1 rs1 h2);
      [transitivity h; assumption|exact Hl].
Qed.

Lemma groupBy_incl {T U : Type} (sameKey : U -> U -> bool) (key : T -> U)
    (l : list T) k g :
  keyEquality sameKey -> In (k, g) (groupBy sameKey key l) -> incl g l.
Proof.
  intros (Hrefl & Hsym & Htrans) Hin.
  rewrite (groupBy_groups sameKey key Hrefl Hsym Htrans) in Hin.
  apply in_map_iff in Hin. destruct Hin as (e & [= <- <-] & _).
  apply withKey_incl.
Qed.

Lemma keyEquality_string : keyEquality String.eqb.
Proof. split; [exact String.eqb_refl|]. split; [exact String.eqb_sym|exact eqb_trans]. Qed.

Lemma keyEquality_object : keyEquality sameObject.
Proof.
  split; [exact sameObject_refl|]. split; [exact sameObject_sym|exact sameObject_trans].
Qed.

Lemma combinedSelections_flat fuel (h0 h : store) (fs : Store.FieldSet) sels h' :
  flat h0 fs -> h0 ⊆ h ->
  Store.combinedSelections fuel fs h = Done (sels, h') -> h ⊆ h'.
Proof.
  intros Hflat Hh. unfold Store.combinedSelections.
  apply (mapS_extends _ _ h0); [|exact Hh].
  intros [k g] h1 r h2 Hg Hh1. cbn [snd].
  destruct (Store.combineFields fuel g h1) as [[c h3]| |] eqn:Hc;
    cbn [bind]; try discriminate.
  intros [= _ <-]. apply (combineFields_flat fuel h1 g c h3); [|exact Hc].
  apply (flat_weaken h0 h1 g Hh1).
  intros f l Hf. apply Hflat.
  exact (groupBy_incl String.eqb _ fs k g keyEquality_string Hg f Hf).
Qed.
End Flat.

(** X27: when the nested selections of the given fields hold leaf items
    only, [selectionSetFromFieldSet] assigns to no object of the store: every
    [SelectionSetNode] that was there holds the same selections after the
    call. *)
Theorem flat_inputs_not_assigned (fuel : nat) (fields : Store.FieldSet)
    (pt : option GraphQLCompositeType) (h h' : Store.store)
    (out : list Store.Node) :
  (forall (f : Store.Field) l,
      In f fields -> selectionSet (fieldNode f) = Some l ->
      exists sels, h !! l = Some sels /\ forallb Store.isLeaf sels = true) ->
  Store.selectionSetFromFieldSet fuel fields pt h = Done (out, h') ->
  forall l sels, h !! l = Some sels -> h' !! l = Some sels.
Proof.
  intros Hflat Hrun.
  assert (h ⊆ h') as Hsub.
  { unfold Store.selectionSetFromFieldSet in Hrun.
    match type of Hrun with
    | bind (Store.mapS ?f ?l ?h) _ = _ =>
        destruct (Store.mapS f l h) as [[groups h1]| |] eqn:Hm;
        cbn [bind] in Hrun; try discriminate
    end.
    injection Hrun as _ <-. cbn [snd].
    eapply (mapS_extends _ _ h); [|reflexivity|exact Hm].
    intros [tc g] hA r hB Hkv HhA Hstep.
    destruct (Store.combinedSelections fuel g hA) as [[sels h3]| |] eqn:Hc;
      cbn [bind fst snd] in Hstep; try discriminate.
    injection Hstep as Hstep.
    assert (hB = snd (Store.wrapInInlineFragmentIfNeeded sels tc pt h3)) as ->
      by (rewrite Hstep; reflexivity).
    clear Hstep. transitivity h3.
    - apply (combinedSelections_flat fuel h hA g sels h3);
        [|exact HhA|exact Hc].
      intros f l Hf. apply Hflat.
      exact (groupBy_incl sameObject _ fields tc g keyEquality_object Hkv f Hf).
    - unfold Store.wrapInInlineFragmentIfNeeded. cbv zeta.
      destruct (match pt with
                | Some p => sameObject tc p
                | None => false
                end); [reflexivity|].
      pose proof (alloc_extends sels h3) as Ha.
      destruct (Store.alloc sels h3) as [l0 h4]. exact Ha. }
  intros l sels Hl. eapply lookup_weaken; [exact Hl|exact Hsub].
Qed.

Lemma flat_inputs_not_assigned_witness :
  let h : Store.store := <[0 := [Store.leaf_ "x"]]> (<[2 := [Store.leaf_ "y"]]> ∅) in
  let fields := [Store.field_abx; Store.field_aby] in
  match Store.selectionSetFromFieldSet 2 fields (Some Store.typeT) h with
  | Done (out, h') => forall l sels, h !! l = Some sels -> h' !! l = Some sels
  | _ => False
  end.
Proof.
  intros h fields.
  destruct (Store.selectionSetFromFieldSet 2 fields (Some Store.typeT) h)
    as [[out h']| |] eqn:Hrun.
  - apply (flat_inputs_not_assigned 2 fields (Some Store.typeT) h h' out);
      [|exact Hrun].
    intros f l [<-|[<-|[]]] [= <-]; eexists; split; reflexivity.
  - vm_compute in Hrun. discriminate.
  - vm_compute in Hrun. discriminate.
Defined.

(** ** Where the merged selections come from *)

(** X28: the merge invents nothing and loses no key. A leaf item of the
    result is an item of the input; a branching item of the result is a
    branching item of the input with other nested selections. Every leaf
    item of the input has its name on a leaf item of the result, and every
    branching item of the input its key on a branching item of the result. *)
Theorem merge_invents_nothing (l out : list SelectionNode) :
  mergeSelectionsSetsInternal l = Done out ->
  (forall x, In x out ->
     if isLeaf x then In x l
     else exists e merged,
            In e l /\ isLeaf e = false /\ x = withSelections e merged) /\
  (forall e, In e l ->
     exists x, In x out /\ isLeaf x = isLeaf e /\
               if isLeaf e then sameName (nameValue x) (nameValue e) = true
               else keyOf x = keyOf e).
Proof.
  intros H.
  pose proof (mergeSelectionsSetsInternal_cases l) as Hwk. rewrite H in Hwk.
  unfold mergeSelectionsSetsInternal in H.
  rewrite mergeWithFuel_merged in H by (lia || exact Hwk).
  injection H as <-. cbn [mergedWithFuel].
  set (item := fun e =>
         withSelections e
           (mergedWithFuel (depthList l) (flat_map children (group e l)))).
  split.
  - intros x Hx. apply in_app_or in Hx. destruct Hx as [Hx|Hx].
    + apply firstOccurrences_incl in Hx. apply List.filter_In in Hx.
      destruct Hx as [Hx Hleaf]. rewrite Hleaf. exact Hx.
    + apply in_map_iff in Hx. destruct Hx as (e & <- & He).
      apply firstOccurrences_incl in He. apply List.filter_In in He.
      destruct He as [He Hleaf]. apply negb_true_iff in Hleaf.
      destruct (withSelections_branch e
                  (mergedWithFuel (depthList l) (flat_map children (group e l)))
                  Hleaf) as (Hl' & _ & _).
      fold (item e) in Hl'. rewrite Hl'. unfold item. eauto.
  - intros e He. destruct (isLeaf e) eqn:Hleaf.
    + assert (In e (leaves l)) as Hin
        by (apply List.filter_In; split; assumption).
      destruct (firstOccurrences_rep sameName nameValue sameName_refl
                  sameName_sym sameName_trans e (leaves l) Hin)
        as (r & Hr & Hre).
      exists r. split; [apply in_or_app; left; exact Hr|]. split; [|exact Hre].
      apply firstOccurrences_incl in Hr. apply List.filter_In in Hr. tauto.
    + assert (In e (branches l)) as Hin
        by (apply List.filter_In; split; [exact He|rewrite Hleaf; reflexivity]).
      destruct (firstOccurrences_rep String.eqb keyOf String.eqb_refl
                  String.eqb_sym eqb_trans e (branches l) Hin)
        as (r & Hr & Hre).
      destruct (template_branch _ _ Hr) as [_ Hrleaf].
      destruct (withSelections_branch r
                  (mergedWithFuel (depthList l) (flat_map children (group r l)))
                  Hrleaf) as (Hl' & Hk' & _).
      exists (item r). split; [|split].
      * apply in_or_app. right. apply in_map_iff. exists r. split; [reflexivity|exact Hr].
      * exact Hl'.
      * unfold item. rewrite Hk'. apply String.eqb_eq. exact Hre.
Qed.

Lemma merge_invents_nothing_witness :
  let l := [leaf_ None "a"; branch_ "b" [leaf_ None "x"]; leaf_ None "a";
            branch_ "b" [leaf_ None "y"]] in
  let out := [leaf_ None "a"; branch_ "b" [leaf_ None "x"; leaf_ None "y"]] in
  (forall x, In x out ->
     if isLeaf x then In x l
     else exists e merged,
            In e l /\ isLeaf e = false /\ x = withSelections e merged) /\
  (forall e, In e l ->
     exists x, In x out /\ isLeaf x = isLeaf e /\
               if isLeaf e then sameName (nameValue x) (nameValue e) = true
               else keyOf x = keyOf e).
Proof.
  intros l out. apply (merge_invents_nothing l out). reflexivity.
Defined.
